(** * TritonGPU to LLVM lowering pass: a shallow embedding

    Source: lib/Conversion/TritonGPUToLLVM/TritonGPUToLLVMPass.cpp

    The pass rewrites an MLIR module in place.  The embedding keeps the
    parts of the IR the pass inspects or edits: operations with typed
    operands, results and an attribute dictionary; functions with a
    signature, attributes and a body; the module with its attribute
    dictionary.  Rewrites are pure functions from IR to IR; a rewrite that
    reports failure returns an error value. *)

From Stdlib Require Import ZArith Lia Ascii String.
From stdpp Require Import gmap strings list fin_maps.

Set Warnings "-register-all".
Open Scope Z_scope.

(** ** Machine integers *)

(** [unsigned] is 32 bits wide; conversion to it reduces modulo 2^32. *)
Definition u32 (z : Z) : Z := z mod 2 ^ 32.

(** [int] is 32 bits wide, two's complement. *)
Definition i32 (z : Z) : Z := (z + 2 ^ 31) mod 2 ^ 32 - 2 ^ 31.

(** ** Targets, types, attributes, values *)

(** [triton::Target]. *)
Inductive Target : Type := NVVM | ROCDL | GENX.

Global Instance Target_eq_dec : EqDecision Target.
Proof. solve_decision. Defined.

(** Layout encodings of a ranked tensor type.  [vec] is the only field
    of the shared encoding the pass reads. *)
Inductive Encoding : Type :=
| BlockedEncoding (tag : nat)
| SharedEncoding (vec : Z)
| OtherEncoding (tag : nat).

(** Element and scalar types. *)
Inductive ElemType : Type :=
| IntegerType (width : Z)
| FloatType (width : Z)
| TritonPointerType (addrspace : Z).

(** [Type::getIntOrFloatBitWidth]: asserts that the type is an integer or
    a float type. *)
Definition getIntOrFloatBitWidth (t : ElemType) : option Z :=
  match t with
  | IntegerType w | FloatType w => Some w
  | TritonPointerType _ => None
  end.

Record RankedTensorType : Type := mkTensor {
  getShape : list Z;
  getElementType : ElemType;
  getEncoding : option Encoding
}.

Definition getRank (t : RankedTensorType) : nat := length (getShape t).

Inductive type : Type :=
| Scalar (t : ElemType)
| Tensor (t : RankedTensorType)
| LLVMPointerType (addrspace : Z)
| LLVMArrayType (elem : type) (n : Z)
| LLVMStructType (fields : list type)
| LLVMVoidType.

Inductive Attribute : Type :=
| UnitAttr
| IntegerAttr (width : Z) (value : Z)
| StringAttr (s : string)
| I32ArrayAttr (l : list Z)
| DenseI32ArrayAttr (l : list Z)
| StrArrayAttr (l : list string).

(** An attribute dictionary: names are unique. *)
Abbreviation AttrDict := (gmap string Attribute).

(** An SSA value: an identity and a type.  Two values are the same value
    when their identities agree. *)
Record Value : Type := mkValue { v_id : nat; v_type : type }.

Definition same_value (a b : Value) : bool := Nat.eqb (v_id a) (v_id b).

(** [OpFoldResult]: a value or a constant integer attribute. *)
Inductive OpFoldResult : Type :=
| OfrValue (v : Value)
| OfrInt (n : Z).

(** ** Operations *)

(** The operation kinds the pass looks at, each with its operands
    (optional operands as [option]).  Inherent attributes that the pass
    forwards unread ([cache], [evict], [isVolatile]) are kept next to the
    operands; the callee of a call is an entry of its attribute
    dictionary. *)
Inductive OpKind : Type :=
| InsertSliceAsyncOp (src dst index : Value) (mask other : option Value)
    (cache evict : Z) (isVolatile : bool) (axis : nat)
| LoadOp (ptr : Value) (mask other : option Value)
    (cache evict : Z) (isVolatile : bool)
| TensorInsertSliceOp (source dest : Value)
    (offsets sizes strides : list OpFoldResult)
| AsyncCommitGroupOp
| AsyncWaitOp (num : Z)
| InsertSliceTMAOp (src dst index mbar : Value) (mask : option Value)
| SplatOp (src : Value)
| ClusterCTAIdOp
| ReturnOp (operands : list Value)
| CallOp (operands : list Value)
| LLVMConstantOp (value : Z)
| LLVMReturnOp (operands : list Value)
| LLVMCallOp (operands : list Value)
| LLVMUndefOp
| LLVMInsertValueOp (container value : Value) (position : nat)
| LLVMExtractValueOp (container : Value) (position : nat)
| OtherOp (name : string) (operands : list Value).

Record Operation : Type := mkOp {
  op_kind : OpKind;
  op_results : list Value;
  op_attrs : AttrDict
}.

(** [op->getAttrs()]: the dictionary as a list of named attributes. *)
Definition getAttrs (op : Operation) : list (string * Attribute) :=
  map_to_list (op_attrs op).

(** [op->setAttr(name, value)]. *)
Definition setAttr (op : Operation) (name : string) (value : Attribute)
  : Operation :=
  mkOp (op_kind op) (op_results op) (<[name := value]> (op_attrs op)).

(** [op->hasAttr(name)]. *)
Definition hasAttr (attrs : AttrDict) (name : string) : bool :=
  match attrs !! name with
  | Some _ => true
  | None => false
  end.

(** ** addWSNamedAttrs (lines 44-49) *)

Definition isWSName (name : string) : bool :=
  bool_decide (name = "async_agent"%string)
  || bool_decide (name = "agent.mutex_role"%string).

Definition addWSNamedAttrs (op : Operation)
    (attrs : list (string * Attribute)) : Operation :=
  foldl (fun o attr => if isWSName attr.1 then setAttr o attr.1 attr.2 else o)
        op attrs.

(** ** Uses of values *)

Definition mapOfr (f : Value -> Value) (o : OpFoldResult) : OpFoldResult :=
  match o with
  | OfrValue v => OfrValue (f v)
  | OfrInt n => OfrInt n
  end.

(** Apply [f] to every operand of an operation kind. *)
Definition mapOperands (f : Value -> Value) (k : OpKind) : OpKind :=
  match k with
  | InsertSliceAsyncOp s d i m o c e v a =>
      InsertSliceAsyncOp (f s) (f d) (f i) (f <$> m) (f <$> o) c e v a
  | LoadOp p m o c e v => LoadOp (f p) (f <$> m) (f <$> o) c e v
  | TensorInsertSliceOp s d offs szs strs =>
      TensorInsertSliceOp (f s) (f d)
        (mapOfr f <$> offs) (mapOfr f <$> szs) (mapOfr f <$> strs)
  | AsyncCommitGroupOp => AsyncCommitGroupOp
  | AsyncWaitOp n => AsyncWaitOp n
  | InsertSliceTMAOp s d i b m => InsertSliceTMAOp (f s) (f d) (f i) (f b) (f <$> m)
  | SplatOp s => SplatOp (f s)
  | ClusterCTAIdOp => ClusterCTAIdOp
  | ReturnOp l => ReturnOp (f <$> l)
  | CallOp l => CallOp (f <$> l)
  | LLVMConstantOp z => LLVMConstantOp z
  | LLVMReturnOp l => LLVMReturnOp (f <$> l)
  | LLVMCallOp l => LLVMCallOp (f <$> l)
  | LLVMUndefOp => LLVMUndefOp
  | LLVMInsertValueOp c v i => LLVMInsertValueOp (f c) (f v) i
  | LLVMExtractValueOp c i => LLVMExtractValueOp (f c) i
  | OtherOp n l => OtherOp n (f <$> l)
  end.

Definition ofrValues (o : OpFoldResult) : list Value :=
  match o with OfrValue v => [v] | OfrInt _ => [] end.

(** The operands of an operation kind, in order. *)
Definition getOperands (k : OpKind) : list Value :=
  match k with
  | InsertSliceAsyncOp s d i m o _ _ _ _ =>
      [s; d; i] ++ option_list m ++ option_list o
  | LoadOp p m o _ _ _ => [p] ++ option_list m ++ option_list o
  | TensorInsertSliceOp s d offs szs strs =>
      [s; d] ++ (offs ≫= ofrValues) ++ (szs ≫= ofrValues) ++ (strs ≫= ofrValues)
  | AsyncCommitGroupOp | AsyncWaitOp _ | ClusterCTAIdOp | LLVMConstantOp _
  | LLVMUndefOp => []
  | InsertSliceTMAOp s d i b m => [s; d; i; b] ++ option_list m
  | SplatOp s => [s]
  | ReturnOp l | CallOp l | LLVMReturnOp l | LLVMCallOp l | OtherOp _ l => l
  | LLVMInsertValueOp c v _ => [c; v]
  | LLVMExtractValueOp c _ => [c]
  end.

Definition mapOpOperands (f : Value -> Value) (op : Operation) : Operation :=
  mkOp (mapOperands f (op_kind op)) (op_results op) (op_attrs op).

(** One [replaceAllUsesWith]: every use of [old] becomes a use of [new]. *)
Definition rauw (old new : Value) (v : Value) : Value :=
  if same_value v old then new else v.

(** [old.replaceAllUsesWith(new)] for each pair [(old, new)] of the list,
    first pair first, on every operation of a block. *)
Definition replaceAllUsesWith (reps : list (Value * Value))
    (ops : list Operation) : list Operation :=
  foldl (fun l p => mapOpOperands (rauw p.1 p.2) <$> l) ops reps.

(** ** Walking a block

    [walk] visits the operations of a block in order.  The callback may
    edit the IR at the visited operation: it returns the operations that
    stand in its place afterwards (the operation itself when it is left
    alone, nothing when it is erased, new operations built next to it) and
    the [replaceAllUsesWith] calls it made.  The callback can fail (an
    assertion of the compiler fires); then the walk fails. *)
Section Walk.
Context {St : Type}.
Variable visit : St -> Operation ->
                 option (St * list Operation * list (Value * Value)).

Fixpoint walk (fuel : nat) (st : St) (done todo : list Operation)
  : option (St * list Operation) :=
  match todo with
  | [] => Some (st, done)
  | op :: rest =>
      match fuel with
      | O => Some (st, done ++ todo)
      | S n =>
          match visit st op with
          | None => None
          | Some (st', new_ops, rep) =>
              walk n st' (replaceAllUsesWith rep (done ++ new_ops))
                   (replaceAllUsesWith rep rest)
          end
      end
  end.

(** The walk of a whole block: every operation is visited once. *)
Definition walkBlock (st : St) (ops : list Operation)
  : option (St * list Operation) :=
  walk (length ops) st [] ops.
End Walk.

(** The markers of async groups: commit and wait. *)
Definition isAsyncMarker (op : Operation) : bool :=
  match op_kind op with
  | AsyncCommitGroupOp | AsyncWaitOp _ => true
  | _ => false
  end.

Definition isAsyncCommitGroup (op : Operation) : bool :=
  match op_kind op with AsyncCommitGroupOp => true | _ => false end.

Definition isAsyncWait (op : Operation) : bool :=
  match op_kind op with AsyncWaitOp _ => true | _ => false end.

(** ** Functions and the module *)

(** [triton::FuncOp]: symbol name, function type, attributes, argument
    attributes, the arguments of the entry block and the operations nested
    in the body, in the order a walk visits them. *)
Record FuncOp : Type := mkFunc {
  sym_name : string;
  func_inputs : list type;
  func_results : list type;
  func_attrs : AttrDict;
  func_arg_attrs : list AttrDict;
  func_args : list Value;
  func_body : list Operation
}.

(** [LLVM::LLVMFuncOp]: an LLVM function type has one result type
    ([LLVMVoidType] for none). *)
Record LLVMFuncOp : Type := mkLLVMFunc {
  llvm_name : string;
  llvm_params : list type;
  llvm_result : type;
  llvm_attrs : AttrDict;
  llvm_args : list Value;
  llvm_body : list Operation
}.

(** [LLVM::GlobalOp]. *)
Record GlobalOp : Type := mkGlobal {
  global_name : string;
  global_type : type;
  global_isConstant : bool;
  global_external : bool;
  global_alignment : Z;
  global_addrspace : Z
}.

Inductive ModuleItem : Type :=
| TTFunc (f : FuncOp)
| LLVMFunc (f : LLVMFuncOp)
| Global (g : GlobalOp).

Record ModuleOp : Type := mkModule {
  mod_attrs : AttrDict;
  mod_items : list ModuleItem
}.

Definition item_body (it : ModuleItem) : list Operation :=
  match it with
  | TTFunc f => func_body f
  | LLVMFunc f => llvm_body f
  | Global _ => []
  end.

Definition item_set_body (it : ModuleItem) (body : list Operation)
  : ModuleItem :=
  match it with
  | TTFunc f =>
      TTFunc (mkFunc (sym_name f) (func_inputs f) (func_results f)
                (func_attrs f) (func_arg_attrs f) (func_args f) body)
  | LLVMFunc f =>
      LLVMFunc (mkLLVMFunc (llvm_name f) (llvm_params f) (llvm_result f)
                  (llvm_attrs f) (llvm_args f) body)
  | Global g => Global g
  end.

Definition item_attrs (it : ModuleItem) : AttrDict :=
  match it with
  | TTFunc f => func_attrs f
  | LLVMFunc f => llvm_attrs f
  | Global _ => ∅
  end.

(** All operations nested in the module, in walk order. *)
Definition module_ops (m : ModuleOp) : list Operation :=
  mod_items m ≫= item_body.

(** [mod.walk(callback)]: the bodies are walked one after the other with
    the callback's state carried along; the callback is told the function
    it is in.  Functions are isolated from above, so every use of a value
    defined in a body lies in that body and [replaceAllUsesWith] stays
    within the body being walked. *)
Section WalkModule.
Context {St : Type}.
Variable visit : ModuleItem -> St -> Operation ->
                 option (St * list Operation * list (Value * Value)).

Fixpoint walkItems (st : St) (items : list ModuleItem)
  : option (St * list ModuleItem) :=
  match items with
  | [] => Some (st, [])
  | it :: rest =>
      match walkBlock (visit it) st (item_body it) with
      | None => None
      | Some (st', body') =>
          match walkItems st' rest with
          | None => None
          | Some (st'', rest') => Some (st'', item_set_body it body' :: rest')
          end
      end
  end.

Definition walkModule (st : St) (m : ModuleOp) : option (St * ModuleOp) :=
  match walkItems st (mod_items m) with
  | None => None
  | Some (st', items') => Some (st', mkModule (mod_attrs m) items')
  end.
End WalkModule.

(** Fresh value identities: a builder never hands out the identity of a
    value that exists already.  [nextId] is above every identity that
    occurs in the module. *)
Definition op_values (op : Operation) : list Value :=
  op_results op ++ getOperands (op_kind op).

Definition item_values (it : ModuleItem) : list Value :=
  match it with
  | TTFunc f => func_args f ++ (func_body f ≫= op_values)
  | LLVMFunc f => llvm_args f ++ (llvm_body f ≫= op_values)
  | Global _ => []
  end.

Definition maxId (vs : list Value) : nat :=
  foldr (fun v m => Nat.max (v_id v) m) O vs.

Definition nextId (m : ModuleOp) : nat :=
  S (maxId (mod_items m ≫= item_values)).

(** ** decomposeInsertSliceAsyncOp (lines 569-687) *)

Definition asTensor (t : type) : option RankedTensorType :=
  match t with Tensor r => Some r | _ => None end.

(** [getEncoding().dyn_cast<SharedEncodingAttr>().getVec()]: there is a
    vector width only when the encoding is a shared encoding. *)
Definition sharedVec (t : RankedTensorType) : option Z :=
  match getEncoding t with
  | Some (SharedEncoding vec) => Some (u32 vec)
  | _ => None
  end.

(** [getEncoding().dyn_cast<BlockedEncodingAttr>()] (lines 608-609), a
    plain [dyn_cast]: on the null attribute of a tensor without encoding
    the cast is not defined (its assertion fires), which is the outer
    [None]; on an encoding that is not a blocked one the result is the
    null attribute, [Some None]. *)
Definition dynCastBlocked (t : RankedTensorType) : option (option Encoding) :=
  match getEncoding t with
  | None => None
  | Some (BlockedEncoding tag) => Some (Some (BlockedEncoding tag))
  | Some _ => Some None
  end.

(** The state of the first walk: the next fresh value identity and the
    [decomposed] flag. *)
Record DecompState : Type := mkDS { ds_next : nat; ds_decomposed : bool }.

Section AsyncCopyDecomposition.
(** Pass options. *)
Variable computeCapability : Z.
Variable target : Target.
(** [ModuleAxisInfoAnalysis], computed on the module before the walk. *)
Variable getPtrContiguity : Value -> Z.
Variable getMaskAlignment : Value -> Z.
(** Capability queries of the TritonGPU dialect. *)
Variable getEligibleLoadByteWidth : Z -> gset Z.
Variable asyncCommitGroupIsSupported : Z -> bool.
Variable asyncWaitIsSupported : Z -> bool.

(** Lines 602-625: the vectorized load size, as the pair
    [(minVec, byteWidth)].  There is none when one of the casts of lines
    606-611, the read of the vector width (line 617) or the query of the
    bit width breaks down. *)
Definition vectorizedLoadSize (src dst : Value) (mask : option Value)
  : option (Z * Z) :=
  match asTensor (v_type src), asTensor (v_type dst) with
  | Some srcTy, Some dstTy =>
      match dynCastBlocked srcTy, sharedVec dstTy,
            getIntOrFloatBitWidth (getElementType dstTy) with
      | Some _, Some outVec, Some elemBits =>
          let inVec := u32 (getPtrContiguity src) in
          let inVec :=
            match mask with
            | Some m => Z.min (u32 (getMaskAlignment m)) inVec
            | None => inVec
            end in
          let minVec := if 1 <? outVec then Z.min outVec inVec else inVec in
          let maxBitWidth := Z.max 128 (u32 elemBits) in
          let vecBitWidth := u32 (u32 elemBits * minVec) in
          let bitWidth := Z.min maxBitWidth vecBitWidth in
          Some (minVec, bitWidth / 8)
      | _, _, _ => None
      end
  | _, _ => None
  end.

(** Lines 648-657: offsets, sizes and strides of the slice.  Line 653
    assigns through [offsets[axis]], the indexing of a vector of
    [getRank dstTy] entries: with the axis outside of it there are no
    offsets (the bounds assertion of the vector fires). *)
Definition sliceOffsets (dstTy : RankedTensorType) (axis : nat)
    (index : Value) : option (list OpFoldResult) :=
  if bool_decide (axis < getRank dstTy)%nat
  then Some (<[axis := OfrValue index]> (replicate (getRank dstTy) (OfrInt 0)))
  else None.

Definition sliceSizes (dstTy : RankedTensorType) (axis : nat)
  : list OpFoldResult :=
  imap (fun i extent => if Nat.eqb i axis then OfrInt 1 else OfrInt extent)
       (getShape dstTy).

Definition sliceStrides (dstTy : RankedTensorType) : list OpFoldResult :=
  replicate (getRank dstTy) (OfrInt 1).

(** Lines 635-661: the two operations that replace an async copy.  The
    builder gives their results the fresh identities [next] and
    [S next].  [srcBlocked] is the outcome of the cast of lines 608-609,
    [offsets] the vector of line 653. *)
Definition loadResult (next : nat) (srcTy dstTy : RankedTensorType)
    (srcBlocked : option Encoding) : Value :=
  mkValue next
    (Tensor (mkTensor (getShape srcTy) (getElementType dstTy) srcBlocked)).

Definition buildLoadOp (next : nat) (op : Operation)
    (srcTy dstTy : RankedTensorType) (srcBlocked : option Encoding)
    (src : Value) (mask other : option Value)
    (cache evict : Z) (isVolatile : bool) : Operation :=
  addWSNamedAttrs
    (mkOp (LoadOp src mask other cache evict isVolatile)
          [loadResult next srcTy dstTy srcBlocked] ∅)
    (getAttrs op).

Definition insertSliceResult (next : nat) (dst : Value) : Value :=
  mkValue (S next) (v_type dst).

Definition buildInsertSliceOp (next : nat) (op : Operation)
    (srcTy dstTy : RankedTensorType) (srcBlocked : option Encoding)
    (dst : Value) (offsets : list OpFoldResult) (axis : nat)
  : Operation :=
  addWSNamedAttrs
    (mkOp (TensorInsertSliceOp (loadResult next srcTy dstTy srcBlocked) dst
             offsets
             (sliceSizes dstTy axis)
             (sliceStrides dstTy))
          [insertSliceResult next dst] ∅)
    (getAttrs op).

(** The result an operation with one result stands for. *)
Definition getResult (op : Operation) : option Value := head (op_results op).

(** Lines 599-667: the callback of the first walk.  It breaks down
    where the load size does, and, once past the test of the byte width,
    where the axis is outside the rank of the destination (line 653). *)
Definition decomposeVisit (st : DecompState) (op : Operation)
  : option (DecompState * list Operation * list (Value * Value)) :=
  match op_kind op with
  | InsertSliceAsyncOp src dst index mask other cache evict isVolatile axis =>
      match vectorizedLoadSize src dst mask,
            asTensor (v_type src), asTensor (v_type dst) with
      | Some (_, byteWidth), Some srcTy, Some dstTy =>
          if bool_decide
               (byteWidth ∈ getEligibleLoadByteWidth computeCapability)
          then Some (st, [op], [])
          else
            let next := ds_next st in
            match dynCastBlocked srcTy, sliceOffsets dstTy axis index,
                  getResult op with
            | Some srcBlocked, Some offsets, Some old =>
                let loadOp := buildLoadOp next op srcTy dstTy srcBlocked src
                                          mask other cache evict isVolatile in
                let insertSliceOp :=
                  buildInsertSliceOp next op srcTy dstTy srcBlocked dst
                                     offsets axis in
                Some (mkDS (S (S next)) true, [loadOp; insertSliceOp],
                      [(old, insertSliceResult next dst)])
            | _, _, _ => None
            end
      | _, _, _ => None
      end
  | _ => Some (st, [op], [])
  end.

(** Lines 669-672: the callback of the second walk. *)
Definition commitVisit (st : DecompState) (op : Operation)
  : option (DecompState * list Operation * list (Value * Value)) :=
  match op_kind op with
  | AsyncCommitGroupOp =>
      if negb (asyncCommitGroupIsSupported computeCapability)
      then Some (st, [], [])
      else Some (st, [op], [])
  | _ => Some (st, [op], [])
  end.

(** Lines 674-686: the callback of the third walk. *)
Definition waitVisit (st : DecompState) (op : Operation)
  : option (DecompState * list Operation * list (Value * Value)) :=
  match op_kind op with
  | AsyncWaitOp _ =>
      if negb (asyncWaitIsSupported computeCapability)
      then Some (st, [], [])
      else if ds_decomposed st
      then
        let newWaitOp :=
          addWSNamedAttrs (mkOp (AsyncWaitOp 0) [] ∅) (getAttrs op) in
        Some (st, [newWaitOp], [])
      else Some (st, [op], [])
  | _ => Some (st, [op], [])
  end.

(** The function with its local flag exposed: the module after the three
    walks and the final value of [decomposed]. *)
Definition decomposeInsertSliceAsyncOp_flag (m : ModuleOp)
  : option (bool * ModuleOp) :=
  if bool_decide (target ≠ GENX) then Some (false, m)
  else
    match walkModule (fun _ => decomposeVisit) (mkDS (nextId m) false) m with
    | None => None
    | Some (st1, m1) =>
        match walkModule (fun _ => commitVisit) st1 m1 with
        | None => None
        | Some (st2, m2) =>
            match walkModule (fun _ => waitVisit) st2 m2 with
            | None => None
            | Some (st3, m3) => Some (ds_decomposed st3, m3)
            end
        end
    end.

Definition decomposeInsertSliceAsyncOp (m : ModuleOp) : option ModuleOp :=
  snd <$> decomposeInsertSliceAsyncOp_flag m.
End AsyncCopyDecomposition.

(** A tensor in a shared layout with integer or float elements. *)
Definition isSharedTensor (t : type) : bool :=
  match t with
  | Tensor r =>
      match getEncoding r, getElementType r with
      | Some (SharedEncoding _), (IntegerType _ | FloatType _) => true
      | _, _ => false
      end
  | _ => false
  end.

(** A tensor that has a layout, of whatever kind. *)
Definition hasLayout (t : type) : bool :=
  match t with
  | Tensor r => match getEncoding r with Some _ => true | None => false end
  | _ => false
  end.

Definition rankOf (t : type) : nat :=
  match t with Tensor r => getRank r | _ => O end.

(** The async copies on which the callback of the first walk does not
    break down: the source is a tensor with a layout, the destination a
    tensor in a shared layout with integer or float elements, there is a
    result, and the axis is within the rank of the destination.  The
    result of a decomposed copy stands, in the copies after it, for a
    value of the type of its destination, so the bound on the axis is
    asked for across the copies: [rank] is above the axis of every copy
    and at most the rank of every destination. *)
Definition wellTypedAsyncCopy (rank : nat) (op : Operation) : bool :=
  match op_kind op with
  | InsertSliceAsyncOp src dst _ _ _ _ _ _ axis =>
      hasLayout (v_type src) && isSharedTensor (v_type dst)
      && match op_results op with [] => false | _ => true end
      && bool_decide (axis < rank)%nat
      && bool_decide (rank <= rankOf (v_type dst))%nat
  | _ => true
  end.

Definition isInsertSliceAsync (op : Operation) : bool :=
  match op_kind op with
  | InsertSliceAsyncOp _ _ _ _ _ _ _ _ _ => true
  | _ => false
  end.

(** ** Outcome of a rewrite pattern

    [Success]: the pattern applied.  [MatchFailure]: the pattern returned
    [failure()], with the message given to [notifyMatchFailure] if any.
    [Crash]: an assertion of the compiler fired. *)
Inductive Outcome (A : Type) : Type :=
| Success (a : A)
| MatchFailure (diagnostic : option string)
| Crash.
Arguments Success {A} a.
Arguments MatchFailure {A} diagnostic.
Arguments Crash {A}.

(** ** FoldSplatMaskInInsertAsync (lines 69-91) *)

(** [v.getDefiningOp()]: the operation of the block one of whose results
    is [v]; none for a block argument. *)
Definition getDefiningOp (block : list Operation) (v : Value)
  : option Operation :=
  find (fun op => existsb (same_value v) (op_results op)) block.

(** [v.getDefiningOp<triton::SplatOp>()], as the splat's operand 0. *)
Definition getDefiningSplat (block : list Operation) (v : Value)
  : option Value :=
  match getDefiningOp block v with
  | Some op =>
      match op_kind op with
      | SplatOp src => Some src
      | _ => None
      end
  | None => None
  end.

Definition FoldSplatMaskInInsertAsync (block : list Operation)
    (op : Operation) : Outcome Operation :=
  match op_kind op with
  | InsertSliceTMAOp src dst index mbar mask =>
      match mask with
      | None => MatchFailure None
      | Some m =>
          match getDefiningSplat block m with
          | None => MatchFailure None
          | Some scalar =>
              Success (mkOp (InsertSliceTMAOp src dst index mbar (Some scalar))
                            (op_results op) (op_attrs op))
          end
      end
  | _ => Crash
  end.

(** [applyOpPatternsAndFold] with this one pattern: the driver applies the
    pattern to an operation again and again until it fails.  Every
    application moves the mask one splat up its chain of definitions, so
    the operations of the block bound the number of applications. *)
Fixpoint applyPatternUntilFailure (fuel : nat) (block : list Operation)
    (op : Operation) : Operation :=
  match fuel with
  | O => op
  | S n =>
      match FoldSplatMaskInInsertAsync block op with
      | Success op' => applyPatternUntilFailure n block op'
      | _ => op
      end
  end.

Definition isInsertSliceTMA (op : Operation) : bool :=
  match op_kind op with InsertSliceTMAOp _ _ _ _ _ => true | _ => false end.

(** Lines 408-418: the cleanup on one block.  The pattern edits only the
    mask of TMA slice-inserts, so the defining operations it looks up are
    those of the block as it was. *)
Definition cleanupBlock (block : list Operation) : list Operation :=
  (fun op => if isInsertSliceTMA op
             then applyPatternUntilFailure (S (length block)) block op
             else op) <$> block.

Definition cleanup (m : ModuleOp) : ModuleOp :=
  mkModule (mod_attrs m)
           ((fun it => item_set_body it (cleanupBlock (item_body it)))
              <$> mod_items m).

(** ** Type conversion *)

Definition ptrTy : type := LLVMPointerType 3.

Section TypeConverter.
(** [TritonGPUToLLVMTypeConverter::convertType]; null on failure. *)
Variable convertType : type -> option type.

(** [LLVMTypeConverter::packFunctionResults]: the converted type for one
    result, a struct of the converted types otherwise. *)
Definition packFunctionResults (types : list type) : option type :=
  match types with
  | [t] => convertType t
  | _ => LLVMStructType <$> mapM convertType types
  end.
End TypeConverter.

(** ** ReturnOpConversion (lines 93-133) *)

Section ReturnOpConversion.
Variable convertType : type -> option type.

(** Lines 119-125: starting from [packedResults], insert the operands at
    their indices, one [llvm.insertvalue] each.  The result of the
    insertion at index [i + k] gets the identity [next + k].  Returns the
    operations built and the final value of [packedResults]. *)
Fixpoint insertValues (packedResultsTy : type) (next : nat) (i : nat)
    (packedResults : Value) (operands : list Value)
  : list Operation * Value :=
  match operands with
  | [] => ([], packedResults)
  | v :: rest =>
      let r := mkValue next packedResultsTy in
      let ins := mkOp (LLVMInsertValueOp packedResults v i) [r] ∅ in
      let '(ops, final) := insertValues packedResultsTy (S next) (S i) r rest in
      (ins :: ops, final)
  end.

(** [op] is the [tt.return], [operands] the adaptor's operands, [funcOp]
    the enclosing [llvm.func]; fresh identities start at [next].  On
    success the operations that replace [op]. *)
Definition ReturnOpConversion (funcOp : LLVMFuncOp) (op : Operation)
    (operands : list Value) (next : nat) : Outcome (list Operation) :=
  match op_kind op with
  | ReturnOp opOperands =>
      if hasAttr (llvm_attrs funcOp) "nvvm.kernel" then
        if bool_decide (0 < length opOperands)%nat then
          MatchFailure
            (Some "Kernel functions do not support return with operands"%string)
        else Success [mkOp (LLVMReturnOp []) [] (op_attrs op)]
      else
        if bool_decide (length operands < 2)%nat then
          Success [mkOp (LLVMReturnOp operands) [] (op_attrs op)]
        else
          match packFunctionResults convertType [llvm_result funcOp] with
          | None => Crash
          | Some packedResultsTy =>
              let undef := mkValue next packedResultsTy in
              let '(inserts, packedResults) :=
                insertValues packedResultsTy (S next) 0 undef operands in
              Success (mkOp LLVMUndefOp [undef] ∅ :: inserts
                       ++ [mkOp (LLVMReturnOp [packedResults]) []
                                (op_attrs op)])
          end
  | _ => Crash
  end.
End ReturnOpConversion.

(** ** FuncOpConversion (lines 138-233) *)

(** A name of a dialect attribute has a dot in it. *)
Fixpoint containsDot (s : string) : bool :=
  match s with
  | EmptyString => false
  | String c rest => bool_decide (c = "."%char) || containsDot rest
  end.

(** [Operation::setDialectAttrs]: the given attributes, and of the
    attributes the operation had those that are not dialect attributes. *)
Definition setDialectAttrs (attrs : list (string * Attribute))
    (dict : AttrDict) : AttrDict :=
  list_to_map attrs ∪ filter (fun kv => containsDot kv.1 = false) dict.

Section FuncOpConversion.
Variable numWarps : Z.
Variable target : Target.
Variable convertType : type -> option type.
(** [LLVM::isKernel]. *)
Variable isKernel : FuncOp -> bool.
(** [filterFuncAttributes(funcOp, filterArgAttrs, result)]. *)
Variable filterFuncAttributes : FuncOp -> bool -> AttrDict.
(** [TritonGPUDialect::getThreadsPerWarp]. *)
Variable getThreadsPerWarp : ModuleOp -> Z.
(** Attribute names of the GENX dialect. *)
Variable getKernelFuncAttrName : string.
Variable getMaxWorkGroupSizeAttrName : string.
Variable getReqdSubGroupSizeAttrName : string.

(** Lines 144-172.  The new block argument gets the identity [next]. *)
Definition amendFuncOp (next : nat) (funcOp : FuncOp) : FuncOp :=
  mkFunc (sym_name funcOp)
         (func_inputs funcOp ++ [ptrTy])
         (func_results funcOp)
         (filterFuncAttributes funcOp true)
         (func_arg_attrs funcOp ++ [∅])
         (func_args funcOp ++ [mkValue next ptrTy])
         (func_body funcOp).

(** Modelled from the spec: [convertFuncOpToLLVMFuncOp] is inherited from
    [FuncOpConversionBase], which is not in src.  Spec 3, Function:
    before lowering a function operates over tile/tensor values, after
    lowering over scalar/pointer values; spec 4.3: at most one value is
    returned per call.  Every input type and every block argument is
    converted on its own, the results are packed into one type, the body
    moves over; null when a type does not convert. *)
Definition convertFuncOpToLLVMFuncOp (funcOp : FuncOp) : option LLVMFuncOp :=
  params ← mapM convertType (func_inputs funcOp);
  result ← match func_results funcOp with
            | [] => Some LLVMVoidType
            | tys => packFunctionResults convertType tys
            end;
  args ← mapM (fun v => mkValue (v_id v) <$> convertType (v_type v))
              (func_args funcOp);
  Some (mkLLVMFunc (sym_name funcOp) params result
                   (filterFuncAttributes funcOp false) args
                   (func_body funcOp)).

Definition llvm_setAttrs (f : LLVMFuncOp) (attrs : AttrDict) : LLVMFuncOp :=
  mkLLVMFunc (llvm_name f) (llvm_params f) (llvm_result f) attrs
             (llvm_args f) (llvm_body f).

Definition llvm_setAttr (f : LLVMFuncOp) (name : string) (a : Attribute)
  : LLVMFuncOp :=
  llvm_setAttrs f (<[name := a]> (llvm_attrs f)).

(** Lines 188-215: the attributes the target asks for. *)
Definition setTargetAttrs (module : ModuleOp) (funcOp : FuncOp)
    (newFuncOp : LLVMFuncOp) : LLVMFuncOp :=
  match target with
  | NVVM | ROCDL =>
      let newFuncOp :=
        if isKernel funcOp
        then llvm_setAttr newFuncOp "nvvm.kernel" (IntegerAttr 1 1)
        else newFuncOp in
      llvm_setAttr newFuncOp "nvvm.maxntid"
                   (DenseI32ArrayAttr [i32 (32 * numWarps)])
  | GENX =>
      let threadsPerWarp := i32 (getThreadsPerWarp module) in
      let attrs :=
        (if isKernel funcOp
         then [(getKernelFuncAttrName, IntegerAttr 32 1)]
         else [])
        ++ [(getMaxWorkGroupSizeAttrName,
             I32ArrayAttr [i32 (threadsPerWarp * numWarps); 1; 1]);
            (getReqdSubGroupSizeAttrName, I32ArrayAttr [threadsPerWarp])] in
      llvm_setAttrs newFuncOp (setDialectAttrs attrs (llvm_attrs newFuncOp))
  end.

(** Lines 174-228.  [module] is the enclosing module.  On success the
    [llvm.func] that stands in place of [funcOp]. *)
Definition FuncOpConversion (module : ModuleOp) (next : nat) (funcOp : FuncOp)
  : Outcome LLVMFuncOp :=
  let amendedFuncOp :=
    if negb (isKernel funcOp) then amendFuncOp next funcOp else funcOp in
  match convertFuncOpToLLVMFuncOp amendedFuncOp with
  | None => MatchFailure None
  | Some newFuncOp =>
      let newFuncOp := setTargetAttrs module funcOp newFuncOp in
      let newFuncOp :=
        if negb (isKernel funcOp)
        then llvm_setAttr newFuncOp "passthrough" (StrArrayAttr ["noinline"])
        else newFuncOp in
      Success newFuncOp
  end.
End FuncOpConversion.

(** ** CallOpConversion (lines 237-321) *)

(** Modelled from the spec: [LLVM::getStackPointer] is declared in a
    header that is not in src.  Spec 4.3, call lowering: the promoted
    operand is the caller's own shared-memory high-water-mark value; spec
    8, signature invariant: it is of pointer type.  The operations that
    compute the value are kept as one opaque operation whose result, of
    identity [next], is the value. *)
Definition getStackPointer (next : nat) (caller : ModuleItem)
  : list Operation * Value :=
  let base := mkValue next ptrTy in
  ([mkOp (OtherOp "getStackPointer" []) [base] ∅], base).

(** Modelled from the spec: [LLVM::getSharedMemoryBase] is declared in a
    header that is not in src.  Spec 4.3, call lowering: the promoted
    operand is a computed shared-memory base address; spec 8: it is of
    pointer type.  Kept as one opaque operation like [getStackPointer]. *)
Definition getSharedMemoryBase (next : nat) (callOp : Operation)
  : list Operation * Value :=
  let base := mkValue next ptrTy in
  ([mkOp (OtherOp "getSharedMemoryBase" []) [base] ∅], base).

Section CallOpConversion.
Variable convertType : type -> option type.
(** [LLVMTypeConverter::promoteOperands], on one operand and the value
    the adaptor has for it. *)
Variable promoteOperand : Value -> Value -> Value.

(** Lines 258-277.  Returns the operations built for the base pointer
    and the promoted operands. *)
Definition promoteOperands (next : nat) (caller : ModuleItem)
    (callOp : Operation) (operands : list Value)
  : list Operation * list Value :=
  let promotedOperands :=
    (fun p => promoteOperand p.1 p.2)
      <$> zip (getOperands (op_kind callOp)) operands in
  if negb (hasAttr (item_attrs caller) "allocation.offset") then
    let '(ops, base) := getStackPointer next caller in
    (ops, promotedOperands ++ [base])
  else
    let '(ops, base) := getSharedMemoryBase next callOp in
    (ops, promotedOperands ++ [base]).

(** Lines 279-297; null when the result types do not pack.  The result
    of the new call gets the identity [next]. *)
Definition convertCallOpToLLVMCallOp (next : nat) (callOp : Operation)
    (promotedOperands : list Value) : option Operation :=
  let numResults := length (op_results callOp) in
  let resultTypes := v_type <$> op_results callOp in
  if bool_decide (numResults ≠ 0%nat) then
    match packFunctionResults convertType resultTypes with
    | None => None
    | Some packedResult =>
        Some (mkOp (LLVMCallOp promotedOperands)
                   [mkValue next packedResult] (op_attrs callOp))
    end
  else Some (mkOp (LLVMCallOp promotedOperands) [] (op_attrs callOp)).

(** The type of field [i] of an aggregate type. *)
Definition fieldType (t : type) (i : nat) : type :=
  match t with
  | LLVMStructType fields => default LLVMVoidType (fields !! i)
  | _ => LLVMVoidType
  end.

(** Lines 311-314: one [llvm.extractvalue] per index [i, i+1, ...],
    [count] of them; the extraction at index [i + k] gets the identity
    [next + k]. *)
Fixpoint extractValues (packed : Value) (next : nat) (i : nat) (count : nat)
  : list Operation :=
  match count with
  | O => []
  | S n =>
      mkOp (LLVMExtractValueOp packed i)
           [mkValue next (fieldType (v_type packed) i)] ∅
      :: extractValues packed (S next) (S i) n
  end.

(** Lines 299-317.  Returns the operations built and the results. *)
Definition getCallOpResults (next : nat) (callOp newCallOp : Operation)
  : option (list Operation * list Value) :=
  let numResults := length (op_results callOp) in
  if bool_decide (numResults < 2)%nat then Some ([], op_results newCallOp)
  else
    match op_results newCallOp with
    | packed :: _ =>
        let ops := extractValues packed next 0 numResults in
        Some (ops, ops ≫= op_results)
    | [] => None
    end.

(** Lines 243-255.  [operands] are the adaptor's operands, [caller] the
    enclosing function.  On success: the operations that replace the
    call and the values that replace its results. *)
Definition CallOpConversion (next : nat) (caller : ModuleItem)
    (callOp : Operation) (operands : list Value)
  : Outcome (list Operation * list Value) :=
  match op_kind callOp with
  | CallOp _ =>
      let '(baseOps, promotedOperands) :=
        promoteOperands next caller callOp operands in
      match convertCallOpToLLVMCallOp (S next) callOp promotedOperands with
      | None => MatchFailure None
      | Some newCallOp =>
          match getCallOpResults (S (S next)) callOp newCallOp with
          | None => Crash
          | Some (extractOps, results) =>
              Success (baseOps ++ [newCallOp] ++ extractOps, results)
          end
      end
  | _ => Crash
  end.
End CallOpConversion.

(** ** The aggregate operations of the LLVM dialect

    What [llvm.mlir.undef], [llvm.insertvalue] and [llvm.extractvalue]
    compute, so far as the packing of results goes: an aggregate is the
    map from the indices of its fields that have been set to the values
    set there.  [llvm.mlir.undef] has no field set; [llvm.insertvalue]
    is its container with one field set anew; [llvm.extractvalue] reads
    one field.  The environment maps the identity of a value to the
    aggregate it holds. *)
Definition Aggregates : Type := gmap nat (gmap nat Value).

Definition evalAggregateOp (env : Aggregates) (op : Operation) : Aggregates :=
  match op_kind op, op_results op with
  | LLVMUndefOp, [r] => <[v_id r := ∅]> env
  | LLVMInsertValueOp container value position, [r] =>
      <[v_id r := <[position := value]> (default ∅ (env !! v_id container))]>
        env
  | _, _ => env
  end.

Definition evalAggregates (env : Aggregates) (ops : list Operation)
  : Aggregates :=
  foldl evalAggregateOp env ops.

Definition readField (env : Aggregates) (op : Operation) : option Value :=
  match op_kind op with
  | LLVMExtractValueOp container position =>
      fields ← env !! v_id container; fields !! position
  | _ => None
  end.

(** ** initSharedMemory (lines 542-567) *)

Definition kSharedMemorySpace : Z := 3.

Definition i8 : type := Scalar (IntegerType 8).

Definition global_smem (elemTy : type) : GlobalOp :=
  mkGlobal "global_smem" (LLVMArrayType elemTy 0) false true 16
           kSharedMemorySpace.

(** The builder is positioned at the start of the module body.  [None]
    when the element type of the array does not convert. *)
Definition initSharedMemory (convertType : type -> option type)
    (target : Target) (m : ModuleOp) : option ModuleOp :=
  let elemTy := convertType i8 in
  match target with
  | NVVM | ROCDL =>
      match elemTy with
      | Some elemTy =>
          Some (mkModule (mod_attrs m)
                         (Global (global_smem elemTy) :: mod_items m))
      | None => None
      end
  | GENX => Some m
  end.

(** A global for dynamically sized shared memory: an array of length 0,
    aligned to 16 bytes, in the shared address space. *)
Definition isDynamicSharedGlobal (it : ModuleItem) : bool :=
  match it with
  | Global g =>
      match global_type g with
      | LLVMArrayType _ n =>
          (n =? 0) && (global_alignment g =? 16)
          && (global_addrspace g =? kSharedMemorySpace)
      | _ => false
      end
  | _ => false
  end.

Definition hasDynamicSharedGlobal (m : ModuleOp) : bool :=
  existsb isDynamicSharedGlobal (mod_items m).

(** ** Folding the cluster CTA id (lines 529-536) *)

Definition i32Ty : type := Scalar (IntegerType 32).

(** Modelled from the spec: [LLVM::createConstantI32] is declared in a
    header that is not in src.  Spec 4.4 and 8: the uses are replaced by
    the literal 0; the helper builds an [llvm.mlir.constant] of type i32
    with the given value.  Its result gets the identity [next]. *)
Definition createConstantI32 (next : nat) (v : Z) : Operation :=
  mkOp (LLVMConstantOp v) [mkValue next i32Ty] ∅.

(** The callback of the walk; the state is the next fresh identity. *)
Definition foldCTAIdVisit (next : nat) (id : Operation)
  : option (nat * list Operation * list (Value * Value)) :=
  match op_kind id with
  | ClusterCTAIdOp =>
      let zeroOp := createConstantI32 next 0 in
      match head (op_results id), head (op_results zeroOp) with
      | Some old, Some zero => Some (S next, [zeroOp; id], [(old, zero)])
      | _, _ => None
      end
  | _ => Some (next, [id], [])
  end.

Definition foldCTAId (numCTAs : Z) (m : ModuleOp) : option ModuleOp :=
  if bool_decide (numCTAs = 1) then
    snd <$> walkModule (fun _ => foldCTAIdVisit) (nextId m) m
  else Some m.

(** What the fold makes of a block, given the replacement [sigma] of
    values it has carried out: in front of every cluster CTA id there is
    an [llvm.mlir.constant] of value 0 and type i32; every operation of
    the block is in its place with [sigma] applied to its operands. *)
Inductive Folded (sigma : Value -> Value)
  : list Operation -> list Operation -> Prop :=
| Folded_nil : Folded sigma [] []
| Folded_id id n block block' :
    op_kind id = ClusterCTAIdOp ->
    Folded sigma block block' ->
    Folded sigma (id :: block)
           (createConstantI32 n 0 :: mapOpOperands sigma id :: block')
| Folded_other op block block' :
    op_kind op <> ClusterCTAIdOp ->
    Folded sigma block block' ->
    Folded sigma (op :: block) (mapOpOperands sigma op :: block').

(** [v] is the result of a cluster CTA id of the block. *)
Definition isClusterCTAId (block : list Operation) (v : Value) : Prop :=
  exists id r, id ∈ block /\ op_kind id = ClusterCTAIdOp
               /\ head (op_results id) = Some r /\ v_id r = v_id v.

(** [v] is used by an operation of the block. *)
Definition isUsedIn (block : list Operation) (v : Value) : Prop :=
  exists user u, user ∈ block /\ u ∈ getOperands (op_kind user)
                 /\ v_id u = v_id v.

(** [v] is the result of a constant 0 of type i32 of the block. *)
Definition isZeroIn (block : list Operation) (v : Value) : Prop :=
  exists c, c ∈ block /\ op_kind c = LLVMConstantOp 0
            /\ op_results c = [v] /\ v_type v = i32Ty.

(** The invariant of the fold over the block [orig], all of whose values
    have identities below [next0]: the operations before the visited one
    are folded, the others have had the replacement applied; the
    replacement fixes every value of [orig] that is not the result of a
    cluster CTA id visited so far and sends every other one to the result
    of a constant 0 that the fold built. *)
Definition FoldInv (orig : list Operation) (next0 : nat)
    (next : nat) (done todo : list Operation) : Prop :=
  exists sigma orig_done orig_todo,
    orig = orig_done ++ orig_todo
    /\ Folded sigma orig_done done
    /\ todo = mapOpOperands sigma <$> orig_todo
    /\ (next0 <= next)%nat
    /\ forall v, (v_id v < next0)%nat ->
         (sigma v = v /\ ~ isClusterCTAId orig_done v)
         \/ (isClusterCTAId orig_done v
             /\ exists n, (next0 <= n < next)%nat
                          /\ sigma v = mkValue n i32Ty
                          /\ createConstantI32 n 0 ∈ done).

(** ** The uses of the result of an async copy

    An async copy whose result has the identity of [old] is in the
    block. *)
Definition copyRemains (block : list Operation) (old : Value) : Prop :=
  exists op' old',
    op' ∈ block /\ isInsertSliceAsync op' = true
    /\ getResult op' = Some old' /\ v_id old' = v_id old.

(** The invariant of the first walk of the decomposition over the block
    [orig], all of whose values have identities below [next0]: the result
    of an async copy of [orig] is still the result of an async copy, or
    it has no use. *)
Definition DecompInv (orig : list Operation) (next0 : nat)
    (st : DecompState) (done todo : list Operation) : Prop :=
  (next0 <= ds_next st)%nat
  /\ forall op old,
       op ∈ orig -> isInsertSliceAsync op = true -> getResult op = Some old ->
       copyRemains (done ++ todo) old \/ ~ isUsedIn (done ++ todo) old.

(** An operation that is neither an async copy nor a marker of an async
    group. *)
Definition isOtherThanAsync (op : Operation) : bool :=
  negb (isInsertSliceAsync op) && negb (isAsyncMarker op).

(** One of the results of the operation has an identity from [next0]
    on: the operation was built after the identities below [next0] were
    taken. *)
Definition definesFresh (next0 : nat) (op : Operation) : bool :=
  existsb (fun r => (next0 <=? v_id r)%nat) (op_results op).

(** The invariant of the first walk of the decomposition, for the
    operations it does not build and does not take apart: they are the
    ones of [orig], in order, with the replacement [sigma] of values
    applied, and [sigma] touches results of async copies only. *)
Definition KeepInv (orig : list Operation) (next0 : nat)
    (st : DecompState) (done todo : list Operation) : Prop :=
  (next0 <= ds_next st)%nat
  /\ (forall op, op ∈ done ++ todo -> isInsertSliceAsync op = true ->
        exists op0, op0 ∈ orig /\ isInsertSliceAsync op0 = true
                    /\ getResult op0 = getResult op)
  /\ exists sigma,
       filter (fun o => isOtherThanAsync o && negb (definesFresh next0 o) = true)
              (done ++ todo)
       = mapOpOperands sigma <$> filter (fun o => isOtherThanAsync o = true) orig
       /\ forall v,
            (forall op old, op ∈ orig -> isInsertSliceAsync op = true ->
                            getResult op = Some old -> v_id old <> v_id v) ->
            sigma v = v.

(** ** Conversion targets (lines 51-67 and 323-343)

    [ConversionTarget] is MLIR's: it records a legalization action for
    dialects and for single operations.  The action of an operation is
    the one recorded for the operation, else the one recorded for its
    dialect, else none. *)
Inductive Dialect : Type :=
| IndexDialect | LLVMDialect | NVVMDialect | NVGPUDialect | GENXDialect
| TritonDialect | TritonGPUDialect | TritonNvidiaGPUDialect | GPUDialect
| OtherDialect (name : string).

Global Instance Dialect_eq_dec : EqDecision Dialect.
Proof. solve_decision. Defined.

Inductive LegalizationAction : Type := Legal | Illegal.

Record ConversionTarget : Type := mkTarget {
  dialectActions : list (Dialect * LegalizationAction);
  opActions : list (string * LegalizationAction)
}.

Definition emptyTarget : ConversionTarget := mkTarget [] [].

(** The latest call for a dialect or an operation counts. *)
Definition addLegalDialect (d : Dialect) (t : ConversionTarget)
  : ConversionTarget :=
  mkTarget ((d, Legal) :: dialectActions t) (opActions t).

Definition addIllegalDialect (d : Dialect) (t : ConversionTarget)
  : ConversionTarget :=
  mkTarget ((d, Illegal) :: dialectActions t) (opActions t).

Definition addLegalOp (name : string) (t : ConversionTarget)
  : ConversionTarget :=
  mkTarget (dialectActions t) ((name, Legal) :: opActions t).

Definition getDialectAction (t : ConversionTarget) (d : Dialect)
  : option LegalizationAction :=
  snd <$> find (fun p => bool_decide (p.1 = d)) (dialectActions t).

Definition getOpAction (t : ConversionTarget) (d : Dialect) (name : string)
  : option LegalizationAction :=
  match find (fun p => bool_decide (p.1 = name)) (opActions t) with
  | Some p => Some p.2
  | None => getDialectAction t d
  end.

Definition UnrealizedConversionCastOp : string :=
  "builtin.unrealized_conversion_cast".

(** Lines 51-67.  The switch has no case for [ROCDL]. *)
Definition TritonLLVMFunctionConversionTarget (target : Target)
  : ConversionTarget :=
  let t := addLegalDialect IndexDialect emptyTarget in
  let t := addLegalDialect LLVMDialect t in
  let t := match target with
           | NVVM => addLegalDialect NVVMDialect t
           | GENX => addLegalDialect GENXDialect t
           | ROCDL => t
           end in
  addLegalOp UnrealizedConversionCastOp t.

(** Lines 323-343.  The switch has no case for [ROCDL]. *)
Definition TritonLLVMConversionTarget (target : Target) : ConversionTarget :=
  let t := addLegalDialect LLVMDialect emptyTarget in
  let t := match target with
           | NVVM => addLegalDialect NVGPUDialect
                       (addLegalDialect NVVMDialect t)
           | GENX => addLegalDialect GENXDialect t
           | ROCDL => t
           end in
  let t := addIllegalDialect TritonDialect t in
  let t := addIllegalDialect TritonGPUDialect t in
  let t := addIllegalDialect TritonNvidiaGPUDialect t in
  let t := addIllegalDialect GPUDialect t in
  addLegalOp UnrealizedConversionCastOp t.

(** ** The drivers of the function, call and return stages

    [applyPartialConversion] is MLIR's.  With the function conversion
    target neither [tt.func] nor [tt.call] nor [tt.return] is marked
    illegal, so an operation whose pattern reports failure stays as it
    is and the stage goes on. *)
Section Stages.
Variable target : Target.
Variable numWarps : Z.
Variable convertType : type -> option type.
Variable isKernel : FuncOp -> bool.
Variable filterFuncAttributes : FuncOp -> bool -> AttrDict.
Variable getThreadsPerWarp : ModuleOp -> Z.
Variable getKernelFuncAttrName : string.
Variable getMaxWorkGroupSizeAttrName : string.
Variable getReqdSubGroupSizeAttrName : string.
Variable promoteOperand : Value -> Value -> Value.

(** Lines 420-433. *)
Fixpoint lowerFunctionItems (module : ModuleOp) (next : nat)
    (items : list ModuleItem) : option (list ModuleItem) :=
  match items with
  | [] => Some []
  | TTFunc f :: rest =>
      match FuncOpConversion numWarps target convertType isKernel
              filterFuncAttributes getThreadsPerWarp getKernelFuncAttrName
              getMaxWorkGroupSizeAttrName getReqdSubGroupSizeAttrName
              module next f with
      | Success g => (LLVMFunc g ::.) <$> lowerFunctionItems module (S next) rest
      | MatchFailure _ => (TTFunc f ::.) <$> lowerFunctionItems module next rest
      | Crash => None
      end
  | it :: rest => (it ::.) <$> lowerFunctionItems module next rest
  end.

Definition lowerFunctions (m : ModuleOp) : option ModuleOp :=
  mkModule (mod_attrs m) <$> lowerFunctionItems m (nextId m) (mod_items m).

(** Lines 440-451: the callback on one operation of the body of
    [caller].  Both patterns look up the enclosing function; the return
    pattern asks for an [llvm.func]. *)
Definition callAndRetVisit (caller : ModuleItem) (next : nat)
    (op : Operation)
  : option (nat * list Operation * list (Value * Value)) :=
  match op_kind op with
  | CallOp operands =>
      match CallOpConversion convertType promoteOperand next caller op
              operands with
      | Success (ops, results) =>
          Some ((next + 2 + length (op_results op))%nat, ops,
                zip (op_results op) results)
      | MatchFailure _ => Some (next, [op], [])
      | Crash => None
      end
  | ReturnOp operands =>
      match caller with
      | LLVMFunc funcOp =>
          match ReturnOpConversion convertType funcOp op operands next with
          | Success ops => Some ((next + 1 + length operands)%nat, ops, [])
          | MatchFailure _ => Some (next, [op], [])
          | Crash => None
          end
      | _ => None
      end
  | _ => Some (next, [op], [])
  end.

Definition convertCallAndRet (m : ModuleOp) : option ModuleOp :=
  snd <$> walkModule callAndRetVisit (nextId m) m.
End Stages.

(** What the stage leaves of the calls and returns of the body of
    [caller]: a call whose result types do not pack, a return with
    operands in a function marked [nvvm.kernel]. *)
Definition leftByCallAndRet (convertType : type -> option type)
    (caller : ModuleItem) (op : Operation) : Prop :=
  match op_kind op with
  | CallOp _ =>
      op_results op <> []
      /\ packFunctionResults convertType (v_type <$> op_results op) = None
  | ReturnOp operands =>
      hasAttr (item_attrs caller) "nvvm.kernel" = true /\ operands <> []
  | _ => True
  end.

(** A return stands in an [llvm.func]. *)
Definition returnInLLVMFunc (caller : ModuleItem) (op : Operation) : Prop :=
  match op_kind op with
  | ReturnOp _ => exists f, caller = LLVMFunc f
  | _ => True
  end.

(** ** runOnOperation (lines 359-537) *)

Section Pass.
(** Pass options. *)
Variable computeCapability : Z.
Variable target : Target.
(** Accessors of the TritonGPU dialect for the module attributes. *)
Variable getNumWarps : ModuleOp -> Z.
Variable getNumCTAs : ModuleOp -> Z.
Variable getThreadsPerWarp : ModuleOp -> Z.
(** The analyses, each computed from a module. *)
Variable getPtrContiguity : ModuleOp -> Value -> Z.
Variable getMaskAlignment : ModuleOp -> Value -> Z.
Variable getEligibleLoadByteWidth : Z -> gset Z.
Variable asyncCommitGroupIsSupported : Z -> bool.
Variable asyncWaitIsSupported : Z -> bool.
(** [ModuleAllocation] and [ModuleMembarAnalysis::run]. *)
Variable membar : ModuleOp -> ModuleOp.
(** The type converter of the pass (index bitwidth 32) and the one of
    the function stages. *)
Variable typeConverter : type -> option type.
Variable funcTypeConverter : type -> option type.
Variable isKernel : FuncOp -> bool.
Variable filterFuncAttributes : FuncOp -> bool -> AttrDict.
Variable getKernelFuncAttrName : string.
Variable getMaxWorkGroupSizeAttrName : string.
Variable getReqdSubGroupSizeAttrName : string.
Variable promoteOperand : Value -> Value -> Value.
(** The main conversion with all its patterns (lines 470-527), given
    the warp count; [None] when it fails. *)
Variable mainConversion : Z -> ModuleOp -> option ModuleOp.

(** Lines 367-376: the warp count the patterns are given.  [getInt] is
    64 bits wide, the product is narrowed to [int]. *)
Definition effectiveNumWarps (m : ModuleOp) : option Z :=
  let numWarps := i32 (getNumWarps m) in
  match mod_attrs m !! "triton_gpu.num-warp-groups-per-cta"%string with
  | None => Some numWarps
  | Some (IntegerAttr _ groups) => Some (i32 (numWarps * groups))
  | Some _ => None
  end.

(** The stages up to and including [initSharedMemory] (lines 378-438). *)
Definition stagesBeforeCallAndRet (m : ModuleOp) : option ModuleOp :=
  numWarps ← effectiveNumWarps m;
  m ← decomposeInsertSliceAsyncOp computeCapability target
        (getPtrContiguity m) (getMaskAlignment m) getEligibleLoadByteWidth
        asyncCommitGroupIsSupported asyncWaitIsSupported m;
  let m := membar m in
  let m := cleanup m in
  m ← lowerFunctions target numWarps funcTypeConverter isKernel
        filterFuncAttributes getThreadsPerWarp getKernelFuncAttrName
        getMaxWorkGroupSizeAttrName getReqdSubGroupSizeAttrName m;
  initSharedMemory typeConverter target m.

(** [None]: the pass failed. *)
Definition runOnOperation (m : ModuleOp) : option ModuleOp :=
  numWarps ← effectiveNumWarps m;
  let numCTAs := i32 (getNumCTAs m) in
  m ← stagesBeforeCallAndRet m;
  m ← convertCallAndRet funcTypeConverter promoteOperand m;
  m ← mainConversion numWarps m;
  foldCTAId numCTAs m.
End Pass.

(** ** The thread count attribute of a lowered function

    The first entry of [nvvm.maxntid] on the NVVM and ROCDL targets, of
    the maximal work group size on the GENX target. *)
Definition maxThreadsPerBlock (target : Target)
    (getMaxWorkGroupSizeAttrName : string) (f : LLVMFuncOp) : option Z :=
  match target with
  | NVVM | ROCDL =>
      match llvm_attrs f !! "nvvm.maxntid"%string with
      | Some (DenseI32ArrayAttr (n :: _)) => Some n
      | _ => None
      end
  | GENX =>
      match llvm_attrs f !! getMaxWorkGroupSizeAttrName with
      | Some (I32ArrayAttr (n :: _)) => Some n
      | _ => None
      end
  end.

(** The extra warp groups per CTA of a module; 1 without the attribute. *)
Definition warpGroupsPerCTA (m : ModuleOp) : Z :=
  match mod_attrs m !! "triton_gpu.num-warp-groups-per-cta"%string with
  | Some (IntegerAttr _ groups) => groups
  | _ => 1
  end.

(** ** The vector width and byte width as the specification words them

    Spec 4.1: the effective vector width is [min(source contiguity,
    destination layout's native vector width, mask alignment if a mask is
    present)], the byte width [min(128 bits, element-bit-width x
    vector-width)], in bytes. *)
Definition spec_vector_width (contiguity outVec : Z) (maskAlignment : option Z)
  : Z :=
  match maskAlignment with
  | Some a => Z.min (Z.min contiguity outVec) a
  | None => Z.min contiguity outVec
  end.

Definition spec_byte_width (elemBits vec : Z) : Z :=
  Z.min 128 (elemBits * vec) / 8.

(** The same with the two guards of the code: the destination's vector
    width counts only when it is greater than 1, and the cap is the larger
    of 128 bits and the element width. *)
Definition guarded_vector_width (contiguity outVec : Z)
    (maskAlignment : option Z) : Z :=
  let inVec := match maskAlignment with
               | Some a => Z.min a contiguity
               | None => contiguity
               end in
  if 1 <? outVec then Z.min outVec inVec else inVec.

Definition guarded_byte_width (elemBits vec : Z) : Z :=
  Z.min (Z.max 128 elemBits) (elemBits * vec) / 8.

(** ** Example IR *)

Module Examples.

Definition f32 : ElemType := FloatType 32.

(** A 16x16 tensor of pointers in a blocked layout, and a 2x16x16 buffer
    in shared memory whose layout has vector width [vec]. *)
Definition srcTensor : RankedTensorType :=
  mkTensor [16; 16] (TritonPointerType 1) (Some (BlockedEncoding 0)).
Definition dstTensor (vec : Z) : RankedTensorType :=
  mkTensor [2; 16; 16] f32 (Some (SharedEncoding vec)).

Definition vSrc : Value := mkValue 0 (Tensor srcTensor).
Definition vDst (vec : Z) : Value := mkValue 1 (Tensor (dstTensor vec)).
Definition vIndex : Value := mkValue 2 i32Ty.
Definition vMask : Value :=
  mkValue 3 (Tensor (mkTensor [16; 16] (IntegerType 1) (Some (BlockedEncoding 0)))).
Definition vRes (vec : Z) : Value := mkValue 4 (Tensor (dstTensor vec)).

Definition wsAttrs : AttrDict :=
  <["async_agent" := DenseI32ArrayAttr [1]]>
    (<["agent.mutex_role" := IntegerAttr 32 0]>
       (<["axis" := IntegerAttr 32 0]> ∅)).

(** [insert_slice_async %src, %dst, %index, %mask] with the attributes of
    a warp-specialized kernel. *)
(** The capability queries as the TritonGPU dialect answers them: async
    copies of 4, 8 and 16 bytes, commit and wait from compute capability
    80 on. *)
Definition eligibleLoadByteWidth (computeCapability : Z) : gset Z :=
  if 80 <=? computeCapability then {[4; 8; 16]} else ∅.
Definition asyncSupported (computeCapability : Z) : bool :=
  80 <=? computeCapability.

Definition asyncCopy (vec : Z) : Operation :=
  mkOp (InsertSliceAsyncOp vSrc (vDst vec) vIndex (Some vMask) None 1 1 false 0)
       [vRes vec] wsAttrs.

(** The same copy with the mutex role under the name [mutex_role]. *)
Definition asyncCopyMutexRole : Operation :=
  mkOp (InsertSliceAsyncOp vSrc (vDst 1) vIndex (Some vMask) None 1 1 false 0)
       [vRes 1]
       (<["async_agent" := DenseI32ArrayAttr [1]]>
          (<["mutex_role" := IntegerAttr 32 1]> ∅)).

(** The same copy into a buffer of [f16] elements. *)
Definition dstTensor16 : RankedTensorType :=
  mkTensor [2; 16; 16] (FloatType 16) (Some (SharedEncoding 1)).
Definition vDst16 : Value := mkValue 1 (Tensor dstTensor16).
Definition vRes16 : Value := mkValue 4 (Tensor dstTensor16).
Definition asyncCopy16 : Operation :=
  mkOp (InsertSliceAsyncOp vSrc vDst16 vIndex (Some vMask) None 1 1 false 0)
       [vRes16] wsAttrs.

(** A kernel that copies, commits, waits for all but two groups and uses
    the buffer. *)
Definition pipelinedKernel : FuncOp :=
  mkFunc "kernel" [] [] ∅ [] []
         [asyncCopy16;
          mkOp AsyncCommitGroupOp [] ∅;
          mkOp (AsyncWaitOp 2) [] wsAttrs;
          mkOp (OtherOp "triton_gpu.convert_layout" [vRes16]) [mkValue 5 i32Ty] ∅;
          mkOp (ReturnOp []) [] ∅].

Definition pipelinedModule : ModuleOp :=
  mkModule ∅ [TTFunc pipelinedKernel].

(** A pass configuration for the examples: every type converts to
    itself, a function is a kernel when its name is [kernel], the
    external stages leave the module alone, the GENX dialect names its
    attributes as below. *)
Definition convertId (t : type) : option type := Some t.
Definition isKernelByName (f : FuncOp) : bool :=
  bool_decide (sym_name f = "kernel"%string).
Definition keepAttrs (f : FuncOp) (filterArgAttrs : bool) : AttrDict :=
  func_attrs f.
Definition genxKernel : string := "genx.kernel".
Definition genxMaxWorkGroupSize : string := "genx.max_work_group_size".
Definition genxReqdSubGroupSize : string := "genx.intel_reqd_sub_group_size".

Definition beforeCallAndRet (target : Target) (threadsPerWarp : Z)
    (m : ModuleOp) : option ModuleOp :=
  stagesBeforeCallAndRet 80 target (fun _ => 4) (fun _ => threadsPerWarp)
    (fun _ _ => 1) (fun _ _ => 1) eligibleLoadByteWidth asyncSupported
    asyncSupported (fun m => m) convertId convertId isKernelByName keepAttrs
    genxKernel genxMaxWorkGroupSize genxReqdSubGroupSize m.

(** The example kernel lowered on its own, in a module of 4 warps (times
    2 warp groups) with [threadsPerWarp] threads per warp. *)
Definition warpSpecializedModule : ModuleOp :=
  mkModule (<["triton_gpu.num-warp-groups-per-cta" := IntegerAttr 32 2]> ∅)
           [TTFunc pipelinedKernel].

Definition lowerKernel (target : Target) (threadsPerWarp : Z)
  : Outcome LLVMFuncOp :=
  FuncOpConversion 8 target convertId isKernelByName keepAttrs
    (fun _ => threadsPerWarp) genxKernel genxMaxWorkGroupSize
    genxReqdSubGroupSize warpSpecializedModule 6 pipelinedKernel.

(** A device function of two tensors that returns two values, and a call
    to it. *)
Definition vX : Value := mkValue 20 (Tensor srcTensor).
Definition vY : Value := mkValue 21 (Tensor srcTensor).
Definition vCallRes0 : Value := mkValue 22 i32Ty.
Definition vCallRes1 : Value := mkValue 23 (Scalar f32).
Definition deviceFunc : FuncOp :=
  mkFunc "helper" [Tensor srcTensor; Tensor srcTensor] [i32Ty; Scalar f32] ∅
         [∅; ∅] [vX; vY]
         [mkOp (OtherOp "compute" [vX; vY]) [vCallRes0; vCallRes1] ∅;
          mkOp (ReturnOp [vCallRes0; vCallRes1]) [] ∅].
Definition callHelper : Operation :=
  mkOp (CallOp [vSrc; vSrc]) [vCallRes0; vCallRes1]
       (<["callee" := StringAttr "helper"]> ∅).
Definition lowerDevice (target : Target) : Outcome LLVMFuncOp :=
  FuncOpConversion 4 target convertId isKernelByName keepAttrs
    (fun _ => 32) genxKernel genxMaxWorkGroupSize genxReqdSubGroupSize
    pipelinedModule 30 deviceFunc.
Definition lowerCall : Outcome (list Operation * list Value) :=
  CallOpConversion convertId (fun _ v => v) 30 (TTFunc pipelinedKernel)
                   callHelper [vSrc; vSrc].

(** The lowered helper as a device function and as a function marked
    [nvvm.kernel], and its return of two values. *)
Definition pairTy : type := LLVMStructType [i32Ty; Scalar f32].
Definition llvmHelper (attrs : AttrDict) : LLVMFuncOp :=
  mkLLVMFunc "helper" [Tensor srcTensor; Tensor srcTensor; ptrTy] pairTy attrs
             [vX; vY; mkValue 24 ptrTy] [].
Definition kernelAttrs : AttrDict := <["nvvm.kernel" := IntegerAttr 1 1]> ∅.
Definition returnPair : Operation :=
  mkOp (ReturnOp [vCallRes0; vCallRes1]) [] ∅.
Definition returnOne : Operation := mkOp (ReturnOp [vCallRes0]) [] ∅.
Definition returnNone : Operation := mkOp (ReturnOp []) [] ∅.

(** An entry function that returns a value, lowered for [target], and
    the lowering of its return. *)
Definition kernelWithResult : FuncOp :=
  mkFunc "kernel" [] [i32Ty] ∅ [] []
         [mkOp (OtherOp "compute" []) [vCallRes0] ∅; returnOne].
Definition lowerKernelReturn (target : Target) : Outcome (list Operation) :=
  match FuncOpConversion 4 target convertId isKernelByName keepAttrs
          (fun _ => 32) genxKernel genxMaxWorkGroupSize genxReqdSubGroupSize
          pipelinedModule 30 kernelWithResult with
  | Success funcOp =>
      ReturnOpConversion convertId funcOp returnOne [vCallRes0] 40
  | MatchFailure d => MatchFailure d
  | Crash => Crash
  end.

(** A lowered kernel that reads the cluster CTA id and adds it to
    itself. *)
Definition vCta : Value := mkValue 50 i32Ty.
Definition vSum : Value := mkValue 51 i32Ty.
Definition ctaKernel : LLVMFuncOp :=
  mkLLVMFunc "kernel" [] LLVMVoidType ∅ []
             [mkOp ClusterCTAIdOp [vCta] ∅;
              mkOp (OtherOp "llvm.add" [vCta; vCta]) [vSum] ∅;
              mkOp (LLVMReturnOp []) [] ∅].
Definition ctaModule : ModuleOp := mkModule ∅ [LLVMFunc ctaKernel].

(** A scalar predicate, its splat, and a TMA slice-insert masked by the
    splat. *)
Definition vPred : Value := mkValue 10 (Scalar (IntegerType 1)).
Definition vMbar : Value := mkValue 11 (Scalar (TritonPointerType 3)).
Definition splatMask : Operation := mkOp (SplatOp vPred) [vMask] ∅.
Definition insertTMA : Operation :=
  mkOp (InsertSliceTMAOp vSrc (vDst 1) vIndex vMbar (Some vMask)) [vRes 1] ∅.
Definition tmaBlock : list Operation := [splatMask; insertTMA].


(** A kernel whose async copy the hardware can do: eight contiguous
    pointers, a mask aligned to two, a buffer of vector width four. *)
Definition eligibleKernel : FuncOp :=
  mkFunc "kernel" [] [] ∅ [] []
         [asyncCopy 4;
          mkOp AsyncCommitGroupOp [] ∅;
          mkOp (AsyncWaitOp 2) [] wsAttrs;
          mkOp (ReturnOp []) [] ∅].
Definition eligibleModule : ModuleOp := mkModule ∅ [TTFunc eligibleKernel].

(** The byte widths of a device without async copies. *)
Definition noAsyncCopy (computeCapability : Z) : gset Z := ∅.

(** A module of the example device function and an entry function that
    calls it. *)
Definition callerKernel : FuncOp :=
  mkFunc "kernel" [] [] ∅ [] [] [callHelper; returnNone].
Definition callModule : ModuleOp :=
  mkModule ∅ [TTFunc deviceFunc; TTFunc callerKernel].

(** A lowered entry function that still holds the example call and a
    return. *)
Definition loweredCaller : LLVMFuncOp :=
  mkLLVMFunc "kernel" [] LLVMVoidType ∅ [] [callHelper; returnNone].
Definition loweredCallModule : ModuleOp :=
  mkModule ∅ [LLVMFunc loweredCaller].

End Examples.

(** * Properties *)

(** ** Attribute dictionaries *)

Lemma addWSNamedAttrs_kind op attrs :
  op_kind (addWSNamedAttrs op attrs) = op_kind op.
Proof.
  revert op. induction attrs as [|[n v] l IH]; intros op; simpl; [done|].
  rewrite IH. by destruct (isWSName n).
Qed.

Lemma addWSNamedAttrs_results op attrs :
  op_results (addWSNamedAttrs op attrs) = op_results op.
Proof.
  revert op. induction attrs as [|[n v] l IH]; intros op; simpl; [done|].
  rewrite IH. by destruct (isWSName n).
Qed.

Lemma addWSNamedAttrs_lookup_list (l : list (string * Attribute)) op k :
  NoDup l.*1 ->
  op_attrs (addWSNamedAttrs op l) !! k =
    if isWSName k
    then match (list_to_map l : AttrDict) !! k with
         | Some v => Some v
         | None => op_attrs op !! k
         end
    else op_attrs op !! k.
Proof.
  revert op. induction l as [|[n v] l IH]; intros op Hnd.
  - simpl. rewrite lookup_empty. by destruct (isWSName k).
  - apply NoDup_cons in Hnd as [Hn Hnd]. cbn [addWSNamedAttrs foldl fst snd].
    change (foldl _ ?o l) with (addWSNamedAttrs o l).
    rewrite (IH _ Hnd). cbn [list_to_map foldr fst snd uncurry].
    destruct (decide (n = k)) as [->|Hne].
    + rewrite lookup_insert_eq.
      rewrite (not_elem_of_list_to_map_1 (M:=gmap string) l k Hn).
      destruct (isWSName k) eqn:Hk; [|done].
      simpl. by rewrite lookup_insert_eq.
    + rewrite (lookup_insert_ne _ n k) by done.
      destruct (isWSName n); [|done].
      simpl. by rewrite lookup_insert_ne.
Qed.

(** The loop of [addWSNamedAttrs] over the attributes of [from]: a
    warp-specialization name gets the value it has on [from], if any;
    every other entry of [op] stays. *)
Lemma addWSNamedAttrs_lookup op from k :
  op_attrs (addWSNamedAttrs op (getAttrs from)) !! k =
    if isWSName k
    then match op_attrs from !! k with
         | Some v => Some v
         | None => op_attrs op !! k
         end
    else op_attrs op !! k.
Proof.
  unfold getAttrs. rewrite addWSNamedAttrs_lookup_list.
  - by rewrite list_to_map_to_list.
  - apply NoDup_fst_map_to_list.
Qed.

(** ** Async-copy decomposition: the replacement operations *)

Section DecompositionFacts.
Variable computeCapability : Z.
Variable getPtrContiguity : Value -> Z.
Variable getMaskAlignment : Value -> Z.
Variable getEligibleLoadByteWidth : Z -> gset Z.

Abbreviation visit :=
  (decomposeVisit computeCapability getPtrContiguity getMaskAlignment
                  getEligibleLoadByteWidth).
Abbreviation loadSize := (vectorizedLoadSize getPtrContiguity getMaskAlignment).

Lemma vectorizedLoadSize_tensors src dst mask r :
  loadSize src dst mask = Some r ->
  exists srcTy dstTy,
    asTensor (v_type src) = Some srcTy /\ asTensor (v_type dst) = Some dstTy.
Proof.
  unfold vectorizedLoadSize.
  destruct (asTensor (v_type src)) as [srcTy|]; [|done].
  destruct (asTensor (v_type dst)) as [dstTy|]; [|done].
  intros _. by exists srcTy, dstTy.
Qed.

(** Where there is a load size, the cast of the layout of the source
    went through. *)
Lemma vectorizedLoadSize_cast src dst mask r srcTy :
  loadSize src dst mask = Some r ->
  asTensor (v_type src) = Some srcTy ->
  exists srcBlocked, dynCastBlocked srcTy = Some srcBlocked.
Proof.
  unfold vectorizedLoadSize. intros H Hsrc. rewrite Hsrc in H.
  destruct (asTensor (v_type dst)) as [dstTy|]; [|done].
  destruct (dynCastBlocked srcTy) as [srcBlocked|]; [|done].
  by exists srcBlocked.
Qed.

Lemma sliceOffsets_Some dstTy axis index :
  (axis < getRank dstTy)%nat ->
  sliceOffsets dstTy axis index
  = Some (<[axis := OfrValue index]> (replicate (getRank dstTy) (OfrInt 0))).
Proof. intros H. unfold sliceOffsets. by rewrite bool_decide_eq_true_2. Qed.

Lemma isWSName_other name :
  name <> "async_agent"%string -> name <> "agent.mutex_role"%string ->
  isWSName name = false.
Proof.
  intros H1 H2. unfold isWSName.
  rewrite !bool_decide_eq_false_2; done.
Qed.

(** C7.  When an async copy is decomposed (its load byte width is not an
    eligible one, its axis within the rank of the destination), the walk
    puts a load and a slice-insert in its place.  Each of the attributes
    named [async_agent] and [agent.mutex_role] has on both of them
    exactly the value it has on the async copy (and is absent from both
    when it is absent there).  No attribute of another name is on either
    of the two: one named [mutex_role] is not copied. *)
Theorem decompose_copies_ws_attrs st op src dst index mask other cache evict
    isVolatile axis dstTy minVec byteWidth old :
  op_kind op = InsertSliceAsyncOp src dst index mask other cache evict
                                  isVolatile axis ->
  v_type dst = Tensor dstTy ->
  loadSize src dst mask = Some (minVec, byteWidth) ->
  byteWidth ∉ getEligibleLoadByteWidth computeCapability ->
  getResult op = Some old ->
  (axis < getRank dstTy)%nat ->
  exists loadOp insertSliceOp st' reps tmp offsets sizes strides,
    visit st op = Some (st', [loadOp; insertSliceOp], reps)
    /\ op_kind loadOp = LoadOp src mask other cache evict isVolatile
    /\ op_results loadOp = [tmp]
    /\ op_kind insertSliceOp = TensorInsertSliceOp tmp dst offsets sizes strides
    /\ (forall name,
          name = "async_agent"%string \/ name = "agent.mutex_role"%string ->
          op_attrs loadOp !! name = op_attrs op !! name
          /\ op_attrs insertSliceOp !! name = op_attrs op !! name)
    /\ (forall name,
          name <> "async_agent"%string -> name <> "agent.mutex_role"%string ->
          op_attrs loadOp !! name = None
          /\ op_attrs insertSliceOp !! name = None).
Proof.
  intros Hkind Hty Hsize Hne Hres Haxis.
  destruct (vectorizedLoadSize_tensors _ _ _ _ Hsize)
    as (srcTy & dstTy' & Hsrc & Hdst).
  assert (dstTy' = dstTy) as -> by (rewrite Hty in Hdst; simpl in Hdst; congruence).
  destruct (vectorizedLoadSize_cast _ _ _ _ _ Hsize Hsrc) as [srcBlocked Hcast].
  eexists _, _, _, _, _, _, _, _.
  unfold decomposeVisit. rewrite Hkind, Hsize, Hsrc, Hdst.
  rewrite bool_decide_eq_false_2 by done.
  rewrite Hcast, (sliceOffsets_Some _ _ _ Haxis), Hres.
  split; [reflexivity|].
  unfold buildLoadOp, buildInsertSliceOp.
  rewrite !addWSNamedAttrs_kind, !addWSNamedAttrs_results.
  cbn [op_kind op_results].
  do 3 (split; [reflexivity|]).
  split; intros name.
  - intros Hname.
    assert (Hws : isWSName name = true).
    { unfold isWSName. destruct Hname as [-> | ->]; by vm_compute. }
    rewrite !addWSNamedAttrs_lookup, Hws. cbn [op_attrs].
    rewrite lookup_empty. split; by destruct (op_attrs op !! name).
  - intros H1 H2.
    rewrite !addWSNamedAttrs_lookup, (isWSName_other _ H1 H2). cbn [op_attrs].
    by rewrite lookup_empty.
Qed.

End DecompositionFacts.

(** The example async copy, on a device without async copies, is
    decomposed, and its [async_agent] and [agent.mutex_role] attributes
    are on both replacement operations. *)
Lemma decompose_copies_ws_attrs_witness :
  exists loadOp insertSliceOp st' reps tmp offsets sizes strides,
    decomposeVisit 70 (fun _ => 1) (fun _ => 1) Examples.eligibleLoadByteWidth
                   (mkDS 5 false) (Examples.asyncCopy 1)
      = Some (st', [loadOp; insertSliceOp], reps)
    /\ op_kind loadOp = LoadOp Examples.vSrc (Some Examples.vMask) None 1 1 false
    /\ op_results loadOp = [tmp]
    /\ op_kind insertSliceOp =
         TensorInsertSliceOp tmp (Examples.vDst 1) offsets sizes strides
    /\ (forall name,
          name = "async_agent"%string \/ name = "agent.mutex_role"%string ->
          op_attrs loadOp !! name = op_attrs (Examples.asyncCopy 1) !! name
          /\ op_attrs insertSliceOp !! name
             = op_attrs (Examples.asyncCopy 1) !! name)
    /\ (forall name,
          name <> "async_agent"%string -> name <> "agent.mutex_role"%string ->
          op_attrs loadOp !! name = None
          /\ op_attrs insertSliceOp !! name = None).
Proof.
  apply (decompose_copies_ws_attrs 70 (fun _ => 1) (fun _ => 1)
           Examples.eligibleLoadByteWidth (mkDS 5 false) (Examples.asyncCopy 1)
           Examples.vSrc (Examples.vDst 1) Examples.vIndex (Some Examples.vMask)
           None 1 1 false 0%nat (Examples.dstTensor 1) 1 4 (Examples.vRes 1)).
  - reflexivity.
  - reflexivity.
  - reflexivity.
  - vm_compute. set_solver.
  - reflexivity.
  - vm_compute. lia.
Defined.

(** C7, as the specification has it, fails: the code copies the
    attribute named [agent.mutex_role], not one named [mutex_role].  An
    async copy that carries [async_agent] and [mutex_role] is decomposed
    into a load and a slice-insert that carry [async_agent] and nothing
    named [mutex_role]. *)
Lemma mutex_role_not_copied :
  exists loadOp insertSliceOp st' reps,
    decomposeVisit 70 (fun _ => 1) (fun _ => 1) Examples.eligibleLoadByteWidth
                   (mkDS 5 false) Examples.asyncCopyMutexRole
      = Some (st', [loadOp; insertSliceOp], reps)
    /\ op_attrs Examples.asyncCopyMutexRole !! "mutex_role"%string
       = Some (IntegerAttr 32 1)
    /\ op_attrs loadOp !! "mutex_role"%string = None
    /\ op_attrs insertSliceOp !! "mutex_role"%string = None
    /\ op_attrs loadOp !! "async_agent"%string
       = op_attrs Examples.asyncCopyMutexRole !! "async_agent"%string
    /\ op_attrs insertSliceOp !! "async_agent"%string
       = op_attrs Examples.asyncCopyMutexRole !! "async_agent"%string.
Proof.
  eexists _, _, _, _. split; [reflexivity|]. by vm_compute.
Qed.

(** ** Async-copy decomposition: the vectorized load size *)

Lemma u32_small z : 0 <= z < 2 ^ 32 -> u32 z = z.
Proof. intros H. unfold u32. by apply Z.mod_small. Qed.

(** C4, as the code has it.  For an async copy whose destination is a
    tensor in a shared layout of vector width [outVec] with elements of
    [elemBits] bits, all quantities being 32-bit unsigned numbers: the
    effective vector width is the minimum of the source contiguity and
    (with a mask) the mask alignment, and of [outVec] too only when
    [outVec > 1]; the byte width is [min(max(128, elemBits), elemBits x
    width) / 8].  When moreover [outVec > 1] and [elemBits <= 128] these
    are the numbers of the specification.  The numbers are computed for
    a source tensor that has a layout; for one without, the cast of
    lines 608-609 breaks down before them. *)
Theorem vectorizedLoadSize_guarded getPtrContiguity getMaskAlignment
    src dst mask srcTy dstTy outVec elemBits :
  let contiguity := getPtrContiguity src in
  let maskAlignment := getMaskAlignment <$> mask in
  let width := guarded_vector_width contiguity outVec maskAlignment in
  v_type src = Tensor srcTy ->
  v_type dst = Tensor dstTy ->
  getEncoding dstTy = Some (SharedEncoding outVec) ->
  getIntOrFloatBitWidth (getElementType dstTy) = Some elemBits ->
  0 <= contiguity < 2 ^ 32 ->
  (forall m, mask = Some m -> 0 <= getMaskAlignment m < 2 ^ 32) ->
  0 <= outVec < 2 ^ 32 ->
  0 <= elemBits < 2 ^ 32 ->
  elemBits * width < 2 ^ 32 ->
  vectorizedLoadSize getPtrContiguity getMaskAlignment src dst mask
    = match getEncoding srcTy with
      | Some _ => Some (width, guarded_byte_width elemBits width)
      | None => None
      end
  /\ (1 < outVec -> elemBits <= 128 ->
      width = spec_vector_width contiguity outVec maskAlignment
      /\ guarded_byte_width elemBits width = spec_byte_width elemBits width).
Proof.
  intros contiguity maskAlignment width Hsrc Hdst Henc Hbits Hc Hm Ho He Hprod.
  assert (Hwidth : 0 <= width).
  { subst width maskAlignment. unfold guarded_vector_width.
    destruct mask as [m|]; simpl;
      [specialize (Hm m eq_refl)|]; destruct (1 <? outVec); lia. }
  split.
  - unfold vectorizedLoadSize, sharedVec, dynCastBlocked.
    rewrite Hsrc, Hdst. cbn [asTensor]. rewrite Henc, Hbits.
    destruct (getEncoding srcTy) as [srcEnc|]; [|done].
    assert (Hcast : forall A (a b : A),
               match match srcEnc with
                     | BlockedEncoding tag => Some (Some (BlockedEncoding tag))
                     | _ => Some None
                     end with
               | Some _ => a
               | None => b
               end = a) by (intros; by destruct srcEnc).
    rewrite Hcast.
    rewrite (u32_small outVec), (u32_small elemBits) by done.
    fold contiguity. rewrite (u32_small contiguity) by done.
    assert (Hin : match mask with
                  | Some m => Z.min (u32 (getMaskAlignment m)) contiguity
                  | None => contiguity
                  end
                  = match maskAlignment with
                    | Some a => Z.min a contiguity
                    | None => contiguity
                    end).
    { subst maskAlignment. destruct mask as [m|]; simpl; [|done].
      by rewrite u32_small by auto. }
    rewrite Hin. fold (guarded_vector_width contiguity outVec maskAlignment).
    fold width. rewrite (u32_small (elemBits * width)) by lia.
    reflexivity.
  - intros Hgt Hle. split.
    + subst width. unfold guarded_vector_width, spec_vector_width.
      rewrite (proj2 (Z.ltb_lt 1 outVec)) by done.
      destruct maskAlignment; lia.
    + unfold guarded_byte_width, spec_byte_width.
      by rewrite Z.max_l by lia.
Qed.

(** A masked copy of [f32] elements into a shared layout of vector width
    4, with contiguity 8 and mask alignment 2: the width is 2, 8 bytes. *)
Lemma vectorizedLoadSize_guarded_witness :
  vectorizedLoadSize (fun _ => 8) (fun _ => 2) Examples.vSrc (Examples.vDst 4)
                     (Some Examples.vMask)
    = Some (2, 8)
  /\ (1 < 4 -> 32 <= 128 ->
      2 = spec_vector_width 8 4 (Some 2)
      /\ 8 = spec_byte_width 32 2).
Proof.
  apply (vectorizedLoadSize_guarded (fun _ => 8) (fun _ => 2) Examples.vSrc
           (Examples.vDst 4) (Some Examples.vMask) Examples.srcTensor
           (Examples.dstTensor 4) 4 32);
    try reflexivity; try (vm_compute; intuition congruence); intros; lia.
Defined.

(** C4, as the specification has it, fails: with a destination layout of
    vector width 1 the code does not take the minimum with it.  An
    unmasked copy of [f32] elements with contiguity 4 is given the width 4
    and 16 bytes; the specification's numbers are 1 and 4 bytes. *)
Lemma vectorizedLoadSize_not_spec :
  vectorizedLoadSize (fun _ => 4) (fun _ => 1) Examples.vSrc (Examples.vDst 1)
                     None
    = Some (4, 16)
  /\ spec_vector_width 4 1 None = 1
  /\ spec_byte_width 32 (spec_vector_width 4 1 None) = 4.
Proof. by vm_compute. Qed.

(** ** Walks *)

Lemma replaceAllUsesWith_nil ops : replaceAllUsesWith [] ops = ops.
Proof. reflexivity. Qed.

Lemma replaceAllUsesWith_length reps ops :
  length (replaceAllUsesWith reps ops) = length ops.
Proof.
  revert ops. induction reps as [|p reps IH]; intros ops; [done|].
  cbn [replaceAllUsesWith foldl].
  change (foldl _ ?l reps) with (replaceAllUsesWith reps l).
  by rewrite IH, length_fmap.
Qed.

Lemma walk_invariant {St : Type}
    (visit : St -> Operation ->
             option (St * list Operation * list (Value * Value)))
    (Inv : St -> list Operation -> list Operation -> Prop) :
  (forall st done op rest st' new_ops reps,
      Inv st done (op :: rest) ->
      visit st op = Some (st', new_ops, reps) ->
      Inv st' (replaceAllUsesWith reps (done ++ new_ops))
          (replaceAllUsesWith reps rest)) ->
  forall fuel st done todo st' out,
    (length todo <= fuel)%nat ->
    Inv st done todo ->
    walk visit fuel st done todo = Some (st', out) ->
    Inv st' out [].
Proof.
  intros Hstep. induction fuel as [|n IH]; intros st done todo st' out Hlen Hinv.
  - destruct todo; simpl in *; [|lia]. by intros [= <- <-].
  - destruct todo as [|op rest]; simpl in *; [by intros [= <- <-]|].
    destruct (visit st op) as [[[st1 new_ops] reps]|] eqn:Hvisit; [|done].
    apply IH.
    + rewrite replaceAllUsesWith_length. lia.
    + by eapply Hstep.
Qed.

Lemma replaceAllUsesWith_Forall (Good : Operation -> Prop) reps l :
  (forall f op, Good op -> Good (mapOpOperands f op)) ->
  Forall Good l -> Forall Good (replaceAllUsesWith reps l).
Proof.
  intros Hmap. revert l. induction reps as [|p reps IH]; intros l Hl; [done|].
  cbn [replaceAllUsesWith foldl].
  change (foldl _ ?l0 reps) with (replaceAllUsesWith reps l0).
  apply IH, Forall_fmap. eapply Forall_impl; [exact Hl|].
  intros op Hop. by apply Hmap.
Qed.

(** A walk goes through when the callback goes through on every
    operation that is [Good] and its replacements of uses keep the
    operations still to be visited [Good]. *)
Lemma walk_is_Some {St : Type}
    (visit : St -> Operation ->
             option (St * list Operation * list (Value * Value)))
    (Good : Operation -> Prop) :
  (forall st op, Good op -> is_Some (visit st op)) ->
  (forall st op st' new_ops reps l,
      Good op -> visit st op = Some (st', new_ops, reps) ->
      Forall Good l -> Forall Good (replaceAllUsesWith reps l)) ->
  forall fuel st done todo,
    Forall Good todo -> is_Some (walk visit fuel st done todo).
Proof.
  intros Hvisit Hpres.
  induction fuel as [|n IH]; intros st done todo Hgood;
    destruct todo as [|op rest]; cbn [walk]; try (by eexists).
  apply Forall_cons in Hgood as [Hop Hrest].
  destruct (Hvisit st op Hop) as [[[st' new_ops] reps] Hv]. rewrite Hv.
  apply IH. by eapply Hpres.
Qed.

Lemma walkItems_is_Some {St : Type}
    (visit : ModuleItem -> St -> Operation ->
             option (St * list Operation * list (Value * Value)))
    (Good : Operation -> Prop) :
  (forall it st op, Good op -> is_Some (visit it st op)) ->
  (forall it st op st' new_ops reps l,
      Good op -> visit it st op = Some (st', new_ops, reps) ->
      Forall Good l -> Forall Good (replaceAllUsesWith reps l)) ->
  forall items st,
    Forall (fun it => Forall Good (item_body it)) items ->
    is_Some (walkItems visit st items).
Proof.
  intros Hvisit Hpres. induction items as [|it rest IH]; intros st Hgood; [done|].
  apply Forall_cons in Hgood as [Hit Hrest]. cbn [walkItems].
  destruct (walk_is_Some (visit it) Good (Hvisit it) (Hpres it)
              (length (item_body it)) st [] (item_body it) Hit)
    as [[st1 body'] Hb].
  unfold walkBlock. rewrite Hb.
  destruct (IH st1 Hrest) as [[st2 rest'] ->]. done.
Qed.

Lemma item_body_set_body it body :
  item_body (item_set_body it body) = match it with Global _ => [] | _ => body end.
Proof. by destruct it. Qed.

Section LocalWalk.
Context {St : Type}.

(** A callback that leaves the state alone and replaces no uses: the walk
    puts [f op] in place of every operation [op]. *)
Lemma walk_local (visit : St -> Operation ->
                          option (St * list Operation * list (Value * Value)))
    (f : Operation -> list Operation) st :
  (forall op, visit st op = Some (st, f op, [])) ->
  forall fuel done todo,
    (length todo <= fuel)%nat ->
    walk visit fuel st done todo = Some (st, done ++ (todo ≫= f)).
Proof.
  intros Hvisit. induction fuel as [|n IH]; intros done todo Hlen.
  - destruct todo; simpl in *; [|lia]. by rewrite app_nil_r.
  - destruct todo as [|op rest]; simpl in *.
    + by rewrite app_nil_r.
    + rewrite Hvisit, !replaceAllUsesWith_nil, IH by lia.
      by rewrite <- app_assoc.
Qed.

Lemma walkBlock_local visit (f : Operation -> list Operation) (st : St) ops :
  (forall op, visit st op = Some (st, f op, [])) ->
  walkBlock visit st ops = Some (st, ops ≫= f).
Proof. intros H. unfold walkBlock. by rewrite (walk_local visit f st H). Qed.

Lemma walkItems_local visit (f : ModuleItem -> Operation -> list Operation)
    (st : St) items :
  (forall it op, visit it st op = Some (st, f it op, [])) ->
  walkItems visit st items
    = Some (st, (fun it => item_set_body it (item_body it ≫= f it)) <$> items).
Proof.
  intros H. induction items as [|it rest IH]; simpl; [done|].
  by rewrite (walkBlock_local (visit it) (f it) st _ (H it)), IH.
Qed.

Lemma walkModule_local visit (f : ModuleItem -> Operation -> list Operation)
    (st : St) m :
  (forall it op, visit it st op = Some (st, f it op, [])) ->
  walkModule visit st m
    = Some (st, mkModule (mod_attrs m)
                  ((fun it => item_set_body it (item_body it ≫= f it))
                     <$> mod_items m)).
Proof. intros H. unfold walkModule. by rewrite (walkItems_local visit f st _ H). Qed.
End LocalWalk.

Lemma module_ops_local (f : ModuleItem -> Operation -> list Operation) attrs items op :
  op ∈ module_ops
         (mkModule attrs
            ((fun it => item_set_body it (item_body it ≫= f it)) <$> items)) ->
  exists it op0, it ∈ items /\ op0 ∈ item_body it /\ op ∈ f it op0.
Proof.
  unfold module_ops. cbn [mod_items]. intros H.
  apply list_elem_of_bind in H as (it' & Hop & Hit').
  apply list_elem_of_fmap in Hit' as (it & -> & Hit).
  rewrite item_body_set_body in Hop.
  destruct it; try (by apply elem_of_nil in Hop);
    apply list_elem_of_bind in Hop as (op0 & Hop & Hop0); eauto.
Qed.

(** ** Async-copy decomposition: the wait markers *)

Section WaitMarkers.
Variable computeCapability : Z.
Variable target : Target.
Variable getPtrContiguity : Value -> Z.
Variable getMaskAlignment : Value -> Z.
Variable getEligibleLoadByteWidth : Z -> gset Z.
Variable asyncCommitGroupIsSupported : Z -> bool.
Variable asyncWaitIsSupported : Z -> bool.

(** What the third walk puts in place of an operation. *)
Lemma waitVisit_local st :
  exists f : Operation -> list Operation,
    (forall op, waitVisit computeCapability asyncWaitIsSupported st op
                = Some (st, f op, []))
    /\ (forall op op' num,
          op' ∈ f op -> op_kind op' = AsyncWaitOp num ->
          asyncWaitIsSupported computeCapability = true
          /\ (ds_decomposed st = true -> num = 0))
    /\ (forall op, filter (fun o => isAsyncMarker o = false) (f op)
                   = filter (fun o => isAsyncMarker o = false) [op]).
Proof.
  exists (fun op =>
            match op_kind op with
            | AsyncWaitOp _ =>
                if negb (asyncWaitIsSupported computeCapability) then []
                else if ds_decomposed st
                     then [addWSNamedAttrs (mkOp (AsyncWaitOp 0) [] ∅) (getAttrs op)]
                     else [op]
            | _ => [op]
            end).
  split; [|split].
  - intros op. unfold waitVisit.
    destruct (op_kind op); try done.
    destruct (asyncWaitIsSupported computeCapability); simpl; [|done].
    by destruct (ds_decomposed st).
  - intros op op' num Hin Hkind.
    destruct (op_kind op) eqn:Hop;
      try (apply list_elem_of_singleton in Hin as ->; congruence).
    destruct (asyncWaitIsSupported computeCapability); simpl in Hin;
      [|by apply elem_of_nil in Hin].
    split; [done|]. intros Hd. rewrite Hd in Hin.
    apply list_elem_of_singleton in Hin as ->.
    rewrite addWSNamedAttrs_kind in Hkind. simpl in Hkind. congruence.
  - intros op. destruct (op_kind op) eqn:Hop; try done.
    assert (Hm : isAsyncMarker op = true) by (unfold isAsyncMarker; by rewrite Hop).
    assert (Hn : isAsyncMarker
                   (addWSNamedAttrs (mkOp (AsyncWaitOp 0) [] ∅) (getAttrs op))
                 = true)
      by (unfold isAsyncMarker; by rewrite addWSNamedAttrs_kind).
    destruct (negb _), (ds_decomposed st);
      rewrite ?filter_cons, ?filter_nil; repeat case_decide; congruence.
Qed.

Lemma commitVisit_local st :
  exists f : Operation -> list Operation,
    (forall op, commitVisit computeCapability asyncCommitGroupIsSupported st op
                = Some (st, f op, []))
    /\ (forall op, filter (fun o => isAsyncMarker o = false) (f op)
                   = filter (fun o => isAsyncMarker o = false) [op]).
Proof.
  exists (fun op =>
            match op_kind op with
            | AsyncCommitGroupOp =>
                if negb (asyncCommitGroupIsSupported computeCapability)
                then [] else [op]
            | _ => [op]
            end).
  split.
  - intros op. unfold commitVisit. destruct (op_kind op); try done.
    by destruct (asyncCommitGroupIsSupported computeCapability).
  - intros op. destruct (op_kind op) eqn:Hop; try done.
    assert (Hm : isAsyncMarker op = true) by (unfold isAsyncMarker; by rewrite Hop).
    destruct (negb _); rewrite ?filter_cons, ?filter_nil;
      repeat case_decide; congruence.
Qed.

Lemma item_set_body_same it : item_set_body it (item_body it) = it.
Proof. by destruct it as [[]|[]|]. Qed.

(** The flag of the first walk records the decompositions: as long as it
    is not set, the block is as it was. *)
Lemma decomposeVisit_flag st op st' new_ops reps :
  decomposeVisit computeCapability getPtrContiguity getMaskAlignment
                 getEligibleLoadByteWidth st op = Some (st', new_ops, reps) ->
  ds_decomposed st' = false ->
  st' = st /\ new_ops = [op] /\ reps = [].
Proof.
  unfold decomposeVisit.
  destruct (op_kind op); try (by intros [= <- <- <-]).
  destruct (vectorizedLoadSize _ _ _ _ _) as [[minVec byteWidth]|]; [|done].
  destruct (asTensor _) as [srcTy|]; [|done].
  destruct (asTensor _) as [dstTy|]; [|done].
  case_bool_decide; [by intros [= <- <- <-]|].
  destruct (dynCastBlocked srcTy); [|done].
  destruct (sliceOffsets _ _ _); [|done].
  destruct (getResult op); [|done]. by intros [= <- <- <-].
Qed.

Lemma decompose_walkBlock_flag st ops st' out :
  walkBlock (decomposeVisit computeCapability getPtrContiguity
               getMaskAlignment getEligibleLoadByteWidth) st ops
  = Some (st', out) ->
  ds_decomposed st' = false -> st' = st /\ out = ops.
Proof.
  intros Hwalk Hflag. unfold walkBlock in Hwalk.
  assert (Hinv : ds_decomposed st' = false -> st' = st /\ out ++ [] = ops).
  { refine (walk_invariant _
              (fun s done todo =>
                 ds_decomposed s = false -> s = st /\ done ++ todo = ops)
              _ (length ops) st [] ops st' out _ _ Hwalk);
      [|done|by intros _].
    intros s done op rest s' new_ops reps Hinv Hvisit Hs'.
    destruct (decomposeVisit_flag _ _ _ _ _ Hvisit Hs') as (-> & -> & ->).
    destruct (Hinv Hs') as [-> Hops]. rewrite !replaceAllUsesWith_nil.
    split; [done|]. by rewrite <- app_assoc. }
  destruct (Hinv Hflag) as [-> Hout]. by rewrite app_nil_r in Hout.
Qed.

Lemma decompose_walkItems_flag items : forall st st' items',
  walkItems (fun _ => decomposeVisit computeCapability getPtrContiguity
                        getMaskAlignment getEligibleLoadByteWidth) st items
  = Some (st', items') ->
  ds_decomposed st' = false -> st' = st /\ items' = items.
Proof.
  induction items as [|it rest IH]; intros st st' items'; cbn [walkItems].
  - by intros [= <- <-].
  - destruct (walkBlock _ st (item_body it)) as [[st1 body']|] eqn:Hb; [|done].
    destruct (walkItems _ st1 rest) as [[st2 rest']|] eqn:Hrest; [|done].
    intros [= <- <-] Hflag.
    destruct (IH _ _ _ Hrest Hflag) as [-> ->].
    destruct (decompose_walkBlock_flag _ _ _ _ Hb Hflag) as [-> ->].
    by rewrite item_set_body_same.
Qed.

(** The second and the third walk touch the async markers only. *)
Lemma filter_bind_local (f : Operation -> list Operation) ops :
  (forall op, filter (fun o => isAsyncMarker o = false) (f op)
              = filter (fun o => isAsyncMarker o = false) [op]) ->
  filter (fun o => isAsyncMarker o = false) (ops ≫= f)
  = filter (fun o => isAsyncMarker o = false) ops.
Proof.
  intros Hf. induction ops as [|op ops IH]; [done|].
  cbn [mbind list_bind]. change (mbind f ops) with (ops ≫= f).
  rewrite filter_app, Hf, IH. by rewrite <- filter_app.
Qed.

Lemma module_ops_local_filter (f : Operation -> list Operation) attrs items :
  (forall op, filter (fun o => isAsyncMarker o = false) (f op)
              = filter (fun o => isAsyncMarker o = false) [op]) ->
  filter (fun o => isAsyncMarker o = false)
         (module_ops
            (mkModule attrs
               ((fun it => item_set_body it (item_body it ≫= f)) <$> items)))
  = filter (fun o => isAsyncMarker o = false) (module_ops (mkModule attrs items)).
Proof.
  intros Hf. unfold module_ops. cbn [mod_items].
  induction items as [|it rest IH]; [done|].
  cbn [fmap list_fmap mbind list_bind]. rewrite !filter_app.
  f_equal; [|exact IH]. rewrite item_body_set_body.
  destruct it; [| |done]; by apply filter_bind_local.
Qed.

Lemma hasLayout_asTensor t :
  hasLayout t = true ->
  exists srcTy srcBlocked,
    asTensor t = Some srcTy /\ dynCastBlocked srcTy = Some srcBlocked.
Proof.
  unfold hasLayout. destruct t as [|r| | | |]; try done.
  intros H. exists r. unfold dynCastBlocked.
  destruct (getEncoding r) as [[| |]|]; try done; by eexists.
Qed.

Lemma isSharedTensor_hasLayout t : isSharedTensor t = true -> hasLayout t = true.
Proof.
  unfold isSharedTensor, hasLayout. destruct t as [|r| | | |]; try done.
  by destruct (getEncoding r) as [[| |]|].
Qed.

Lemma vectorizedLoadSize_is_Some src dst mask :
  hasLayout (v_type src) = true -> isSharedTensor (v_type dst) = true ->
  is_Some (vectorizedLoadSize getPtrContiguity getMaskAlignment src dst mask).
Proof.
  intros (srcTy & srcBlocked & Hsrc & Hcast)%hasLayout_asTensor.
  unfold vectorizedLoadSize, isSharedTensor, sharedVec.
  rewrite Hsrc. destruct (v_type dst) as [|r| | | |]; try done.
  cbn [asTensor]. rewrite Hcast.
  destruct (getEncoding r) as [[| |]|]; try done.
  destruct (getElementType r); try done; by eexists.
Qed.

Lemma decomposeVisit_is_Some rank st op :
  wellTypedAsyncCopy rank op = true ->
  is_Some (decomposeVisit computeCapability getPtrContiguity getMaskAlignment
                          getEligibleLoadByteWidth st op).
Proof.
  unfold wellTypedAsyncCopy, decomposeVisit.
  destruct (op_kind op) as [src dst index msk other cache evict isVolatile axis
                           | | | | | | | | | | | | | | | |]; try (by eexists).
  intros H. apply andb_prop in H as [H Hrank]. apply andb_prop in H as [H Haxis].
  apply andb_prop in H as [H Hres]. apply andb_prop in H as [Hsrc Hdst].
  apply bool_decide_eq_true in Hrank, Haxis.
  destruct (vectorizedLoadSize_is_Some src dst msk Hsrc Hdst) as [[v w] ->].
  destruct (hasLayout_asTensor _ Hsrc) as (srcTy & srcBlocked & -> & ->).
  unfold isSharedTensor, rankOf in *.
  destruct (v_type dst) as [|dstTy| | | |]; try done.
  cbn [asTensor]. case_bool_decide; [by eexists|].
  rewrite sliceOffsets_Some by lia.
  unfold getResult. destruct (op_results op); [done|by eexists].
Qed.

(** The value that replaces the result of a decomposed copy has the type
    of its destination, so the copies still to be visited stay well
    typed. *)
Lemma wellTypedAsyncCopy_rauw rank old new o :
  isSharedTensor (v_type new) = true ->
  (rank <= rankOf (v_type new))%nat ->
  wellTypedAsyncCopy rank o = true ->
  wellTypedAsyncCopy rank (mapOpOperands (rauw old new) o) = true.
Proof.
  intros Hshared Hrank. unfold wellTypedAsyncCopy, mapOpOperands.
  cbn [op_kind op_results]. destruct (op_kind o); cbn [mapOperands]; try done.
  intros H. apply andb_prop in H as [H Hr]. apply andb_prop in H as [H Haxis].
  apply andb_prop in H as [H Hres]. apply andb_prop in H as [Hsrc Hdst].
  rewrite Haxis, Hres, !andb_true_r.
  apply bool_decide_eq_true in Hr.
  unfold rauw. repeat case_match; rewrite ?Hsrc, ?Hdst; simpl;
    rewrite ?(isSharedTensor_hasLayout _ Hshared), ?Hshared; simpl;
    by apply bool_decide_eq_true.
Qed.

Lemma decomposeVisit_keeps_well_typed rank st op st' new_ops reps l :
  wellTypedAsyncCopy rank op = true ->
  decomposeVisit computeCapability getPtrContiguity getMaskAlignment
                 getEligibleLoadByteWidth st op = Some (st', new_ops, reps) ->
  Forall (fun o => wellTypedAsyncCopy rank o = true) l ->
  Forall (fun o => wellTypedAsyncCopy rank o = true) (replaceAllUsesWith reps l).
Proof.
  unfold wellTypedAsyncCopy at 1, decomposeVisit.
  destruct (op_kind op) as [src dst index msk other cache evict isVolatile axis
                           | | | | | | | | | | | | | | | |];
    try (by intros _ [= <- <- <-]).
  intros H. apply andb_prop in H as [H Hrank]. apply andb_prop in H as [H _].
  apply andb_prop in H as [H _]. apply andb_prop in H as [_ Hdst].
  apply bool_decide_eq_true in Hrank.
  destruct (vectorizedLoadSize _ _ _ _ _) as [[v w]|]; [|done].
  destruct (asTensor _) as [srcTy|]; [|done].
  destruct (asTensor _) as [dstTy|]; [|done].
  case_bool_decide; [by intros [= <- <- <-]|].
  destruct (dynCastBlocked srcTy); [|done].
  destruct (sliceOffsets _ _ _); [|done].
  destruct (getResult op) as [old|]; [|done]. intros [= <- <- <-] Hl.
  cbn [replaceAllUsesWith foldl fst snd]. apply Forall_fmap.
  eapply Forall_impl; [exact Hl|]. intros user.
  by apply wellTypedAsyncCopy_rauw.
Qed.

(** C5.  On a module whose async copies are well typed
    [decomposeInsertSliceAsyncOp] goes through.  Whenever it ends with its
    [decomposed] flag set (an async copy of the module was decomposed),
    every wait marker of the resulting module waits with pending count 0,
    that is for all outstanding async operations.  On GENX wait markers
    remain only where the capability supports them: where it does not,
    the step leaves no wait marker at all.  On every other target the
    step returns at once: nothing is decomposed and the module, its wait
    markers included, is as it was, whatever the capability supports.
    The flag is set by a decomposition and by nothing else: when it is
    not set, the module is, but for its commit and wait markers, as it
    was. *)
Theorem decompose_waits_for_all rank m :
  (forall op, op ∈ module_ops m -> wellTypedAsyncCopy rank op = true) ->
  exists decomposed m',
    decomposeInsertSliceAsyncOp_flag computeCapability target getPtrContiguity
      getMaskAlignment getEligibleLoadByteWidth asyncCommitGroupIsSupported
      asyncWaitIsSupported m = Some (decomposed, m')
    /\ (decomposed = true ->
        forall op num, op ∈ module_ops m' -> op_kind op = AsyncWaitOp num ->
                       num = 0 /\ asyncWaitIsSupported computeCapability = true)
    /\ (target = GENX -> asyncWaitIsSupported computeCapability = false ->
        forall op num, op ∈ module_ops m' -> op_kind op <> AsyncWaitOp num)
    /\ (target <> GENX -> decomposed = false /\ m' = m)
    /\ (decomposed = false ->
        filter (fun o => isAsyncMarker o = false) (module_ops m')
        = filter (fun o => isAsyncMarker o = false) (module_ops m)).
Proof.
  intros Hwf. unfold decomposeInsertSliceAsyncOp_flag.
  case_bool_decide as Htarget.
  { exists false, m. split; [done|]. split; [done|]. split; [|done].
    intros ->. done. }
  assert (Hsome : is_Some (walkItems
                             (fun _ => decomposeVisit computeCapability
                                         getPtrContiguity getMaskAlignment
                                         getEligibleLoadByteWidth)
                             (mkDS (nextId m) false) (mod_items m))).
  { apply (walkItems_is_Some _ (fun o => wellTypedAsyncCopy rank o = true)).
    - intros _. apply decomposeVisit_is_Some.
    - intros _. apply decomposeVisit_keeps_well_typed.
    - apply Forall_forall. intros it Hit. apply Forall_forall. intros op Hop.
      apply Hwf. apply list_elem_of_bind. eauto. }
  destruct Hsome as [[st1 items1] Hitems].
  assert (Hwalk1 : walkModule
                     (fun _ => decomposeVisit computeCapability
                                 getPtrContiguity getMaskAlignment
                                 getEligibleLoadByteWidth)
                     (mkDS (nextId m) false) m
                   = Some (st1, mkModule (mod_attrs m) items1))
    by (unfold walkModule; by rewrite Hitems).
  rewrite Hwalk1.
  destruct (commitVisit_local st1) as (fc & Hfc & Hfcm).
  rewrite (walkModule_local (fun _ => commitVisit _ _) (fun _ => fc) st1)
    by (intros _; apply Hfc).
  destruct (waitVisit_local st1) as (fw & Hfw & Hkind & Hfwm).
  rewrite (walkModule_local (fun _ => waitVisit _ _) (fun _ => fw) st1)
    by (intros _; apply Hfw).
  eexists _, _. split; [reflexivity|]. split; [|split; [|split]].
  - intros Hd op num Hin Hop.
    apply module_ops_local in Hin as (it & op0 & _ & _ & Hin).
    destruct (Hkind _ _ _ Hin Hop) as [Hsup Hnum]. auto.
  - intros _ Hsup op num Hin Hop.
    apply module_ops_local in Hin as (it & op0 & _ & _ & Hin).
    destruct (Hkind _ _ _ Hin Hop) as [Hsup' _]. congruence.
  - intros Hne. by destruct Htarget.
  - intros Hflag. cbn [mod_attrs mod_items].
    rewrite (module_ops_local_filter fw) by done.
    rewrite (module_ops_local_filter fc) by done.
    by destruct (decompose_walkItems_flag _ _ _ _ Hitems Hflag) as [_ ->].
Qed.
End WaitMarkers.

(** The example kernel on GENX at capability 80: its 2-byte copy is
    decomposed and its [async_wait {num = 2}] becomes a wait for all. *)
Lemma decompose_waits_for_all_witness :
  exists m',
    decomposeInsertSliceAsyncOp_flag 80 GENX (fun _ => 1) (fun _ => 1)
      Examples.eligibleLoadByteWidth Examples.asyncSupported
      Examples.asyncSupported Examples.pipelinedModule = Some (true, m')
    /\ (forall op num, op ∈ module_ops m' -> op_kind op = AsyncWaitOp num ->
                       num = 0 /\ Examples.asyncSupported 80 = true)
    /\ (exists op, op ∈ module_ops m' /\ op_kind op = AsyncWaitOp 0).
Proof.
  destruct (decompose_waits_for_all 80 GENX (fun _ => 1) (fun _ => 1)
              Examples.eligibleLoadByteWidth Examples.asyncSupported
              Examples.asyncSupported 1%nat Examples.pipelinedModule)
    as (d & m' & Hrun & Hwait & _).
  { intros op Hin. unfold module_ops in Hin.
    cbn [Examples.pipelinedModule mod_items mbind list_bind item_body
         Examples.pipelinedKernel func_body app] in Hin.
    repeat (apply elem_of_cons in Hin as [->|Hin]; [by vm_compute|]).
    by apply elem_of_nil in Hin. }
  assert (Hd : d = true) by (vm_compute in Hrun; congruence).
  subst d. exists m'. split; [done|]. split; [by apply Hwait|].
  vm_compute in Hrun. injection Hrun as <-.
  eexists. split.
  - unfold module_ops. cbn [mod_items mbind list_bind item_body func_body].
    rewrite app_nil_r. do 3 apply list_elem_of_further.
    apply list_elem_of_here.
  - reflexivity.
Defined.

(** C5, as the specification has it, fails in its last part: off GENX a
    wait marker that the capability does not support is not erased.  On
    NVVM at capability 70, which supports neither async copies nor wait
    markers, the step returns the example kernel as it is, with its
    [async_wait {num = 2}]. *)
Lemma unsupported_wait_not_erased :
  Examples.asyncSupported 70 = false
  /\ exists m',
       decomposeInsertSliceAsyncOp_flag 70 NVVM (fun _ => 1) (fun _ => 1)
         Examples.eligibleLoadByteWidth Examples.asyncSupported
         Examples.asyncSupported Examples.pipelinedModule = Some (false, m')
       /\ exists op, op ∈ module_ops m' /\ op_kind op = AsyncWaitOp 2.
Proof.
  split; [reflexivity|]. eexists. split; [reflexivity|].
  exists (mkOp (AsyncWaitOp 2) [] Examples.wsAttrs). split; [|reflexivity].
  unfold module_ops.
  cbn [Examples.pipelinedModule mod_items mbind list_bind item_body
       Examples.pipelinedKernel func_body app].
  do 2 apply list_elem_of_further. apply list_elem_of_here.
Qed.

(** ** The cleanup of TMA slice-inserts *)

Lemma applyPatternUntilFailure_no_mask fuel block op :
  match op_kind op with
  | InsertSliceTMAOp _ _ _ _ (Some m) => getDefiningSplat block m = None
  | _ => True
  end ->
  applyPatternUntilFailure fuel block op = op.
Proof.
  destruct fuel as [|n]; [done|]. simpl. unfold FoldSplatMaskInInsertAsync.
  destruct (op_kind op) as [| | | | | ? ? ? ? [m|] | | | | | | | | | | |]; try done.
  by intros ->.
Qed.

(** C10. In a block where the operand of a splat is not itself the result
    of a splat (it is a scalar), the cleanup leaves every operation in its
    place and changes it as follows: a TMA slice-insert whose mask is the
    result of a splat gets the splat's operand as its mask, with its other
    operands, results and attributes as they were; a TMA slice-insert
    without mask, or whose mask is not the result of a splat, and every
    other operation, is unchanged. *)
Theorem cleanup_folds_splat_mask block i op :
  (forall v scalar, getDefiningSplat block v = Some scalar ->
                    getDefiningSplat block scalar = None) ->
  block !! i = Some op ->
  exists op',
    cleanupBlock block !! i = Some op'
    /\ match op_kind op with
       | InsertSliceTMAOp src dst index mbar (Some m) =>
           match getDefiningSplat block m with
           | Some scalar =>
               op' = mkOp (InsertSliceTMAOp src dst index mbar (Some scalar))
                          (op_results op) (op_attrs op)
           | None => op' = op
           end
       | _ => op' = op
       end.
Proof.
  intros Hwf Hi. unfold cleanupBlock. rewrite list_lookup_fmap, Hi.
  eexists. split; [reflexivity|]. cbv beta.
  unfold isInsertSliceTMA.
  destruct (op_kind op)
    as [| | | | | src dst index mbar [m|] | | | | | | | | | | |] eqn:Hkind;
    try done.
  - destruct (getDefiningSplat block m) as [scalar|] eqn:Hsplat.
    + cbn [applyPatternUntilFailure]. unfold FoldSplatMaskInInsertAsync at 1.
      rewrite Hkind, Hsplat.
      apply applyPatternUntilFailure_no_mask. simpl. eauto.
    + apply applyPatternUntilFailure_no_mask. by rewrite Hkind.
  - apply applyPatternUntilFailure_no_mask. by rewrite Hkind.
Qed.

(** The example block: the mask of the slice-insert becomes the scalar
    predicate. *)
Lemma cleanup_folds_splat_mask_witness :
  exists op',
    cleanupBlock Examples.tmaBlock !! 1%nat = Some op'
    /\ op' = mkOp (InsertSliceTMAOp Examples.vSrc (Examples.vDst 1)
                     Examples.vIndex Examples.vMbar (Some Examples.vPred))
                  [Examples.vRes 1] ∅.
Proof.
  apply (cleanup_folds_splat_mask Examples.tmaBlock 1 Examples.insertTMA).
  - intros v scalar H.
    assert (Hs : scalar = Examples.vPred).
    { unfold getDefiningSplat, getDefiningOp, Examples.tmaBlock in H.
      cbn [find] in H.
      destruct (existsb _ (op_results Examples.splatMask)); [by injection H|].
      destruct (existsb _ (op_results Examples.insertTMA)); done. }
    subst scalar. reflexivity.
  - reflexivity.
Defined.

(** ** The shared-memory global *)

Lemma walkBlock_nil {St : Type}
    (visit : St -> Operation ->
             option (St * list Operation * list (Value * Value))) st :
  walkBlock visit st [] = Some (st, []).
Proof. reflexivity. Qed.

(** The walks change bodies only: a global at the head of the module
    stays there. *)
Lemma walkModule_head_global {St : Type}
    (visit : ModuleItem -> St -> Operation ->
             option (St * list Operation * list (Value * Value)))
    st m g rest st' m' :
  mod_items m = Global g :: rest ->
  walkModule visit st m = Some (st', m') ->
  head (mod_items m') = Some (Global g).
Proof.
  unfold walkModule. intros ->. cbn [walkItems item_body].
  rewrite walkBlock_nil.
  destruct (walkItems visit st rest) as [[st'' rest']|]; [|done].
  by intros [= <- <-].
Qed.

Section SharedMemoryGlobal.
Variable computeCapability : Z.
Variable target : Target.
Variable getNumWarps : ModuleOp -> Z.
Variable getThreadsPerWarp : ModuleOp -> Z.
Variable getPtrContiguity : ModuleOp -> Value -> Z.
Variable getMaskAlignment : ModuleOp -> Value -> Z.
Variable getEligibleLoadByteWidth : Z -> gset Z.
Variable asyncCommitGroupIsSupported : Z -> bool.
Variable asyncWaitIsSupported : Z -> bool.
Variable membar : ModuleOp -> ModuleOp.
Variable typeConverter : type -> option type.
Variable funcTypeConverter : type -> option type.
Variable isKernel : FuncOp -> bool.
Variable filterFuncAttributes : FuncOp -> bool -> AttrDict.
Variable getKernelFuncAttrName : string.
Variable getMaxWorkGroupSizeAttrName : string.
Variable getReqdSubGroupSizeAttrName : string.

(** C9, as the code has it.  On the NVVM and ROCDL targets the module
    that the stages before call and return lowering hand on starts with
    the global [global_smem]: external, not constant, an array of length
    0 of the converted [i8], aligned to 16 bytes, in address space 3; and
    call and return lowering keep it there.  On the GENX target
    [initSharedMemory] leaves every module as it is. *)
Theorem shared_memory_global m m1 :
  stagesBeforeCallAndRet computeCapability target getNumWarps
    getThreadsPerWarp getPtrContiguity getMaskAlignment
    getEligibleLoadByteWidth asyncCommitGroupIsSupported asyncWaitIsSupported
    membar typeConverter funcTypeConverter isKernel filterFuncAttributes
    getKernelFuncAttrName getMaxWorkGroupSizeAttrName
    getReqdSubGroupSizeAttrName m = Some m1 ->
  (target <> GENX ->
   exists elemTy rest,
     typeConverter i8 = Some elemTy
     /\ mod_items m1
        = Global (mkGlobal "global_smem" (LLVMArrayType elemTy 0) false true 16 3)
          :: rest
     /\ hasDynamicSharedGlobal m1 = true
     /\ forall promoteOperand m2,
          convertCallAndRet funcTypeConverter promoteOperand m1 = Some m2 ->
          head (mod_items m2)
          = Some (Global (mkGlobal "global_smem" (LLVMArrayType elemTy 0)
                                   false true 16 3)))
  /\ (target = GENX ->
      forall m0, initSharedMemory typeConverter target m0 = Some m0).
Proof.
  unfold stagesBeforeCallAndRet. intros H.
  apply bind_Some in H as (numWarps & _ & H).
  apply bind_Some in H as (ma & _ & H).
  apply bind_Some in H as (mb & _ & H).
  split.
  - intros Htarget. unfold initSharedMemory in H.
    destruct (typeConverter i8) as [elemTy|] eqn:Hconv;
      destruct target; try done; injection H as <-;
        exists elemTy, (mod_items mb);
        (split; [reflexivity|]); (split; [reflexivity|]);
        (split; [reflexivity|]);
        intros promoteOperand m2 Hm2; unfold convertCallAndRet in Hm2;
        apply fmap_Some in Hm2 as ([st' m2'] & Hwalk & ->);
        (eapply walkModule_head_global; [|exact Hwalk]); reflexivity.
  - intros -> m0. reflexivity.
Qed.
End SharedMemoryGlobal.

(** The example module lowered for NVVM starts with [global_smem]. *)
Lemma shared_memory_global_witness :
  exists m1,
    Examples.beforeCallAndRet NVVM 32 Examples.pipelinedModule = Some m1
    /\ head (mod_items m1)
       = Some (Global (mkGlobal "global_smem" (LLVMArrayType i8 0) false true 16 3))
    /\ hasDynamicSharedGlobal m1 = true.
Proof.
  destruct (Examples.beforeCallAndRet NVVM 32 Examples.pipelinedModule)
    as [m1|] eqn:Hrun; [|by vm_compute in Hrun].
  exists m1. split; [done|].
  destruct (proj1 (shared_memory_global _ _ _ _ _ _ _ _ _ _ _ _ _ _ _ _ _ _ _ Hrun))
    as (elemTy & rest & Hconv & Hitems & Hhas & _); [done|].
  injection Hconv as <-. by rewrite Hitems.
Defined.

(** C9, as the specification has it, fails on the GENX target: the
    example module lowered for GENX has no global at all when call and
    return lowering start. *)
Lemma shared_memory_global_not_on_genx :
  hasDynamicSharedGlobal
    <$> Examples.beforeCallAndRet GENX 32 Examples.pipelinedModule
  = Some false
  /\ initSharedMemory Examples.convertId GENX Examples.pipelinedModule
     = Some Examples.pipelinedModule.
Proof. by vm_compute. Qed.

(** ** The thread count of a lowered function *)

Lemma i32_small z : - 2 ^ 31 <= z < 2 ^ 31 -> i32 z = z.
Proof. intros H. unfold i32. rewrite Z.mod_small; lia. Qed.

Section ThreadCount.
Variable target : Target.
Variable convertType : type -> option type.
Variable isKernel : FuncOp -> bool.
Variable filterFuncAttributes : FuncOp -> bool -> AttrDict.
Variable getNumWarps : ModuleOp -> Z.
Variable getThreadsPerWarp : ModuleOp -> Z.
Variable getKernelFuncAttrName : string.
Variable getMaxWorkGroupSizeAttrName : string.
Variable getReqdSubGroupSizeAttrName : string.

(** C6, as the code has it.  [warps] is the module's warp count times its
    extra warp groups per CTA when that attribute is there.  The lowered
    entry function carries, on the GENX target, a maximal work group size
    of [threadsPerWarp x warps] (by 1 by 1) and, on the NVVM and ROCDL
    targets, [nvvm.maxntid = 32 x warps], whatever the module's threads
    per warp; the numbers are 32-bit [int]s and no product overflows. *)
Theorem max_threads_per_block m numWarps next funcOp newFuncOp :
  let warps := getNumWarps m * warpGroupsPerCTA m in
  let threads := match target with
                 | GENX => getThreadsPerWarp m
                 | _ => 32
                 end in
  effectiveNumWarps getNumWarps m = Some numWarps ->
  isKernel funcOp = true ->
  FuncOpConversion numWarps target convertType isKernel filterFuncAttributes
    getThreadsPerWarp getKernelFuncAttrName getMaxWorkGroupSizeAttrName
    getReqdSubGroupSizeAttrName m next funcOp = Success newFuncOp ->
  getKernelFuncAttrName <> getMaxWorkGroupSizeAttrName ->
  - 2 ^ 31 <= getNumWarps m < 2 ^ 31 ->
  - 2 ^ 31 <= getThreadsPerWarp m < 2 ^ 31 ->
  - 2 ^ 31 <= warps < 2 ^ 31 ->
  - 2 ^ 31 <= threads * warps < 2 ^ 31 ->
  numWarps = warps
  /\ maxThreadsPerBlock target getMaxWorkGroupSizeAttrName newFuncOp
     = Some (threads * warps)
  /\ (target = GENX ->
      llvm_attrs newFuncOp !! getMaxWorkGroupSizeAttrName
      = Some (I32ArrayAttr [getThreadsPerWarp m * warps; 1; 1])).
Proof.
  intros warps threads Hnw Hk Hconv Hnames Hr1 Hrt Hr2 Hr3.
  assert (Hwarps : numWarps = warps).
  { unfold effectiveNumWarps in Hnw. subst warps.
    unfold warpGroupsPerCTA in *.
    destruct (mod_attrs m !! _) as [[| w g | | | |]|]; try done;
      injection Hnw as <-; rewrite (i32_small (getNumWarps m)) by done.
    - by rewrite i32_small.
    - lia. }
  split; [done|].
  unfold FuncOpConversion in Hconv. rewrite Hk in Hconv. cbn [negb] in Hconv.
  destruct (convertFuncOpToLLVMFuncOp _ _ _) as [f0|]; [|done].
  injection Hconv as <-. unfold setTargetAttrs, maxThreadsPerBlock.
  rewrite Hk, Hwarps. subst threads.
  destruct target; cbn [llvm_setAttr llvm_setAttrs llvm_attrs].
  - rewrite lookup_insert_eq, i32_small by done. by split.
  - rewrite lookup_insert_eq, i32_small by done. by split.
  - rewrite (i32_small (getThreadsPerWarp m)) by done.
    assert (Hl : setDialectAttrs
                   ([(getKernelFuncAttrName, IntegerAttr 32 1)]
                    ++ [(getMaxWorkGroupSizeAttrName,
                         I32ArrayAttr [i32 (getThreadsPerWarp m * warps); 1; 1]);
                        (getReqdSubGroupSizeAttrName,
                         I32ArrayAttr [getThreadsPerWarp m])])
                   (llvm_attrs f0) !! getMaxWorkGroupSizeAttrName
                 = Some (I32ArrayAttr [getThreadsPerWarp m * warps; 1; 1])).
    { unfold setDialectAttrs. apply lookup_union_Some_l.
      cbn [app list_to_map foldr uncurry fst snd].
      rewrite lookup_insert_ne by done.
      by rewrite lookup_insert_eq, i32_small. }
    rewrite Hl. by split.
Qed.
End ThreadCount.

(** The example kernel on GENX with 16 threads per warp, 4 warps and 2
    warp groups: 128 threads. *)
Lemma max_threads_per_block_witness :
  exists newFuncOp,
    Examples.lowerKernel GENX 16 = Success newFuncOp
    /\ 8 = 4 * warpGroupsPerCTA Examples.warpSpecializedModule
    /\ maxThreadsPerBlock GENX Examples.genxMaxWorkGroupSize newFuncOp
       = Some (16 * (4 * warpGroupsPerCTA Examples.warpSpecializedModule))
    /\ (GENX = GENX ->
        llvm_attrs newFuncOp !! Examples.genxMaxWorkGroupSize
        = Some (I32ArrayAttr
                  [16 * (4 * warpGroupsPerCTA Examples.warpSpecializedModule);
                   1; 1])).
Proof.
  destruct (Examples.lowerKernel GENX 16) as [newFuncOp| |] eqn:Hrun;
    [|by vm_compute in Hrun..].
  exists newFuncOp. split; [done|].
  apply (max_threads_per_block GENX Examples.convertId Examples.isKernelByName
           Examples.keepAttrs (fun _ => 4) (fun _ => 16) Examples.genxKernel
           Examples.genxMaxWorkGroupSize Examples.genxReqdSubGroupSize
           Examples.warpSpecializedModule 8 6%nat Examples.pipelinedKernel
           newFuncOp);
    try reflexivity; try exact Hrun; by vm_compute.
Defined.

(** C6, as the specification has it, fails off the GENX target: on ROCDL
    with 64 threads per warp, 4 warps and 2 warp groups the attribute is
    [32 x 8 = 256], not [64 x 8 = 512]. *)
Lemma max_threads_per_block_not_spec :
  effectiveNumWarps (fun _ => 4) Examples.warpSpecializedModule = Some 8
  /\ match Examples.lowerKernel ROCDL 64 with
     | Success newFuncOp =>
         maxThreadsPerBlock ROCDL Examples.genxMaxWorkGroupSize newFuncOp
     | _ => None
     end = Some 256
  /\ 64 * (4 * warpGroupsPerCTA Examples.warpSpecializedModule) = 512.
Proof. by vm_compute. Qed.

(** ** The signature of a lowered function and its call sites *)

Lemma mapM_snoc {A B} (f : A -> option B) l x r :
  mapM f (l ++ [x]) = Some r ->
  exists k y, mapM f l = Some k /\ f x = Some y /\ r = k ++ [y].
Proof.
  rewrite mapM_Some. intros H.
  apply Forall2_app_inv_l in H as (k & ys & Hk & Hys & ->).
  apply Forall2_cons_inv_l in Hys as (y & ys' & Hy & Hnil & ->).
  apply Forall2_nil_inv_l in Hnil as ->.
  exists k, y. by rewrite mapM_Some.
Qed.

Lemma mapM_total {A B} (f : A -> option B) l :
  (forall x, is_Some (f x)) -> is_Some (mapM f l).
Proof. intros H. apply mapM_is_Some, Forall_forall. intros x _. apply H. Qed.

Lemma packFunctionResults_total convertType tys :
  (forall t, is_Some (convertType t)) ->
  is_Some (packFunctionResults convertType tys).
Proof.
  intros H. unfold packFunctionResults.
  destruct tys as [|t [|t' tys]]; [by eexists|apply H|].
  destruct (mapM_total convertType (t :: t' :: tys) H) as [k ->]. by eexists.
Qed.

Section Signature.
Variable numWarps : Z.
Variable target : Target.
Variable convertType : type -> option type.
Variable isKernel : FuncOp -> bool.
Variable filterFuncAttributes : FuncOp -> bool -> AttrDict.
Variable getThreadsPerWarp : ModuleOp -> Z.
Variable getKernelFuncAttrName : string.
Variable getMaxWorkGroupSizeAttrName : string.
Variable getReqdSubGroupSizeAttrName : string.
Variable promoteOperand : Value -> Value -> Value.

Lemma setTargetAttrs_params m funcOp f :
  llvm_params (setTargetAttrs numWarps target isKernel getThreadsPerWarp
                 getKernelFuncAttrName getMaxWorkGroupSizeAttrName
                 getReqdSubGroupSizeAttrName m funcOp f)
  = llvm_params f.
Proof. unfold setTargetAttrs. destruct target, (isKernel funcOp); reflexivity. Qed.

(** C1. With a type converter that leaves the LLVM pointer type alone:
    the parameters of a lowered function are the converted inputs of the
    original, in order, followed for a non-entry function by one pointer
    into shared memory (address space 3) and by nothing for an entry
    function; and the lowered call has the promoted operands of the
    original call, one for one, followed by one operand of that pointer
    type.  Both lowerings go through when every type converts. *)
Theorem signature_gains_shared_memory_pointer :
  convertType ptrTy = Some ptrTy ->
  (forall m next funcOp newFuncOp,
      FuncOpConversion numWarps target convertType isKernel
        filterFuncAttributes getThreadsPerWarp getKernelFuncAttrName
        getMaxWorkGroupSizeAttrName getReqdSubGroupSizeAttrName
        m next funcOp = Success newFuncOp ->
      exists params,
        mapM convertType (func_inputs funcOp) = Some params
        /\ length params = length (func_inputs funcOp)
        /\ llvm_params newFuncOp
           = if isKernel funcOp then params else params ++ [ptrTy])
  /\ (forall next caller callOp operands ops results,
         length operands = length (getOperands (op_kind callOp)) ->
         CallOpConversion convertType promoteOperand next caller callOp operands
         = Success (ops, results) ->
         exists baseOps newCallOp extractOps promoted base,
           ops = baseOps ++ [newCallOp] ++ extractOps
           /\ op_kind newCallOp = LLVMCallOp (promoted ++ [base])
           /\ length promoted = length (getOperands (op_kind callOp))
           /\ v_type base = ptrTy)
  /\ ((forall t, is_Some (convertType t)) ->
      (forall m next funcOp, exists newFuncOp,
          FuncOpConversion numWarps target convertType isKernel
            filterFuncAttributes getThreadsPerWarp getKernelFuncAttrName
            getMaxWorkGroupSizeAttrName getReqdSubGroupSizeAttrName
            m next funcOp = Success newFuncOp)
      /\ (forall next caller callOp opOperands operands,
             op_kind callOp = CallOp opOperands ->
             exists ops results,
               CallOpConversion convertType promoteOperand next caller callOp
                                operands = Success (ops, results))).
Proof.
  intros Hptr. split; [|split].
  - intros m next funcOp newFuncOp. unfold FuncOpConversion.
    destruct (convertFuncOpToLLVMFuncOp _ _ _) as [f0|] eqn:Hconv; [|done].
    intros [= <-].
    assert (Hparams :
              llvm_params
                (if negb (isKernel funcOp)
                 then llvm_setAttr
                        (setTargetAttrs numWarps target isKernel
                           getThreadsPerWarp getKernelFuncAttrName
                           getMaxWorkGroupSizeAttrName
                           getReqdSubGroupSizeAttrName m funcOp f0)
                        "passthrough" (StrArrayAttr ["noinline"])
                 else setTargetAttrs numWarps target isKernel
                        getThreadsPerWarp getKernelFuncAttrName
                        getMaxWorkGroupSizeAttrName
                        getReqdSubGroupSizeAttrName m funcOp f0)
              = llvm_params f0).
    { destruct (negb (isKernel funcOp)); cbn [llvm_setAttr llvm_setAttrs llvm_params];
        apply setTargetAttrs_params. }
    rewrite Hparams. clear Hparams.
    unfold convertFuncOpToLLVMFuncOp in Hconv.
    apply bind_Some in Hconv as (params & Hp & Hconv).
    apply bind_Some in Hconv as (result & _ & Hconv).
    apply bind_Some in Hconv as (args & _ & [= <-]).
    cbn [llvm_params].
    destruct (isKernel funcOp); cbn [negb] in Hp.
    + exists params. split; [done|]. split; [|done].
      symmetry. by eapply length_mapM.
    + cbn [amendFuncOp func_inputs] in Hp.
      apply mapM_snoc in Hp as (k & y & Hk & Hy & ->).
      rewrite Hptr in Hy. injection Hy as <-.
      exists k. split; [done|]. split; [|done].
      symmetry. by eapply length_mapM.
  - intros next caller callOp operands ops results Hlen. unfold CallOpConversion.
    destruct (op_kind callOp) eqn:Hkind; try done.
    destruct (promoteOperands _ _ _ _ _) as [baseOps promotedOperands] eqn:Hprom.
    destruct (convertCallOpToLLVMCallOp _ _ _ _) as [newCallOp|] eqn:Hcall;
      [|done].
    destruct (getCallOpResults _ _ _) as [[extractOps results']|]; [|done].
    intros [= <- <-].
    assert (Hk : op_kind newCallOp = LLVMCallOp promotedOperands).
    { unfold convertCallOpToLLVMCallOp in Hcall.
      case_bool_decide; [|by injection Hcall as <-].
      destruct (packFunctionResults _ _); [|done]. by injection Hcall as <-. }
    unfold promoteOperands, getStackPointer, getSharedMemoryBase in Hprom.
    rewrite Hkind in Hprom. cbn [getOperands] in Hprom.
    exists baseOps, newCallOp, extractOps,
      ((fun p => promoteOperand p.1 p.2) <$> zip operands0 operands),
      (mkValue next ptrTy).
    split; [done|]. rewrite Hk.
    split; [destruct (negb _); by injection Hprom as <- <-|].
    split; [|done].
    rewrite length_fmap, length_zip. simpl in *. lia.
  - intros Htotal. split.
    + intros m next funcOp. unfold FuncOpConversion, convertFuncOpToLLVMFuncOp.
      set (amended := if negb (isKernel funcOp)
                      then amendFuncOp filterFuncAttributes next funcOp
                      else funcOp).
      destruct (mapM_total convertType (func_inputs amended) Htotal)
        as [params ->].
      assert (Hres : is_Some
                       match func_results amended with
                       | [] => Some LLVMVoidType
                       | tys => packFunctionResults convertType tys
                       end).
      { destruct (func_results amended); [by eexists|].
        by apply packFunctionResults_total. }
      destruct Hres as [result ->].
      destruct (mapM_total
                  (fun v => mkValue (v_id v) <$> convertType (v_type v))
                  (func_args amended)) as [args ->].
      { intros v. destruct (Htotal (v_type v)) as [t ->]. by eexists. }
      by eexists.
    + intros next caller callOp opOperands operands Hkind.
      unfold CallOpConversion. rewrite Hkind.
      destruct (promoteOperands _ _ _ _ _) as [baseOps promoted].
      unfold convertCallOpToLLVMCallOp, getCallOpResults.
      destruct (packFunctionResults_total convertType
                  (v_type <$> op_results callOp) Htotal) as [packed ->].
      destruct (op_results callOp) as [|r1 [|r2 rs]]; cbn [length];
        repeat case_bool_decide; try lia; try done;
        cbn [op_results]; by eexists _, _.
Qed.
End Signature.

(** The example device function of two inputs is lowered to a function
    of three parameters, the last one the pointer; the example call of two
    operands to a call of three, the last one of pointer type. *)
Lemma signature_gains_shared_memory_pointer_witness :
  (exists newFuncOp params,
      Examples.lowerDevice NVVM = Success newFuncOp
      /\ length params = 2%nat
      /\ llvm_params newFuncOp = params ++ [ptrTy])
  /\ (exists ops results baseOps newCallOp extractOps promoted base,
        Examples.lowerCall = Success (ops, results)
        /\ ops = baseOps ++ [newCallOp] ++ extractOps
        /\ op_kind newCallOp = LLVMCallOp (promoted ++ [base])
        /\ length promoted = 2%nat
        /\ v_type base = ptrTy).
Proof.
  destruct (signature_gains_shared_memory_pointer 4 NVVM Examples.convertId
              Examples.isKernelByName Examples.keepAttrs (fun _ => 32)
              Examples.genxKernel Examples.genxMaxWorkGroupSize
              Examples.genxReqdSubGroupSize (fun _ v => v) eq_refl)
    as (Hfunc & Hcall & Htotal).
  destruct Htotal as [Hf Hc]; [intros t; by eexists|].
  split.
  - destruct (Hf Examples.pipelinedModule 30%nat Examples.deviceFunc)
      as [newFuncOp Hrun].
    destruct (Hfunc _ _ _ _ Hrun) as (params & _ & Hlen & Hparams).
    by exists newFuncOp, params.
  - destruct (Hc 30%nat (TTFunc Examples.pipelinedKernel) Examples.callHelper
                [Examples.vSrc; Examples.vSrc] [Examples.vSrc; Examples.vSrc]
                eq_refl) as (ops & results & Hrun).
    destruct (Hcall 30%nat (TTFunc Examples.pipelinedKernel) Examples.callHelper
                [Examples.vSrc; Examples.vSrc] ops results eq_refl Hrun)
      as (baseOps & newCallOp & extractOps & promoted & base & H1 & H2 & H3 & H4).
    by exists ops, results, baseOps, newCallOp, extractOps, promoted, base.
Defined.

(** ** Packing and unpacking of results *)

(** The insertions built from the undefined aggregate [mkValue n ty]:
    insertion [k] puts operand [k] at index [i + k] of the result of the
    insertion before it. *)
Lemma insertValues_spec ty operands : forall n i ops final,
  insertValues ty (S n) i (mkValue n ty) operands = (ops, final) ->
  final = mkValue (n + length operands) ty
  /\ length ops = length operands
  /\ forall k v, operands !! k = Some v ->
       ops !! k = Some (mkOp (LLVMInsertValueOp (mkValue (n + k) ty) v (i + k))
                             [mkValue (S (n + k)) ty] ∅).
Proof.
  induction operands as [|v0 rest IH]; intros n i ops final; cbn [insertValues].
  - intros [= <- <-]. simpl. rewrite Nat.add_0_r. repeat split. by intros [|k].
  - destruct (insertValues ty (S (S n)) (S i) (mkValue (S n) ty) rest)
      as [ops' final'] eqn:Hrest.
    intros [= <- <-]. destruct (IH _ _ _ _ Hrest) as (Hf & Hlen & Hk).
    split; [rewrite Hf; simpl; f_equal; lia|].
    split; [simpl; by rewrite Hlen|].
    intros [|k] v Hv; simpl in *.
    + injection Hv as <-. by rewrite !Nat.add_0_r.
    + rewrite (Hk _ _ Hv). by rewrite !Nat.add_succ_r.
Qed.

Lemma extractValues_spec packed count : forall next i,
  length (extractValues packed next i count) = count
  /\ forall k, (k < count)%nat ->
       extractValues packed next i count !! k
       = Some (mkOp (LLVMExtractValueOp packed (i + k))
                    [mkValue (next + k) (fieldType (v_type packed) (i + k))] ∅).
Proof.
  induction count as [|n IH]; intros next i; cbn [extractValues].
  - split; [done|]. lia.
  - destruct (IH (S next) (S i)) as [Hlen Hk].
    split; [simpl; by rewrite Hlen|].
    intros [|k] Hlt; simpl.
    + by rewrite !Nat.add_0_r.
    + rewrite Hk by lia. by rewrite !Nat.add_succ_r.
Qed.

Lemma extractValues_results packed count : forall next i,
  extractValues packed next i count ≫= op_results
  = (fun k => mkValue (next + k) (fieldType (v_type packed) (i + k)))
      <$> seq 0 count.
Proof.
  induction count as [|n IH]; intros next i; [done|].
  cbn [extractValues mbind list_bind op_results app seq fmap list_fmap].
  rewrite !Nat.add_0_r. f_equal.
  change (mbind op_results ?l) with (l ≫= op_results) in IH.
  etransitivity; [apply (IH (S next) (S i))|].
  rewrite <- fmap_S_seq, <- list_fmap_compose.
  apply list_fmap_ext. intros _ k _. simpl. by rewrite !Nat.add_succ_r.
Qed.

Section ResultPacking.
Variable convertType : type -> option type.

(** C2, as the code has it.  In a function that is not marked
    [nvvm.kernel]: a return of fewer than two values becomes a plain
    [llvm.return] of them; a return of [N >= 2] values becomes an
    undefined aggregate, [N] insertions of which the [k]-th puts value [k]
    at index [k] of the result of the one before, and an [llvm.return] of
    the last aggregate.  At a call: with fewer than two results the
    results of the new call are the results; with [M >= 2] results there
    are [M] extractions from the aggregate the new call returns, the
    [k]-th at index [k], and their results, in this order, are the
    results. *)
Theorem results_packed_and_unpacked funcOp op opOperands operands next :
  hasAttr (llvm_attrs funcOp) "nvvm.kernel" = false ->
  op_kind op = ReturnOp opOperands ->
  ((length operands < 2)%nat ->
   ReturnOpConversion convertType funcOp op operands next
   = Success [mkOp (LLVMReturnOp operands) [] (op_attrs op)])
  /\ ((2 <= length operands)%nat ->
      forall ty, packFunctionResults convertType [llvm_result funcOp] = Some ty ->
      exists inserts,
        ReturnOpConversion convertType funcOp op operands next
        = Success (mkOp LLVMUndefOp [mkValue next ty] ∅ :: inserts
                   ++ [mkOp (LLVMReturnOp [mkValue (next + length operands) ty])
                            [] (op_attrs op)])
        /\ length inserts = length operands
        /\ forall k v, operands !! k = Some v ->
             inserts !! k
             = Some (mkOp (LLVMInsertValueOp (mkValue (next + k) ty) v k)
                          [mkValue (S (next + k)) ty] ∅))
  /\ (forall next' callOp newCallOp,
        ((length (op_results callOp) < 2)%nat ->
         getCallOpResults next' callOp newCallOp
         = Some ([], op_results newCallOp))
        /\ ((2 <= length (op_results callOp))%nat ->
            forall packed rest, op_results newCallOp = packed :: rest ->
            exists extracts results,
              getCallOpResults next' callOp newCallOp = Some (extracts, results)
              /\ length extracts = length (op_results callOp)
              /\ length results = length (op_results callOp)
              /\ forall k, (k < length (op_results callOp))%nat ->
                   extracts !! k
                   = Some (mkOp (LLVMExtractValueOp packed k)
                                [mkValue (next' + k)
                                         (fieldType (v_type packed) k)] ∅)
                   /\ results !! k
                      = Some (mkValue (next' + k)
                                      (fieldType (v_type packed) k)))).
Proof.
  intros Hdev Hkind. unfold ReturnOpConversion. rewrite Hkind, Hdev.
  split; [|split].
  - intros Hlt. by rewrite bool_decide_eq_true_2.
  - intros Hge ty Hty. rewrite bool_decide_eq_false_2 by lia. rewrite Hty.
    destruct (insertValues ty (S next) 0 (mkValue next ty) operands)
      as [inserts final] eqn:Hins.
    destruct (insertValues_spec _ _ _ _ _ _ Hins) as (-> & Hlen & Hk).
    exists inserts. split; [done|]. split; [done|].
    intros k v Hv. by rewrite (Hk _ _ Hv).
  - intros next' callOp newCallOp. unfold getCallOpResults. split.
    + intros Hlt. by rewrite bool_decide_eq_true_2.
    + intros Hge packed rest Hres. rewrite bool_decide_eq_false_2 by lia.
      rewrite Hres.
      destruct (extractValues_spec packed (length (op_results callOp)) next' 0)
        as [Hlen Hk].
      eexists _, _. split; [reflexivity|]. split; [done|].
      rewrite extractValues_results. split; [by rewrite length_fmap, length_seq|].
      intros k Hlt. split; [by rewrite Hk|].
      rewrite list_lookup_fmap, lookup_seq_lt by done. reflexivity.
Qed.
End ResultPacking.

(** The example device function: its return of two values is packed, a
    return of one value is plain. *)
Lemma results_packed_and_unpacked_witness :
  ReturnOpConversion Examples.convertId (Examples.llvmHelper ∅)
                     Examples.returnOne [Examples.vCallRes0] 40
  = Success [mkOp (LLVMReturnOp [Examples.vCallRes0]) [] ∅]
  /\ exists inserts,
       ReturnOpConversion Examples.convertId (Examples.llvmHelper ∅)
         Examples.returnPair [Examples.vCallRes0; Examples.vCallRes1] 40
       = Success (mkOp LLVMUndefOp [mkValue 40 Examples.pairTy] ∅ :: inserts
                  ++ [mkOp (LLVMReturnOp [mkValue 42 Examples.pairTy]) [] ∅])
       /\ inserts !! 1%nat
          = Some (mkOp (LLVMInsertValueOp (mkValue 41 Examples.pairTy)
                                          Examples.vCallRes1 1)
                       [mkValue 42 Examples.pairTy] ∅).
Proof.
  assert (Hdev : hasAttr (llvm_attrs (Examples.llvmHelper ∅)) "nvvm.kernel"
                 = false) by (vm_compute; reflexivity).
  split.
  - apply (results_packed_and_unpacked Examples.convertId (Examples.llvmHelper ∅)
             Examples.returnOne [Examples.vCallRes0] [Examples.vCallRes0] 40
             Hdev eq_refl).
    simpl. lia.
  - destruct (proj1 (proj2 (results_packed_and_unpacked Examples.convertId
                              (Examples.llvmHelper ∅) Examples.returnPair
                              [Examples.vCallRes0; Examples.vCallRes1]
                              [Examples.vCallRes0; Examples.vCallRes1] 40
                              Hdev eq_refl))
                    (le_n 2) Examples.pairTy eq_refl)
      as (inserts & Hrun & _ & Hk).
    exists inserts. split; [exact Hrun|]. exact (Hk 1%nat _ eq_refl).
Defined.

(** C2, as the specification has it, fails for a function marked
    [nvvm.kernel]: its return of two values is not packed, the pattern
    reports a failure. *)
Lemma kernel_results_not_packed :
  ReturnOpConversion Examples.convertId
    (Examples.llvmHelper Examples.kernelAttrs) Examples.returnPair
    [Examples.vCallRes0; Examples.vCallRes1] 40
  = MatchFailure
      (Some "Kernel functions do not support return with operands"%string)
  /\ length [Examples.vCallRes0; Examples.vCallRes1] = 2%nat.
Proof. by vm_compute. Qed.

(** ** The return of an entry function *)

Section KernelReturn.
Variable convertType : type -> option type.

(** In a function marked [nvvm.kernel] a return with operands is
    rejected with the message of the pattern, and a return without
    operands becomes an [llvm.return] without operands that keeps the
    attributes. *)
Lemma nvvm_kernel_return funcOp op opOperands operands next :
  hasAttr (llvm_attrs funcOp) "nvvm.kernel" = true ->
  op_kind op = ReturnOp opOperands ->
  ReturnOpConversion convertType funcOp op operands next
  = match opOperands with
    | [] => Success [mkOp (LLVMReturnOp []) [] (op_attrs op)]
    | _ :: _ =>
        MatchFailure
          (Some "Kernel functions do not support return with operands"%string)
    end.
Proof.
  intros Hk Hkind. unfold ReturnOpConversion. rewrite Hkind, Hk.
  destruct opOperands; [done|]. rewrite bool_decide_eq_true_2; [done|simpl; lia].
Qed.
End KernelReturn.

Lemma containsDot_nvvm_kernel : containsDot "nvvm.kernel" = true.
Proof. by vm_compute. Qed.

(** On the GENX target no lowered function is marked [nvvm.kernel],
    entry function or not, as long as the GENX dialect gives its own
    attributes other names. *)
Lemma genx_function_not_marked numWarps convertType isKernel
    filterFuncAttributes getThreadsPerWarp getKernelFuncAttrName
    getMaxWorkGroupSizeAttrName getReqdSubGroupSizeAttrName
    m next funcOp newFuncOp :
  getKernelFuncAttrName <> "nvvm.kernel"%string ->
  getMaxWorkGroupSizeAttrName <> "nvvm.kernel"%string ->
  getReqdSubGroupSizeAttrName <> "nvvm.kernel"%string ->
  FuncOpConversion numWarps GENX convertType isKernel filterFuncAttributes
    getThreadsPerWarp getKernelFuncAttrName getMaxWorkGroupSizeAttrName
    getReqdSubGroupSizeAttrName m next funcOp = Success newFuncOp ->
  hasAttr (llvm_attrs newFuncOp) "nvvm.kernel" = false.
Proof.
  intros H1 H2 H3. unfold FuncOpConversion.
  destruct (convertFuncOpToLLVMFuncOp _ _ _) as [f0|]; [|done].
  intros [= <-]. unfold hasAttr, setTargetAttrs, setDialectAttrs.
  assert (Hnone :
    (list_to_map
       ((if isKernel funcOp
         then [(getKernelFuncAttrName, IntegerAttr 32 1)] else [])
        ++ [(getMaxWorkGroupSizeAttrName,
             I32ArrayAttr
               [i32 (i32 (getThreadsPerWarp m) * numWarps); 1; 1]);
            (getReqdSubGroupSizeAttrName,
             I32ArrayAttr [i32 (getThreadsPerWarp m)])])
     ∪ filter (fun kv : string * Attribute => containsDot kv.1 = false)
              (llvm_attrs f0) : AttrDict) !! "nvvm.kernel"%string = None).
  { apply lookup_union_None. split.
    - apply not_elem_of_list_to_map_1. rewrite fmap_app.
      destruct (isKernel funcOp); cbn [fmap list_fmap app fst];
        rewrite !not_elem_of_cons; repeat split; try done; apply not_elem_of_nil.
    - apply map_lookup_filter_None. right. intros x _. cbn [fst].
      by rewrite containsDot_nvvm_kernel. }
  destruct (isKernel funcOp); cbn [negb llvm_setAttr llvm_setAttrs llvm_attrs];
    [|rewrite lookup_insert_ne by done]; by rewrite Hnone.
Qed.

(** C3 at an entry function that returns a value.  Lowered for NVVM the
    return is rejected with the message of the pattern; lowered for GENX
    the function is not marked [nvvm.kernel], the pattern takes it for a
    device function and the return becomes an [llvm.return] of the
    value. *)
Lemma genx_kernel_return_with_operand :
  Examples.lowerKernelReturn NVVM
  = MatchFailure
      (Some "Kernel functions do not support return with operands"%string)
  /\ Examples.lowerKernelReturn GENX
     = Success [mkOp (LLVMReturnOp [Examples.vCallRes0]) [] ∅].
Proof. by vm_compute. Qed.

(** ** Walks that replace uses *)


Lemma option_list_fmap {A B} (f : A -> B) (o : option A) :
  option_list (f <$> o) = f <$> option_list o.
Proof. by destruct o. Qed.

Lemma ofrValues_fmap f (l : list OpFoldResult) :
  (mapOfr f <$> l) ≫= ofrValues = f <$> (l ≫= ofrValues).
Proof.
  induction l as [|[v|n] l IH]; [done| |];
    cbn [fmap list_fmap mbind list_bind ofrValues mapOfr app] in *; by f_equal.
Qed.

Lemma getOperands_mapOperands f k :
  getOperands (mapOperands f k) = f <$> getOperands k.
Proof.
  destruct k; cbn [getOperands mapOperands]; try done;
    rewrite ?fmap_app, ?option_list_fmap, ?ofrValues_fmap; done.
Qed.

Lemma mapOfr_compose f g (l : list OpFoldResult) :
  mapOfr f <$> (mapOfr g <$> l) = mapOfr (f ∘ g) <$> l.
Proof.
  rewrite <- list_fmap_compose. apply list_fmap_ext. by intros _ [v|n] _.
Qed.

Lemma mapOperands_compose f g k :
  mapOperands f (mapOperands g k) = mapOperands (f ∘ g) k.
Proof.
  destruct k; cbn [mapOperands]; try done;
    rewrite ?mapOfr_compose, <- ?list_fmap_compose, <- ?option_fmap_compose;
    done.
Qed.

Lemma mapOpOperands_compose f g op :
  mapOpOperands f (mapOpOperands g op) = mapOpOperands (f ∘ g) op.
Proof.
  unfold mapOpOperands. cbn [op_kind op_results op_attrs].
  by rewrite mapOperands_compose.
Qed.

Lemma mapOperands_ClusterCTAId f k :
  mapOperands f k = ClusterCTAIdOp <-> k = ClusterCTAIdOp.
Proof. by destruct k. Qed.

(** ** Folding the cluster CTA id *)

Lemma mapOfr_id (l : list OpFoldResult) : mapOfr id <$> l = l.
Proof.
  induction l as [|[v|n] l IH]; [done| |]; cbn [fmap list_fmap mapOfr] in *;
    by f_equal.
Qed.

Lemma mapOperands_id k : mapOperands id k = k.
Proof.
  destruct k; cbn [mapOperands]; try done;
    rewrite ?mapOfr_id, ?list_fmap_id, ?option_fmap_id; done.
Qed.

Lemma mapOpOperands_id op : mapOpOperands id op = op.
Proof. destruct op. unfold mapOpOperands. simpl. by rewrite mapOperands_id. Qed.

Lemma mapOpOperands_constant f n z :
  mapOpOperands f (createConstantI32 n z) = createConstantI32 n z.
Proof. reflexivity. Qed.

Lemma Folded_app sigma a b a' b' :
  Folded sigma a b -> Folded sigma a' b' -> Folded sigma (a ++ a') (b ++ b').
Proof. induction 1; intros H'; simpl; [done| |]; constructor; auto. Qed.

Lemma Folded_map rho sigma a b :
  Folded sigma a b -> Folded (rho ∘ sigma) a (mapOpOperands rho <$> b).
Proof.
  induction 1; cbn [fmap list_fmap]; [constructor| |].
  - rewrite mapOpOperands_constant, mapOpOperands_compose. by constructor.
  - rewrite mapOpOperands_compose. by constructor.
Qed.

Lemma Folded_elem sigma a b x :
  Folded sigma a b -> x ∈ b ->
  (exists n, x = createConstantI32 n 0)
  \/ (exists op, op ∈ a /\ x = mapOpOperands sigma op).
Proof.
  induction 1 as [|id n block block' Hk HF IH|op block block' Hk HF IH];
    intros Hx.
  - by apply elem_of_nil in Hx.
  - apply elem_of_cons in Hx as [->|Hx]; [left; eauto|].
    apply elem_of_cons in Hx as [->|Hx].
    + right. exists id. split; [apply list_elem_of_here|done].
    + destruct (IH Hx) as [?|(op & Hop & ->)]; [by left|].
      right. exists op. split; [by apply list_elem_of_further|done].
  - apply elem_of_cons in Hx as [->|Hx].
    + right. exists op. split; [apply list_elem_of_here|done].
    + destruct (IH Hx) as [?|(op' & Hop & ->)]; [by left|].
      right. exists op'. split; [by apply list_elem_of_further|done].
Qed.

Lemma isClusterCTAId_app_l a b v :
  isClusterCTAId a v -> isClusterCTAId (a ++ b) v.
Proof.
  intros (id & r & Hin & H). exists id, r. split; [|done].
  apply elem_of_app. by left.
Qed.

Lemma isClusterCTAId_snoc a op v :
  isClusterCTAId (a ++ [op]) v ->
  isClusterCTAId a v
  \/ (op_kind op = ClusterCTAIdOp
      /\ exists r, head (op_results op) = Some r /\ v_id r = v_id v).
Proof.
  intros (id & r & Hin & Hk & Hr & Hv).
  apply elem_of_app in Hin as [Hin|Hin].
  - left. by exists id, r.
  - apply list_elem_of_singleton in Hin as ->. right. eauto.
Qed.

Lemma ClusterCTAIdOp_dec k : {k = ClusterCTAIdOp} + {k <> ClusterCTAIdOp}.
Proof. destruct k; (by left) || (by right). Qed.

Lemma foldCTAIdVisit_other next op :
  op_kind op <> ClusterCTAIdOp -> foldCTAIdVisit next op = Some (next, [op], []).
Proof. unfold foldCTAIdVisit. by destruct (op_kind op). Qed.

Lemma foldCTAIdVisit_id next op :
  op_kind op = ClusterCTAIdOp ->
  foldCTAIdVisit next op
  = match head (op_results op) with
    | Some old =>
        Some (S next, [createConstantI32 next 0; op], [(old, mkValue next i32Ty)])
    | None => None
    end.
Proof. unfold foldCTAIdVisit. intros ->. by destruct (head (op_results op)). Qed.

Section FoldBlock.
Variable orig : list Operation.
Variable next0 : nat.
Hypothesis Horig :
  forall op v, op ∈ orig -> v ∈ op_values op -> (v_id v < next0)%nat.

Lemma FoldInv_init next :
  (next0 <= next)%nat -> FoldInv orig next0 next [] orig.
Proof.
  intros Hle. exists id, [], orig. split; [done|]. split; [constructor|].
  split.
  { rewrite <- (list_fmap_id orig) at 1. apply list_fmap_ext.
    intros _ op _. by rewrite mapOpOperands_id. }
  split; [done|]. intros v _. left. split; [done|].
  intros (x & r & Hin & _). by apply elem_of_nil in Hin.
Qed.

Lemma FoldInv_step next done op rest next' new_ops reps :
  FoldInv orig next0 next done (op :: rest) ->
  foldCTAIdVisit next op = Some (next', new_ops, reps) ->
  FoldInv orig next0 next' (replaceAllUsesWith reps (done ++ new_ops))
          (replaceAllUsesWith reps rest).
Proof.
  intros (sigma & orig_done & orig_todo & Heq & HF & Htodo & Hle & Hsigma).
  destruct orig_todo as [|op0 orig_rest]; [done|].
  cbn [fmap list_fmap] in Htodo. injection Htodo as -> ->.
  assert (Hin0 : op0 ∈ orig).
  { rewrite Heq. apply elem_of_app. right. apply list_elem_of_here. }
  destruct (ClusterCTAIdOp_dec (op_kind op0)) as [Hk|Hk].
  - rewrite foldCTAIdVisit_id
      by (by apply (mapOperands_ClusterCTAId sigma (op_kind op0))).
    cbn [mapOpOperands op_results].
    destruct (head (op_results op0)) as [r0|] eqn:Hr0; [|done].
    intros [= <- <- <-]. cbn [replaceAllUsesWith foldl fst snd].
    set (z := mkValue next i32Ty). set (rho := rauw r0 z).
    assert (Hr0lt : (v_id r0 < next0)%nat).
    { apply (Horig op0); [done|]. unfold op_values. apply elem_of_app. left.
      destruct (op_results op0); [done|]. injection Hr0 as ->.
      apply list_elem_of_here. }
    exists (rho ∘ sigma), (orig_done ++ [op0]), orig_rest.
    split; [by rewrite <- app_assoc|].
    split.
    { rewrite fmap_app. apply Folded_app; [by apply Folded_map|].
      cbn [fmap list_fmap].
      rewrite mapOpOperands_constant, mapOpOperands_compose.
      apply Folded_id; [done|constructor]. }
    split.
    { rewrite <- list_fmap_compose. apply list_fmap_ext.
      intros _ x _. simpl. by rewrite mapOpOperands_compose. }
    split; [lia|].
    intros v Hv. destruct (Hsigma v Hv) as [[Hfix Hnot]|(Hcl & n & Hn & Hs & Hc)].
    + destruct (decide (v_id v = v_id r0)) as [Hsame|Hdiff].
      * right. split.
        { exists op0, r0. split; [apply elem_of_app; right; apply list_elem_of_here|].
          by repeat split. }
        exists next. split; [lia|]. split.
        { simpl. rewrite Hfix. unfold rho, rauw, same_value.
          by rewrite (proj2 (Nat.eqb_eq _ _) Hsame). }
        rewrite fmap_app. apply elem_of_app. right. apply list_elem_of_here.
      * left. split.
        { simpl. rewrite Hfix. unfold rho, rauw, same_value.
          by rewrite (proj2 (Nat.eqb_neq _ _) Hdiff). }
        intros Hc. apply isClusterCTAId_snoc in Hc as [Hc|(_ & r & Hr & Hrv)];
          [done|]. rewrite Hr0 in Hr. injection Hr as <-. lia.
    + right. split; [by apply isClusterCTAId_app_l|].
      exists n. split; [lia|]. split.
      { simpl. rewrite Hs. unfold rho, rauw, same_value. simpl.
        rewrite (proj2 (Nat.eqb_neq n (v_id r0))) by lia. done. }
      rewrite fmap_app. apply elem_of_app. left.
      apply list_elem_of_fmap. exists (createConstantI32 n 0). by split.
  - rewrite foldCTAIdVisit_other
      by (intros Hk'; by apply (mapOperands_ClusterCTAId sigma (op_kind op0)) in Hk').
    intros [= <- <- <-]. rewrite !replaceAllUsesWith_nil.
    exists sigma, (orig_done ++ [op0]), orig_rest.
    split; [by rewrite <- app_assoc|].
    split; [apply Folded_app; [done|]; apply Folded_other; [done|constructor]|].
    split; [done|]. split; [done|].
    intros v Hv. destruct (Hsigma v Hv) as [[Hfix Hnot]|(Hcl & n & Hn & Hs & Hc)].
    + left. split; [done|]. intros Hc.
      apply isClusterCTAId_snoc in Hc as [Hc|(Hk' & _)]; done.
    + right. split; [by apply isClusterCTAId_app_l|].
      exists n. repeat split; try done; try lia.
      apply elem_of_app. by left.
Qed.

Lemma FoldInv_walkBlock next next' out :
  (next0 <= next)%nat ->
  walkBlock foldCTAIdVisit next orig = Some (next', out) ->
  FoldInv orig next0 next' out [].
Proof.
  intros Hle Hwalk. unfold walkBlock in Hwalk.
  eapply (walk_invariant foldCTAIdVisit (FoldInv orig next0));
    [| |by apply FoldInv_init|exact Hwalk]; [|done].
  intros. by eapply FoldInv_step.
Qed.
End FoldBlock.

Section FoldBlockResult.
Variable orig : list Operation.
Variable next0 : nat.
Hypothesis Horig :
  forall op v, op ∈ orig -> v ∈ op_values op -> (v_id v < next0)%nat.

(** What the invariant says when the walk of a block is over. *)
Lemma FoldInv_final next out :
  FoldInv orig next0 next out [] ->
  exists sigma,
    Folded sigma orig out
    /\ (forall v, (v_id v < next0)%nat ->
          (sigma v = v /\ ~ isClusterCTAId orig v)
          \/ (isClusterCTAId orig v /\ isZeroIn out (sigma v)))
    /\ (forall v, isClusterCTAId out v -> ~ isUsedIn out v).
Proof.
  intros (sigma & orig_done & orig_todo & Heq & HF & Htodo & Hle & Hsigma).
  symmetry in Htodo. apply fmap_nil_inv in Htodo as ->.
  rewrite app_nil_r in Heq. subst orig_done.
  exists sigma. split; [done|]. split.
  - intros v Hv. destruct (Hsigma v Hv) as [?|(Hcl & n & Hn & Hs & Hc)];
      [by left|right].
    split; [done|]. exists (createConstantI32 n 0). by rewrite Hs.
  - intros v (id' & r & Hid & Hk & Hr & Hrv) (user' & u & Huser & Hu & Huv).
    destruct (Folded_elem _ _ _ _ HF Hid) as [[n ->]|(id0 & Hid0 & ->)]; [done|].
    cbn [mapOpOperands op_kind op_results] in Hk, Hr.
    apply mapOperands_ClusterCTAId in Hk.
    assert (Hrlt : (v_id r < next0)%nat).
    { apply (Horig id0); [done|]. unfold op_values. apply elem_of_app. left.
      destruct (op_results id0); [done|]. injection Hr as ->.
      apply list_elem_of_here. }
    destruct (Folded_elem _ _ _ _ HF Huser) as [[n ->]|(user0 & Huser0 & ->)].
    { by apply elem_of_nil in Hu. }
    cbn [mapOpOperands op_kind] in Hu. rewrite getOperands_mapOperands in Hu.
    apply list_elem_of_fmap in Hu as (u0 & -> & Hu0).
    assert (Hu0lt : (v_id u0 < next0)%nat).
    { apply (Horig user0); [done|]. unfold op_values. apply elem_of_app. by right. }
    destruct (Hsigma u0 Hu0lt) as [[Hfix Hnot]|(_ & n & Hn & Hs & _)].
    + apply Hnot. exists id0, r. repeat split; try done.
      rewrite Hfix in Huv. congruence.
    + rewrite Hs in Huv. simpl in Huv. lia.
Qed.
End FoldBlockResult.

(** ** Walking the functions of a module *)

Lemma walkItems_Forall2 {St : Type}
    (visit : ModuleItem -> St -> Operation ->
             option (St * list Operation * list (Value * Value)))
    (P : St -> Prop) (R : ModuleItem -> Prop)
    (Q : ModuleItem -> list Operation -> Prop) :
  (forall it st st' body',
      R it -> P st ->
      walkBlock (visit it) st (item_body it) = Some (st', body') ->
      P st' /\ Q it body') ->
  forall items st st' items',
    Forall R items -> P st ->
    walkItems visit st items = Some (st', items') ->
    P st'
    /\ Forall2 (fun it it' => exists body',
                    it' = item_set_body it body' /\ Q it body')
               items items'.
Proof.
  intros Hstep. induction items as [|it rest IH]; intros st st' items' HR HP.
  - intros [= <- <-]. by split.
  - apply Forall_cons in HR as [HRit HRrest]. cbn [walkItems].
    destruct (walkBlock (visit it) st (item_body it)) as [[st1 body']|] eqn:Hb;
      [|done].
    destruct (walkItems visit st1 rest) as [[st2 rest']|] eqn:Hrest; [|done].
    intros [= <- <-].
    destruct (Hstep _ _ _ _ HRit HP Hb) as [HP1 HQ].
    destruct (IH _ _ _ HRrest HP1 Hrest) as [HP2 HF].
    split; [done|]. constructor; [|done]. by exists body'.
Qed.

Lemma maxId_ge vs v : v ∈ vs -> (v_id v <= maxId vs)%nat.
Proof.
  induction vs as [|x vs IH]; intros Hin; [by apply elem_of_nil in Hin|].
  apply elem_of_cons in Hin as [->|Hin]; simpl; [lia|].
  specialize (IH Hin). lia.
Qed.

(** Every value of a module has an identity below [nextId]. *)
Lemma nextId_fresh m it op v :
  it ∈ mod_items m -> op ∈ item_body it -> v ∈ op_values op ->
  (v_id v < nextId m)%nat.
Proof.
  intros Hit Hop Hv. unfold nextId. apply Nat.lt_succ_r, maxId_ge.
  apply list_elem_of_bind. exists it. split; [|done].
  destruct it as [f|f|g]; cbn [item_body item_values] in *;
    [| |by apply elem_of_nil in Hop];
    apply elem_of_app; right; apply list_elem_of_bind; eauto.
Qed.

(** C8. A cluster CTA id has one result.  When the module has one CTA
    the fold succeeds and, function by function, leaves a body in which:
    in front of every cluster CTA id stands an [llvm.mlir.constant] 0 of
    type i32 and every operation is in its place with the replacement
    [sigma] applied to its operands; [sigma] sends every value that is the
    result of a cluster CTA id of the body to the result of such a
    constant 0 and fixes every other value of the module; and no operation
    uses the result of a cluster CTA id.  With another number of CTAs the
    module is left as it is. *)
Theorem foldCTAId_replaces_uses numCTAs m :
  (forall op, op ∈ module_ops m -> op_kind op = ClusterCTAIdOp ->
              op_results op <> []) ->
  exists m',
    foldCTAId numCTAs m = Some m'
    /\ (numCTAs = 1 ->
        mod_attrs m' = mod_attrs m
        /\ Forall2
             (fun it it' => exists body' sigma,
                 it' = item_set_body it body'
                 /\ Folded sigma (item_body it) body'
                 /\ (forall v, (v_id v < nextId m)%nat ->
                       (sigma v = v /\ ~ isClusterCTAId (item_body it) v)
                       \/ (isClusterCTAId (item_body it) v
                           /\ isZeroIn body' (sigma v)))
                 /\ (forall v, isClusterCTAId body' v -> ~ isUsedIn body' v))
             (mod_items m) (mod_items m'))
    /\ (numCTAs <> 1 -> m' = m).
Proof.
  intros Hwf. unfold foldCTAId. case_bool_decide as Hn.
  - assert (Hsome : is_Some (walkItems (fun _ => foldCTAIdVisit) (nextId m)
                                       (mod_items m))).
    { apply (walkItems_is_Some _ (fun op => op_kind op = ClusterCTAIdOp ->
                                            op_results op <> [])).
      - intros _ st op Hop. destruct (ClusterCTAIdOp_dec (op_kind op)) as [Hk|Hk].
        + rewrite foldCTAIdVisit_id by done.
          destruct (op_results op); [by destruct (Hop Hk)|done].
        + by rewrite foldCTAIdVisit_other.
      - intros _ _ _ _ _ reps l _ _. apply replaceAllUsesWith_Forall.
        intros f op Hop Hk. apply Hop.
        by apply (mapOperands_ClusterCTAId f (op_kind op)).
      - apply Forall_forall. intros it Hit. apply Forall_forall. intros op Hop.
        apply Hwf. apply list_elem_of_bind. eauto. }
    destruct Hsome as [[st' items'] Hwalk]. unfold walkModule. rewrite Hwalk.
    eexists. split; [reflexivity|]. split; [|done]. intros _.
    split; [done|]. cbn [snd mod_items].
    destruct (walkItems_Forall2 (fun _ => foldCTAIdVisit)
                (fun st => (nextId m <= st)%nat)
                (fun it => it ∈ mod_items m)
                (fun it body' => exists sigma,
                     Folded sigma (item_body it) body'
                     /\ (forall v, (v_id v < nextId m)%nat ->
                           (sigma v = v /\ ~ isClusterCTAId (item_body it) v)
                           \/ (isClusterCTAId (item_body it) v
                               /\ isZeroIn body' (sigma v)))
                     /\ (forall v, isClusterCTAId body' v ->
                                   ~ isUsedIn body' v)))
      with (items := mod_items m) (st := nextId m) (st' := st') (items' := items')
      as [_ HF]; try done.
    + intros it st st1 body' Hit Hst Hb.
      assert (Hfresh : forall op v, op ∈ item_body it -> v ∈ op_values op ->
                                    (v_id v < nextId m)%nat).
      { intros op v. by apply nextId_fresh. }
      assert (Hinv : FoldInv (item_body it) (nextId m) st1 body' []).
      { by eapply FoldInv_walkBlock. }
      split; [by destruct Hinv as (_ & _ & _ & _ & _ & _ & Hle & _)|].
      by eapply FoldInv_final.
    + by apply Forall_forall.
    + eapply Forall2_impl; [exact HF|]. cbv beta.
      intros it it' (body' & -> & sigma & H1 & H2 & H3).
      by exists body', sigma.
  - eexists. split; [done|]. split; [done|]. intros _. done.
Qed.

(** The example kernel: the sum of the cluster CTA id with itself becomes
    the sum of the constant 0 with itself. *)
Lemma foldCTAId_replaces_uses_witness :
  exists m',
    foldCTAId 1 Examples.ctaModule = Some m'
    /\ module_ops m'
       = [createConstantI32 52 0;
          mkOp ClusterCTAIdOp [Examples.vCta] ∅;
          mkOp (OtherOp "llvm.add" [mkValue 52 i32Ty; mkValue 52 i32Ty])
               [Examples.vSum] ∅;
          mkOp (LLVMReturnOp []) [] ∅]
    /\ Forall2
         (fun it it' => exists body' sigma,
              it' = item_set_body it body'
              /\ Folded sigma (item_body it) body'
              /\ (forall v, (v_id v < nextId Examples.ctaModule)%nat ->
                    (sigma v = v /\ ~ isClusterCTAId (item_body it) v)
                    \/ (isClusterCTAId (item_body it) v
                        /\ isZeroIn body' (sigma v)))
              /\ (forall v, isClusterCTAId body' v -> ~ isUsedIn body' v))
         (mod_items Examples.ctaModule) (mod_items m').
Proof.
  destruct (foldCTAId_replaces_uses 1 Examples.ctaModule)
    as (m' & Hrun & Hfold & _).
  { intros op Hin Hk. unfold module_ops in Hin.
    cbn [Examples.ctaModule mod_items mbind list_bind item_body
         Examples.ctaKernel llvm_body app] in Hin.
    repeat (apply elem_of_cons in Hin as [->|Hin]; [done|]).
    by apply elem_of_nil in Hin. }
  exists m'. split; [exact Hrun|]. split.
  - vm_compute in Hrun. injection Hrun as <-. reflexivity.
  - by apply Hfold.
Defined.

(** * Further properties of the pass

    What follows covers code that the claims above leave out: what each
    pattern does in every case, what the walks of the decomposition keep
    and what they remove, and how the stages fit together. *)

(** ** Forwarding of the warp-specialization attributes (lines 44-49) *)

(** Operations are equal when their kind, results and attributes are. *)
Lemma Operation_eq (a b : Operation) :
  op_kind a = op_kind b -> op_results a = op_results b ->
  op_attrs a = op_attrs b -> a = b.
Proof. destruct a, b; simpl; congruence. Qed.

(** The attribute dictionary after [addWSNamedAttrs], as a union. *)
Lemma addWSNamedAttrs_attrs op from :
  op_attrs (addWSNamedAttrs op (getAttrs from))
  = filter (fun kv => isWSName kv.1 = true) (op_attrs from) ∪ op_attrs op.
Proof.
  apply map_eq; intros k.
  rewrite addWSNamedAttrs_lookup, lookup_union, map_lookup_filter.
  destruct (op_attrs from !! k) as [v|] eqn:Hk; simpl.
  - destruct (isWSName k) eqn:Hws.
    + rewrite option_guard_True by done. simpl.
      by destruct (op_attrs op !! k).
    + rewrite option_guard_False by (simpl; congruence). simpl.
      by destruct (op_attrs op !! k).
  - destruct (isWSName k); by destruct (op_attrs op !! k).
Qed.

(** X1.  [addWSNamedAttrs] copies the attributes named [async_agent] and
    [agent.mutex_role] and no other: the dictionary of the operation
    afterwards is the one it had, overridden by those entries of the
    source whose name is one of the two.  The kind and the results of the
    operation stay, and a second application changes nothing. *)
Theorem addWSNamedAttrs_only_ws op from :
  op_attrs (addWSNamedAttrs op (getAttrs from))
  = filter (fun kv => isWSName kv.1 = true) (op_attrs from) ∪ op_attrs op
  /\ op_kind (addWSNamedAttrs op (getAttrs from)) = op_kind op
  /\ op_results (addWSNamedAttrs op (getAttrs from)) = op_results op
  /\ addWSNamedAttrs (addWSNamedAttrs op (getAttrs from)) (getAttrs from)
     = addWSNamedAttrs op (getAttrs from).
Proof.
  split; [apply addWSNamedAttrs_attrs|].
  split; [apply addWSNamedAttrs_kind|].
  split; [apply addWSNamedAttrs_results|].
  apply Operation_eq.
  - by rewrite !addWSNamedAttrs_kind.
  - by rewrite !addWSNamedAttrs_results.
  - rewrite !addWSNamedAttrs_attrs.
    rewrite (assoc_L (∪)). by rewrite (idemp_L (∪) (filter _ _)).
Qed.

(** ** The conversion targets (lines 51-67 and 323-343) *)

(** The action of each dialect, target by target. *)
Lemma function_target_action target d :
  getDialectAction (TritonLLVMFunctionConversionTarget target) d
  = match d, target with
    | IndexDialect, _ | LLVMDialect, _ => Some Legal
    | NVVMDialect, NVVM => Some Legal
    | GENXDialect, GENX => Some Legal
    | _, _ => None
    end.
Proof. by destruct target, d. Qed.

Lemma conversion_target_action target d :
  getDialectAction (TritonLLVMConversionTarget target) d
  = match d, target with
    | LLVMDialect, _ => Some Legal
    | NVVMDialect, NVVM | NVGPUDialect, NVVM => Some Legal
    | GENXDialect, GENX => Some Legal
    | TritonDialect, _ | TritonGPUDialect, _ | TritonNvidiaGPUDialect, _
    | GPUDialect, _ => Some Illegal
    | _, _ => None
    end.
Proof. by destruct target, d. Qed.

(** X2.  The two conversion targets, for every target of the pass and
    every dialect.  The target of the function stages marks no dialect
    illegal.  The target of the main conversion marks exactly the
    Triton, TritonGPU, TritonNvidiaGPU and GPU dialects illegal.  Legal
    are the LLVM dialect, the index dialect for the function stages
    only, NVVM (and NVGPU for the main conversion) on the NVVM target
    only, GENX on the GENX target only; on ROCDL no native dialect is
    legal.  The unrealized conversion cast is legal in both. *)
Theorem conversion_targets_legality target d :
  getDialectAction (TritonLLVMFunctionConversionTarget target) d
  <> Some Illegal
  /\ (getDialectAction (TritonLLVMConversionTarget target) d = Some Illegal
      <-> d ∈ [TritonDialect; TritonGPUDialect; TritonNvidiaGPUDialect;
               GPUDialect])
  /\ (getDialectAction (TritonLLVMConversionTarget target) d = Some Legal
      <-> d = LLVMDialect
          \/ (target = NVVM /\ (d = NVVMDialect \/ d = NVGPUDialect))
          \/ (target = GENX /\ d = GENXDialect))
  /\ (getDialectAction (TritonLLVMFunctionConversionTarget target) d
      = Some Legal
      <-> d = IndexDialect \/ d = LLVMDialect
          \/ (target = NVVM /\ d = NVVMDialect)
          \/ (target = GENX /\ d = GENXDialect))
  /\ getOpAction (TritonLLVMConversionTarget target) d
                 UnrealizedConversionCastOp = Some Legal
  /\ getOpAction (TritonLLVMFunctionConversionTarget target) d
                 UnrealizedConversionCastOp = Some Legal.
Proof.
  rewrite function_target_action, conversion_target_action.
  rewrite !elem_of_cons, elem_of_nil.
  split; [by destruct d, target|].
  split; [destruct d, target; intuition congruence|].
  split; [destruct d, target; intuition congruence|].
  split; [destruct d, target; intuition congruence|].
  by destruct target.
Qed.

(** ** The cleanup of TMA slice-inserts (lines 69-91 and 408-418) *)

(** Applying the pattern until it fails keeps results and attributes,
    leaves every operation that is no TMA slice-insert alone, and on a
    TMA slice-insert changes the mask only. *)
Lemma applyPatternUntilFailure_frame fuel block : forall op,
  op_results (applyPatternUntilFailure fuel block op) = op_results op
  /\ op_attrs (applyPatternUntilFailure fuel block op) = op_attrs op
  /\ (isInsertSliceTMA op = false ->
      applyPatternUntilFailure fuel block op = op)
  /\ forall src dst index mbar mask,
       op_kind op = InsertSliceTMAOp src dst index mbar mask ->
       exists mask',
         op_kind (applyPatternUntilFailure fuel block op)
         = InsertSliceTMAOp src dst index mbar mask'
         /\ (mask = None -> mask' = None).
Proof.
  induction fuel as [|n IH]; intros op; simpl.
  { repeat split; try done. intros. by eexists. }
  unfold FoldSplatMaskInInsertAsync, isInsertSliceTMA.
  destruct (op_kind op) eqn:Hk; try (repeat split; done).
  match type of Hk with
  | _ = InsertSliceTMAOp _ _ _ _ ?o => destruct o as [m|]
  end.
  2:{ repeat split; try done. intros ? ? ? ? ? [= <- <- <- <- <-].
      by eexists. }
  destruct (getDefiningSplat block m) as [scalar|].
  2:{ repeat split; try done. intros ? ? ? ? ? [= <- <- <- <- <-].
      by eexists. }
  destruct (IH (mkOp (InsertSliceTMAOp src dst index mbar (Some scalar))
                     (op_results op) (op_attrs op)))
    as (Hr & Ha & _ & Hkind).
  split; [done|]. split; [done|]. split; [done|].
  intros ? ? ? ? ? [= <- <- <- <- <-].
  destruct (Hkind src dst index mbar (Some scalar) eq_refl) as (mask' & Hm & _).
  exists mask'. by split.
Qed.

Lemma cleanupBlock_lookup block i op :
  block !! i = Some op ->
  cleanupBlock block !! i
  = Some (if isInsertSliceTMA op
          then applyPatternUntilFailure (S (length block)) block op
          else op).
Proof. intros H. unfold cleanupBlock. by rewrite list_lookup_fmap, H. Qed.

(** An edit of the operations of a block that keeps their results and
    neither makes nor changes a splat keeps the defining splats. *)
Lemma getDefiningSplat_fmap (g : Operation -> Operation) block v :
  (forall op, op_results (g op) = op_results op) ->
  (forall op, match op_kind op with SplatOp _ => g op = op | _ => True end) ->
  (forall op, match op_kind (g op) with
              | SplatOp _ => g op = op
              | _ => True
              end) ->
  getDefiningSplat (g <$> block) v = getDefiningSplat block v.
Proof.
  intros Hres Hsplat Hback. unfold getDefiningSplat, getDefiningOp.
  induction block as [|op block IH]; [done|].
  rewrite fmap_cons. simpl. rewrite Hres.
  destruct (existsb (same_value v) (op_results op)); [|exact IH].
  specialize (Hsplat op). specialize (Hback op).
  destruct (op_kind (g op)) eqn:Hg; destruct (op_kind op) eqn:Ho;
    try done; try (rewrite Hback in Hg; congruence);
    try (rewrite Hsplat in Hg; congruence).
Qed.

Lemma getDefiningSplat_cleanupBlock block v :
  getDefiningSplat (cleanupBlock block) v = getDefiningSplat block v.
Proof.
  unfold cleanupBlock. apply getDefiningSplat_fmap.
  - intros op. destruct (isInsertSliceTMA op); [|done].
    apply applyPatternUntilFailure_frame.
  - intros op. unfold isInsertSliceTMA. by destruct (op_kind op).
  - intros op. destruct (isInsertSliceTMA op) eqn:Htma.
    + unfold isInsertSliceTMA in Htma.
      destruct (op_kind op) eqn:Hk; try done.
      destruct (applyPatternUntilFailure_frame (S (length block)) block op)
        as (_ & _ & _ & Hkind).
      destruct (Hkind _ _ _ _ _ Hk) as (mask' & -> & _). done.
    + by destruct (op_kind op).
Qed.

(** X3.  The cleanup edits nothing but masks: the block keeps its length;
    every operation keeps its place, its results and its attributes; an
    operation that is no TMA slice-insert is left as it is; a TMA
    slice-insert keeps its source, destination, index and barrier, and
    one without a mask gets none.  No value changes the splat that
    defines it. *)
Theorem cleanup_touches_only_masks block :
  length (cleanupBlock block) = length block
  /\ (forall i op,
         block !! i = Some op ->
         exists op',
           cleanupBlock block !! i = Some op'
           /\ op_results op' = op_results op
           /\ op_attrs op' = op_attrs op
           /\ (isInsertSliceTMA op = false -> op' = op)
           /\ forall src dst index mbar mask,
                op_kind op = InsertSliceTMAOp src dst index mbar mask ->
                exists mask',
                  op_kind op' = InsertSliceTMAOp src dst index mbar mask'
                  /\ (mask = None -> mask' = None))
  /\ (forall v, getDefiningSplat (cleanupBlock block) v
                = getDefiningSplat block v).
Proof.
  split; [unfold cleanupBlock; by rewrite length_fmap|].
  split; [|apply getDefiningSplat_cleanupBlock].
  intros i op Hi. eexists. split; [by apply cleanupBlock_lookup|].
  destruct (isInsertSliceTMA op) eqn:Htma.
  - destruct (applyPatternUntilFailure_frame (S (length block)) block op)
      as (Hr & Ha & _ & Hk).
    by repeat split.
  - repeat split; try done. intros. by eexists.
Qed.

(** X4.  After the cleanup the pattern applies nowhere: on every TMA
    slice-insert of the cleaned block [FoldSplatMaskInInsertAsync]
    reports failure.  The operand of a splat is taken to be no splat
    result itself. *)
Theorem cleanup_reaches_fixed_point block op :
  (forall v scalar, getDefiningSplat block v = Some scalar ->
                    getDefiningSplat block scalar = None) ->
  op ∈ cleanupBlock block ->
  isInsertSliceTMA op = true ->
  FoldSplatMaskInInsertAsync (cleanupBlock block) op = MatchFailure None.
Proof.
  intros Hwf Hin Htma.
  apply list_elem_of_fmap in Hin as (op0 & -> & Hin0).
  unfold FoldSplatMaskInInsertAsync.
  destruct (isInsertSliceTMA op0) eqn:Htma0.
  2:{ unfold isInsertSliceTMA in *. by destruct (op_kind op0). }
  clear Htma. unfold isInsertSliceTMA in Htma0.
  destruct (op_kind op0) eqn:Hk; try done.
  cbn [applyPatternUntilFailure]. unfold FoldSplatMaskInInsertAsync.
  rewrite Hk.
  match type of Hk with
  | _ = InsertSliceTMAOp _ _ _ _ ?o => destruct o as [m|]
  end; [|by rewrite Hk].
  destruct (getDefiningSplat block m) as [scalar|] eqn:Hm.
  - rewrite applyPatternUntilFailure_no_mask.
    + simpl. by rewrite getDefiningSplat_cleanupBlock, (Hwf _ _ Hm).
    + simpl. by apply (Hwf m).
  - by rewrite Hk, getDefiningSplat_cleanupBlock, Hm.
Qed.

(** The example block after the cleanup: the pattern fails on the
    slice-insert whose mask is now the scalar predicate. *)
Lemma cleanup_reaches_fixed_point_witness :
  FoldSplatMaskInInsertAsync (cleanupBlock Examples.tmaBlock)
    (mkOp (InsertSliceTMAOp Examples.vSrc (Examples.vDst 1) Examples.vIndex
             Examples.vMbar (Some Examples.vPred))
          [Examples.vRes 1] ∅)
  = MatchFailure None.
Proof.
  apply (cleanup_reaches_fixed_point Examples.tmaBlock).
  - intros v scalar H.
    assert (Hs : scalar = Examples.vPred).
    { unfold getDefiningSplat, getDefiningOp, Examples.tmaBlock in H.
      cbn [find] in H.
      destruct (existsb _ (op_results Examples.splatMask)); [by injection H|].
      destruct (existsb _ (op_results Examples.insertTMA)); done. }
    subst scalar. reflexivity.
  - apply list_elem_of_further, list_elem_of_here.
  - reflexivity.
Defined.

(** ** The lowering of returns (lines 96-133) *)

(** The operations [insertValues] builds are insertions without
    attributes. *)
Lemma insertValues_kinds ty operands : forall n i p ops final,
  insertValues ty n i p operands = (ops, final) ->
  Forall (fun o => op_attrs o = ∅
                   /\ (op_kind o = LLVMUndefOp
                       \/ exists c v k, op_kind o = LLVMInsertValueOp c v k))
         ops.
Proof.
  induction operands as [|v rest IH]; intros n i p ops final; simpl.
  - by intros [= <- <-].
  - destruct (insertValues ty (S n) (S i) _ rest) as [ops' final'] eqn:Hrec.
    intros [= <- <-]. constructor; [|by eapply IH].
    split; [done|]. right. by eexists _, _, _.
Qed.

Section ReturnOutcome.
Variable convertType : type -> option type.

(** X5.  The three outcomes of [ReturnOpConversion] on a [tt.return].
    It reports a match failure exactly when the function is marked
    [nvvm.kernel] and the return has operands, and then with the message
    of line 104.  It breaks down (there is no type for the aggregate)
    exactly when the function is not marked, there are two or more
    operands and the result type of the function does not convert.
    Otherwise it succeeds: the operations built end in one [llvm.return]
    that carries the attributes of the [tt.return] and returns at most
    one value (none in a kernel); the operations before it are an
    [llvm.mlir.undef] and [llvm.insertvalue]s without attributes. *)
Theorem return_lowering_outcome funcOp op opOperands operands next :
  op_kind op = ReturnOp opOperands ->
  let kernel := hasAttr (llvm_attrs funcOp) "nvvm.kernel" in
  let outcome := ReturnOpConversion convertType funcOp op operands next in
  (forall d,
      outcome = MatchFailure d <->
      kernel = true /\ opOperands <> []
      /\ d = Some "Kernel functions do not support return with operands"%string)
  /\ (outcome = Crash <->
      kernel = false /\ (2 <= length operands)%nat
      /\ convertType (llvm_result funcOp) = None)
  /\ forall ops,
       outcome = Success ops ->
       exists front returned,
         ops = front ++ [mkOp (LLVMReturnOp returned) [] (op_attrs op)]
         /\ (length returned <= 1)%nat
         /\ (kernel = true -> front = [] /\ returned = [])
         /\ Forall (fun o => op_attrs o = ∅
                             /\ (op_kind o = LLVMUndefOp
                                 \/ exists c v k,
                                      op_kind o = LLVMInsertValueOp c v k))
                   front.
Proof.
  intros Hk kernel outcome. subst kernel outcome.
  unfold ReturnOpConversion. rewrite Hk.
  destruct (hasAttr (llvm_attrs funcOp) "nvvm.kernel").
  { case_bool_decide as Hn.
    - split; [|split]; [| |done].
      + intros d. split.
        * intros [= <-]. repeat split; try done.
          intros ->. simpl in Hn. lia.
        * by intros (_ & _ & ->).
      + split; [done|]. by intros [? _].
    - assert (opOperands = []) as ->.
      { destruct opOperands; [done|]. simpl in Hn. lia. }
      split; [|split].
      + intros d. split; [done|]. by intros (_ & ? & _).
      + split; [done|]. by intros [? _].
      + intros ops [= <-]. exists [], []. repeat split; simpl; try done; lia. }
  case_bool_decide as Hlen.
  { split; [|split].
    - intros d. split; [done|]. by intros [? _].
    - split; [done|]. intros (_ & ? & _). lia.
    - intros ops [= <-]. exists [], operands.
      repeat split; simpl; try done; lia. }
  simpl.
  destruct (convertType (llvm_result funcOp)) as [ty|] eqn:Hty.
  2:{ split; [|split]; [| |done].
      - intros d. split; [done|]. by intros [? _].
      - split; [|done]. intros _. repeat split; [lia]. }
  destruct (insertValues ty (S next) 0 (mkValue next ty) operands)
    as [inserts packedResults] eqn:Hins.
  split; [|split].
  - intros d. split; [done|]. by intros [? _].
  - split; [done|]. by intros (_ & _ & ?).
  - intros ops [= <-].
    exists (mkOp LLVMUndefOp [mkValue next ty] ∅ :: inserts), [packedResults].
    split; [done|]. split; [simpl; lia|]. split; [done|].
    constructor; [split; [done|by left]|]. by eapply insertValues_kinds.
Qed.

End ReturnOutcome.

(** The return of two values of the example helper: rejected when the
    helper is marked [nvvm.kernel], lowered to operations that end in a
    return of one value when it is not. *)
Lemma return_lowering_outcome_witness :
  ReturnOpConversion Examples.convertId
    (Examples.llvmHelper Examples.kernelAttrs) Examples.returnPair
    [Examples.vCallRes0; Examples.vCallRes1] 40
  = MatchFailure
      (Some "Kernel functions do not support return with operands"%string)
  /\ exists front returned,
       ReturnOpConversion Examples.convertId (Examples.llvmHelper ∅)
         Examples.returnPair [Examples.vCallRes0; Examples.vCallRes1] 40
       = Success (front ++ [mkOp (LLVMReturnOp returned) [] ∅])
       /\ (length returned <= 1)%nat.
Proof.
  split.
  - apply (proj1 (return_lowering_outcome Examples.convertId
                    (Examples.llvmHelper Examples.kernelAttrs)
                    Examples.returnPair
                    [Examples.vCallRes0; Examples.vCallRes1]
                    [Examples.vCallRes0; Examples.vCallRes1] 40 eq_refl)).
    split; [by vm_compute|]. split; [discriminate|reflexivity].
  - destruct (ReturnOpConversion Examples.convertId (Examples.llvmHelper ∅)
                Examples.returnPair [Examples.vCallRes0; Examples.vCallRes1] 40)
      as [ops|d|] eqn:Hrun; [|by vm_compute in Hrun|by vm_compute in Hrun].
    destruct (proj2 (proj2 (return_lowering_outcome Examples.convertId
                              (Examples.llvmHelper ∅) Examples.returnPair
                              [Examples.vCallRes0; Examples.vCallRes1]
                              [Examples.vCallRes0; Examples.vCallRes1] 40
                              eq_refl)) ops Hrun)
      as (front & returned & -> & Hlen & _).
    by exists front, returned.
Defined.

(** The aggregate at the end of a chain of insertions: the fields
    [i .. i + N - 1] hold the operands, every other field is the one of
    the aggregate the chain started from. *)
Lemma insertValues_eval ty operands : forall n i (env : Aggregates) ops final fields0,
  insertValues ty (S n) i (mkValue n ty) operands = (ops, final) ->
  env !! n = Some fields0 ->
  exists fields,
    evalAggregates env ops !! v_id final = Some fields
    /\ forall j,
         fields !! j
         = if decide (i <= j < i + length operands)%nat
           then operands !! (j - i)%nat
           else fields0 !! j.
Proof.
  induction operands as [|v rest IH]; intros n i env ops final fields0; simpl.
  - intros [= <- <-] Henv. exists fields0. split; [done|].
    intros j. rewrite decide_False by lia. done.
  - destruct (insertValues ty (S (S n)) (S i) _ rest) as [ops' final'] eqn:Hrec.
    intros [= <- <-] Henv.
    unfold evalAggregates. cbn [foldl]. unfold evalAggregateOp at 2.
    cbn [op_kind op_results v_id]. rewrite Henv. cbn [default].
    destruct (IH (S n) (S i) (<[S n := <[i := v]> fields0]> env) ops' final'
                 (<[i := v]> fields0) Hrec) as (fields & Hev & Hf).
    { apply lookup_insert_eq. }
    exists fields. split; [exact Hev|].
    intros j. rewrite Hf.
    destruct (decide (j = i)) as [->|Hne].
    + rewrite decide_False by lia. rewrite decide_True by lia.
      rewrite lookup_insert_eq. by rewrite Nat.sub_diag.
    + destruct (decide (S i <= j < S i + length rest)%nat).
      * rewrite decide_True by lia.
        replace (j - i)%nat with (S (j - S i)) by lia. done.
      * rewrite decide_False by lia. by rewrite lookup_insert_ne.
Qed.

Section RoundTrip.
Variable convertType : type -> option type.

(** X6.  Packing and unpacking are inverse to each other.  For a return
    of N >= 2 values in a function that is not marked [nvvm.kernel], the
    value returned by the lowered operations is an aggregate whose field
    k holds operand k of the return, for every k.  When the result of a
    lowered call holds that aggregate, the k-th [llvm.extractvalue] that
    [getCallOpResults] builds reads operand k of the return, and the
    replacement values of the call are the results of these
    extractions, in order. *)
Theorem packed_results_round_trip funcOp retOp retOperands operands next
    retOps :
  hasAttr (llvm_attrs funcOp) "nvvm.kernel" = false ->
  op_kind retOp = ReturnOp retOperands ->
  (2 <= length operands)%nat ->
  ReturnOpConversion convertType funcOp retOp operands next = Success retOps ->
  exists returned fields,
    last retOps = Some (mkOp (LLVMReturnOp [returned]) [] (op_attrs retOp))
    /\ evalAggregates ∅ retOps !! v_id returned = Some fields
    /\ (forall k, fields !! k = operands !! k)
    /\ forall callNext callOp newCallOp packed rest extracts results
              (env : Aggregates),
         length (op_results callOp) = length operands ->
         op_results newCallOp = packed :: rest ->
         getCallOpResults callNext callOp newCallOp = Some (extracts, results) ->
         env !! v_id packed = Some fields ->
         results = extracts ≫= op_results
         /\ Forall2 (fun ext v => readField env ext = Some v) extracts operands.
Proof.
  intros Hkernel Hk Hlen. unfold ReturnOpConversion.
  rewrite Hk, Hkernel, bool_decide_eq_false_2 by lia. simpl.
  destruct (convertType (llvm_result funcOp)) as [ty|]; [|done].
  destruct (insertValues ty (S next) 0 (mkValue next ty) operands)
    as [inserts packedResults] eqn:Hins.
  intros [= <-].
  destruct (insertValues_eval ty operands next 0
              (<[next := ∅]> ∅) inserts packedResults ∅ Hins)
    as (fields & Hev & Hf); [apply lookup_insert_eq|].
  exists packedResults, fields.
  split; [by rewrite app_comm_cons, last_snoc|].
  split.
  { unfold evalAggregates in *. rewrite app_comm_cons, foldl_app.
    cbn [foldl]. unfold evalAggregateOp at 1. cbn [op_kind]. exact Hev. }
  assert (Hfields : forall k, fields !! k = operands !! k).
  { intros k. rewrite Hf. case_decide as Hr.
    - by rewrite Nat.sub_0_r.
    - rewrite lookup_empty. symmetry. apply lookup_ge_None. lia. }
  split; [done|].
  intros callNext callOp newCallOp packed rest extracts results env
         Hn Hres Hget Henv.
  unfold getCallOpResults in Hget.
  rewrite bool_decide_eq_false_2, Hres in Hget by lia.
  injection Hget as <- <-. split; [done|].
  rewrite Hn.
  apply Forall2_same_length_lookup.
  destruct (extractValues_spec packed (length operands) callNext 0)
    as [Hl Hext].
  split; [done|].
  intros i ext v Hi Hv. rewrite Hext in Hi by (by eapply lookup_lt_Some).
  injection Hi as <-. unfold readField. cbn [op_kind].
  rewrite Henv. simpl. by rewrite Hfields.
Qed.

End RoundTrip.

(** The return of the example helper: the aggregate it returns holds
    the two operands at the fields 0 and 1. *)
Lemma packed_results_round_trip_witness :
  exists retOps returned fields,
    ReturnOpConversion Examples.convertId (Examples.llvmHelper ∅)
      Examples.returnPair [Examples.vCallRes0; Examples.vCallRes1] 40
    = Success retOps
    /\ last retOps = Some (mkOp (LLVMReturnOp [returned]) [] ∅)
    /\ evalAggregates ∅ retOps !! v_id returned = Some fields
    /\ fields !! 0%nat = Some Examples.vCallRes0
    /\ fields !! 1%nat = Some Examples.vCallRes1.
Proof.
  destruct (ReturnOpConversion Examples.convertId (Examples.llvmHelper ∅)
              Examples.returnPair [Examples.vCallRes0; Examples.vCallRes1] 40)
    as [retOps|d|] eqn:Hrun; [|by vm_compute in Hrun|by vm_compute in Hrun].
  assert (Hdev : hasAttr (llvm_attrs (Examples.llvmHelper ∅)) "nvvm.kernel"
                 = false) by (vm_compute; reflexivity).
  destruct (packed_results_round_trip Examples.convertId (Examples.llvmHelper ∅)
              Examples.returnPair [Examples.vCallRes0; Examples.vCallRes1]
              [Examples.vCallRes0; Examples.vCallRes1] 40 retOps Hdev eq_refl
              (le_n 2) Hrun)
    as (returned & fields & Hlast & Hev & Hf & _).
  exists retOps, returned, fields. split; [reflexivity|].
  split; [exact Hlast|]. split; [exact Hev|].
  split; [exact (Hf 0%nat)|exact (Hf 1%nat)].
Defined.

(** ** The attributes of a lowered function (lines 174-228) *)

Section FunctionAttributes.
Variable numWarps : Z.
Variable target : Target.
Variable convertType : type -> option type.
Variable isKernel : FuncOp -> bool.
Variable filterFuncAttributes : FuncOp -> bool -> AttrDict.
Variable getThreadsPerWarp : ModuleOp -> Z.
Variable getKernelFuncAttrName : string.
Variable getMaxWorkGroupSizeAttrName : string.
Variable getReqdSubGroupSizeAttrName : string.

(** X7.  The markers [FuncOpConversion] sets.  A function that is no
    kernel gets [passthrough = ["noinline"]] on every target.  On the
    NVVM and ROCDL targets every lowered function, kernel or not, gets
    [nvvm.maxntid = 32 x numWarps] (when the product fits the 32-bit
    int), and a kernel gets [nvvm.kernel = 1 : u1].  On the GENX target
    a kernel gets the kernel attribute of the GENX dialect with the
    value [1 : i32]. *)
Theorem function_markers m next funcOp newFuncOp :
  FuncOpConversion numWarps target convertType isKernel filterFuncAttributes
    getThreadsPerWarp getKernelFuncAttrName getMaxWorkGroupSizeAttrName
    getReqdSubGroupSizeAttrName m next funcOp = Success newFuncOp ->
  (isKernel funcOp = false ->
   llvm_attrs newFuncOp !! "passthrough"%string
   = Some (StrArrayAttr ["noinline"%string]))
  /\ (target <> GENX ->
      (- 2 ^ 31 <= 32 * numWarps < 2 ^ 31 ->
       llvm_attrs newFuncOp !! "nvvm.maxntid"%string
       = Some (DenseI32ArrayAttr [32 * numWarps]))
      /\ (isKernel funcOp = true ->
          llvm_attrs newFuncOp !! "nvvm.kernel"%string
          = Some (IntegerAttr 1 1)))
  /\ (target = GENX -> isKernel funcOp = true ->
      llvm_attrs newFuncOp !! getKernelFuncAttrName
      = Some (IntegerAttr 32 1)).
Proof.
  unfold FuncOpConversion.
  destruct (convertFuncOpToLLVMFuncOp _ _ _) as [f0|]; [|done].
  intros [= <-]. split; [|split].
  - intros ->. simpl. apply lookup_insert_eq.
  - intros Ht. unfold setTargetAttrs.
    destruct target; try done.
    + split.
      * intros Hrange.
        destruct (negb (isKernel funcOp)); simpl;
          rewrite ?(lookup_insert_ne _ "passthrough"%string) by done;
          rewrite lookup_insert_eq; by rewrite i32_small.
      * intros ->. simpl. rewrite lookup_insert_ne by done.
        apply lookup_insert_eq.
    + split.
      * intros Hrange.
        destruct (negb (isKernel funcOp)); simpl;
          rewrite ?(lookup_insert_ne _ "passthrough"%string) by done;
          rewrite lookup_insert_eq; by rewrite i32_small.
      * intros ->. simpl. rewrite lookup_insert_ne by done.
        apply lookup_insert_eq.
  - intros Ht Hk. rewrite Ht, Hk. simpl. unfold setDialectAttrs.
    rewrite Hk. apply lookup_union_Some_l. simpl. apply lookup_insert_eq.
Qed.

(** X8.  On the GENX target [setDialectAttrs] replaces the dialect
    attributes: a lowered function has, of the attributes whose name
    has a dot, the ones the pattern sets and no other.  These are the
    kernel attribute (for a kernel only), the maximal work group size
    and the required sub group size, which is the module's threads per
    warp.  The three names are taken to be distinct, and the threads
    per warp and their product with the warp count to fit the 32-bit
    int. *)
Theorem genx_dialect_attributes m next funcOp newFuncOp name :
  target = GENX ->
  containsDot name = true ->
  getKernelFuncAttrName <> getMaxWorkGroupSizeAttrName ->
  getKernelFuncAttrName <> getReqdSubGroupSizeAttrName ->
  getMaxWorkGroupSizeAttrName <> getReqdSubGroupSizeAttrName ->
  - 2 ^ 31 <= getThreadsPerWarp m < 2 ^ 31 ->
  - 2 ^ 31 <= getThreadsPerWarp m * numWarps < 2 ^ 31 ->
  FuncOpConversion numWarps target convertType isKernel filterFuncAttributes
    getThreadsPerWarp getKernelFuncAttrName getMaxWorkGroupSizeAttrName
    getReqdSubGroupSizeAttrName m next funcOp = Success newFuncOp ->
  llvm_attrs newFuncOp !! name
  = if decide (name = getKernelFuncAttrName)
    then if isKernel funcOp then Some (IntegerAttr 32 1) else None
    else if decide (name = getMaxWorkGroupSizeAttrName)
    then Some (I32ArrayAttr [getThreadsPerWarp m * numWarps; 1; 1])
    else if decide (name = getReqdSubGroupSizeAttrName)
    then Some (I32ArrayAttr [getThreadsPerWarp m])
    else None.
Proof.
  intros -> Hdot Hkw Hkr Hwr Htpw Hprod.
  assert (E1 : i32 (getThreadsPerWarp m) = getThreadsPerWarp m)
    by by apply i32_small.
  assert (E2 : i32 (i32 (getThreadsPerWarp m) * numWarps)
               = getThreadsPerWarp m * numWarps)
    by (rewrite E1; by apply i32_small).
  unfold FuncOpConversion.
  destruct (convertFuncOpToLLVMFuncOp _ _ _) as [f0|]; [|done].
  intros [= <-].
  assert (Hpass : name <> "passthrough"%string).
  { intros ->. done. }
  assert (Hbase :
    llvm_attrs (setTargetAttrs numWarps GENX isKernel getThreadsPerWarp
                  getKernelFuncAttrName getMaxWorkGroupSizeAttrName
                  getReqdSubGroupSizeAttrName m funcOp f0) !! name
    = if decide (name = getKernelFuncAttrName)
      then if isKernel funcOp then Some (IntegerAttr 32 1) else None
      else if decide (name = getMaxWorkGroupSizeAttrName)
      then Some (I32ArrayAttr
                   [i32 (i32 (getThreadsPerWarp m) * numWarps); 1; 1])
      else if decide (name = getReqdSubGroupSizeAttrName)
      then Some (I32ArrayAttr [i32 (getThreadsPerWarp m)])
      else None).
  { simpl. unfold setDialectAttrs. rewrite lookup_union.
    rewrite map_lookup_filter.
    assert (Hfilter :
      (llvm_attrs f0 !! name
         ≫= fun x => guard (containsDot (name, x).1 = false);; Some x) = None).
    { destruct (llvm_attrs f0 !! name); [|done]. simpl.
      rewrite option_guard_False; [done|]. simpl. congruence. }
    rewrite Hfilter. rewrite (right_id_L None union).
    destruct (isKernel funcOp); simpl.
    - repeat case_decide; subst;
        repeat (rewrite lookup_insert_eq || rewrite lookup_insert_ne by done);
        done.
    - repeat case_decide; subst;
        repeat (rewrite lookup_insert_eq || rewrite lookup_insert_ne by done);
        done. }
  rewrite E2, E1 in Hbase.
  destruct (negb (isKernel funcOp)); [|exact Hbase].
  unfold llvm_setAttr at 1. cbn [llvm_attrs llvm_setAttrs].
  rewrite lookup_insert_ne by done. exact Hbase.
Qed.

End FunctionAttributes.

(** The example device function on NVVM: not to be inlined, and with
    [nvvm.maxntid = 32 x 4]. *)
Lemma function_markers_witness :
  exists newFuncOp,
    Examples.lowerDevice NVVM = Success newFuncOp
    /\ llvm_attrs newFuncOp !! "passthrough"%string
       = Some (StrArrayAttr ["noinline"%string])
    /\ llvm_attrs newFuncOp !! "nvvm.maxntid"%string
       = Some (DenseI32ArrayAttr [128]).
Proof.
  destruct (Examples.lowerDevice NVVM) as [newFuncOp|d|] eqn:Hrun;
    [|by vm_compute in Hrun|by vm_compute in Hrun].
  destruct (function_markers 4 NVVM Examples.convertId Examples.isKernelByName
              Examples.keepAttrs (fun _ => 32) Examples.genxKernel
              Examples.genxMaxWorkGroupSize Examples.genxReqdSubGroupSize
              Examples.pipelinedModule 30 Examples.deviceFunc newFuncOp Hrun)
    as (Hpass & Hnvvm & _).
  exists newFuncOp. split; [reflexivity|].
  split; [by apply Hpass|]. apply Hnvvm; [done|lia].
Defined.

(** The example kernel on GENX: marked as a GENX kernel, and without
    the [nvvm.kernel] attribute. *)
Lemma genx_dialect_attributes_witness :
  exists newFuncOp,
    Examples.lowerKernel GENX 16 = Success newFuncOp
    /\ llvm_attrs newFuncOp !! "nvvm.kernel"%string = None
    /\ llvm_attrs newFuncOp !! Examples.genxKernel = Some (IntegerAttr 32 1).
Proof.
  destruct (Examples.lowerKernel GENX 16) as [newFuncOp|d|] eqn:Hrun;
    [|by vm_compute in Hrun|by vm_compute in Hrun].
  exists newFuncOp. split; [reflexivity|]. split.
  - exact (genx_dialect_attributes 8 GENX Examples.convertId
             Examples.isKernelByName Examples.keepAttrs (fun _ => 16)
             Examples.genxKernel Examples.genxMaxWorkGroupSize
             Examples.genxReqdSubGroupSize Examples.warpSpecializedModule 6
             Examples.pipelinedKernel newFuncOp "nvvm.kernel" eq_refl eq_refl
             ltac:(discriminate) ltac:(discriminate) ltac:(discriminate)
             ltac:(lia) ltac:(lia) Hrun).
  - exact (genx_dialect_attributes 8 GENX Examples.convertId
             Examples.isKernelByName Examples.keepAttrs (fun _ => 16)
             Examples.genxKernel Examples.genxMaxWorkGroupSize
             Examples.genxReqdSubGroupSize Examples.warpSpecializedModule 6
             Examples.pipelinedKernel newFuncOp Examples.genxKernel eq_refl
             eq_refl ltac:(discriminate) ltac:(discriminate)
             ltac:(discriminate) ltac:(lia) ltac:(lia) Hrun).
Defined.

(** ** The lowering of calls (lines 243-317) *)

(** [mapM] converts element by element. *)
Lemma mapM_lookup {A B} (f : A -> option B) l k i x :
  mapM f l = Some k -> l !! i = Some x ->
  exists y, k !! i = Some y /\ f x = Some y.
Proof.
  intros Hm Hx. apply mapM_Some in Hm.
  destruct (Forall2_lookup_l _ _ _ _ _ Hm Hx) as (y & Hy & Hf). by exists y.
Qed.

Section CallResults.
Variable convertType : type -> option type.
Variable promoteOperand : Value -> Value -> Value.

(** X9.  A lowered call replaces the results of the call one for one:
    there are as many replacement values as results; the k-th has the
    converted type of the k-th result; each is the result of one of the
    operations built.  Among these operations is one [llvm.call]; it
    carries the attributes of the call and has at most one result. *)
Theorem call_results_replaced_one_for_one next caller callOp operands ops
    results :
  CallOpConversion convertType promoteOperand next caller callOp operands
  = Success (ops, results) ->
  length results = length (op_results callOp)
  /\ (forall k r, op_results callOp !! k = Some r ->
        exists v, results !! k = Some v
                  /\ convertType (v_type r) = Some (v_type v))
  /\ (forall v, v ∈ results -> exists o, o ∈ ops /\ v ∈ op_results o)
  /\ exists newCallOp promoted,
       newCallOp ∈ ops
       /\ op_kind newCallOp = LLVMCallOp promoted
       /\ op_attrs newCallOp = op_attrs callOp
       /\ (length (op_results newCallOp) <= 1)%nat.
Proof.
  unfold CallOpConversion. destruct (op_kind callOp) eqn:Hk; try done.
  destruct (promoteOperands promoteOperand next caller callOp operands)
    as [baseOps promoted] eqn:Hp.
  unfold convertCallOpToLLVMCallOp, getCallOpResults.
  case_bool_decide as Hn0.
  - (* at least one result *)
    destruct (packFunctionResults convertType (v_type <$> op_results callOp))
      as [packedResult|] eqn:Hpack; [|done].
    cbn [op_results]. case_bool_decide as Hlt.
    + (* exactly one *)
      destruct (op_results callOp) as [|r [|? ?]] eqn:Hres;
        simpl in Hn0, Hlt; try done; try lia.
      simpl in Hpack. intros [= <- <-].
      split; [done|]. split.
      { intros [|k] r' Hr'; [|done]. injection Hr' as <-.
        by exists (mkValue (S next) packedResult). }
      split.
      { intros v ->%list_elem_of_singleton. eexists. split.
        - apply elem_of_app. right. apply list_elem_of_here.
        - apply list_elem_of_here. }
      eexists _, promoted. split.
      { apply elem_of_app. right. apply list_elem_of_here. }
      repeat split; simpl; lia.
    + (* two or more: one extraction each *)
      intros [= <- <-].
      assert (Htys : exists tys,
                 mapM convertType (v_type <$> op_results callOp) = Some tys
                 /\ packedResult = LLVMStructType tys).
      { unfold packFunctionResults in Hpack.
        destruct (v_type <$> op_results callOp) as [|t [|t' l]] eqn:Htl.
        - apply fmap_Some in Hpack as (tys & ? & ->). by exists tys.
        - apply (f_equal length) in Htl. rewrite length_fmap in Htl.
          simpl in Htl. lia.
        - apply fmap_Some in Hpack as (tys & ? & ->). by exists tys. }
      destruct Htys as (tys & Htys & ->).
      rewrite extractValues_results.
      split; [by rewrite length_fmap, length_seq|]. split.
      { intros k r Hr.
        assert (Hk' : (k < length (op_results callOp))%nat)
          by by eapply lookup_lt_Some.
        eexists. split.
        - rewrite list_lookup_fmap, lookup_seq_lt by done. done.
        - cbn [v_type fieldType]. simpl.
          destruct (mapM_lookup convertType _ tys k (v_type r) Htys)
            as (y & -> & Hy); [by rewrite list_lookup_fmap, Hr|].
          done. }
      split.
      { intros v Hv. rewrite <- extractValues_results in Hv.
        apply list_elem_of_bind in Hv as (o & Hv & Ho).
        exists o. split; [|done]. rewrite !elem_of_app. by right; right. }
      eexists _, promoted. split.
      { apply elem_of_app. right. apply list_elem_of_here. }
      repeat split; simpl; lia.
  - (* no result *)
    assert (Hnil : op_results callOp = []).
    { destruct (op_results callOp); [done|]. by simpl in Hn0. }
    rewrite Hnil. simpl. intros [= <- <-].
    split; [done|]. split; [done|].
    split; [by intros v ?%elem_of_nil|].
    eexists _, promoted. split.
    { apply elem_of_app. right. apply list_elem_of_here. }
    repeat split; simpl; lia.
Qed.

(** X10.  The outcomes of [CallOpConversion] on a [tt.call]: it never
    breaks down; it reports a match failure, without a message, exactly
    when the call has results and their types do not pack; otherwise it
    succeeds. *)
Theorem call_lowering_outcome next caller callOp opOperands operands :
  op_kind callOp = CallOp opOperands ->
  let outcome :=
    CallOpConversion convertType promoteOperand next caller callOp operands in
  outcome <> Crash
  /\ (forall d,
         outcome = MatchFailure d <->
         d = None /\ op_results callOp <> []
         /\ packFunctionResults convertType (v_type <$> op_results callOp)
            = None)
  /\ ((op_results callOp = []
       \/ is_Some (packFunctionResults convertType
                     (v_type <$> op_results callOp))) ->
      exists ops results, outcome = Success (ops, results)).
Proof.
  intros Hk outcome. subst outcome. unfold CallOpConversion. rewrite Hk.
  destruct (promoteOperands promoteOperand next caller callOp operands)
    as [baseOps promoted] eqn:Hp.
  unfold convertCallOpToLLVMCallOp, getCallOpResults.
  case_bool_decide as Hn0.
  - assert (Hne : op_results callOp <> []).
    { intros Hnil. apply Hn0. by rewrite Hnil. }
    destruct (packFunctionResults convertType (v_type <$> op_results callOp))
      as [packedResult|] eqn:Hpack.
    + cbn [op_results]. case_bool_decide.
      * split; [done|]. split; [|by eexists _, _].
        intros d. split; [done|]. by intros (_ & _ & ?).
      * split; [done|]. split; [|by eexists _, _].
        intros d. split; [done|]. by intros (_ & _ & ?).
    + split; [done|]. split.
      * intros d. split; [by intros [= <-]|]. by intros (-> & _).
      * intros [?|[? ?]]; done.
  - assert (Hnil : op_results callOp = []).
    { destruct (op_results callOp); [done|]. by simpl in Hn0. }
    rewrite Hnil. simpl.
    split; [done|]. split; [|by eexists _, _].
    intros d. split; [done|]. by intros (_ & ? & _).
Qed.

End CallResults.

(** The example call of two results: two replacement values, each
    the result of an operation built. *)
Lemma call_results_replaced_one_for_one_witness :
  exists ops results,
    Examples.lowerCall = Success (ops, results)
    /\ length results = 2%nat
    /\ (forall v, v ∈ results -> exists o, o ∈ ops /\ v ∈ op_results o).
Proof.
  destruct Examples.lowerCall as [[ops results]|d|] eqn:Hrun;
    [|by vm_compute in Hrun|by vm_compute in Hrun].
  destruct (call_results_replaced_one_for_one Examples.convertId (fun _ v => v)
              30 (TTFunc Examples.pipelinedKernel) Examples.callHelper
              [Examples.vSrc; Examples.vSrc] ops results Hrun)
    as (Hlen & _ & Hdef & _).
  by exists ops, results.
Defined.

(** The example call is lowered. *)
Lemma call_lowering_outcome_witness :
  Examples.lowerCall <> Crash
  /\ exists ops results, Examples.lowerCall = Success (ops, results).
Proof.
  destruct (call_lowering_outcome Examples.convertId (fun _ v => v) 30
              (TTFunc Examples.pipelinedKernel) Examples.callHelper
              [Examples.vSrc; Examples.vSrc] [Examples.vSrc; Examples.vSrc]
              eq_refl) as (Hcrash & _ & Hok).
  split; [exact Hcrash|]. apply Hok. right. by eexists.
Defined.

(** ** The stage of calls and returns (lines 440-451) *)

(** A walk over the functions of a module goes through when the
    callback goes through on every operation that is good for its
    function, and replacing uses keeps operations good. *)
Lemma walkItems_is_Some_dep {St : Type}
    (visit : ModuleItem -> St -> Operation ->
             option (St * list Operation * list (Value * Value)))
    (Good : ModuleItem -> Operation -> Prop) :
  (forall it st op, Good it op -> is_Some (visit it st op)) ->
  (forall it st op st' new_ops reps l,
      Good it op -> visit it st op = Some (st', new_ops, reps) ->
      Forall (Good it) l -> Forall (Good it) (replaceAllUsesWith reps l)) ->
  forall items st,
    Forall (fun it => Forall (Good it) (item_body it)) items ->
    is_Some (walkItems visit st items).
Proof.
  intros Hsome Hkeep.
  induction items as [|it rest IH]; intros st HF; simpl; [by eexists|].
  inversion HF as [|? ? Hit Hrest]; subst.
  destruct (walk_is_Some (visit it) (Good it) (Hsome it) (Hkeep it)
              (length (item_body it)) st [] (item_body it) Hit)
    as [[st1 body'] Hb].
  unfold walkBlock. rewrite Hb.
  destruct (IH st1 Hrest) as [[st2 rest'] Hr]. rewrite Hr. by eexists.
Qed.

Lemma extractValues_kinds packed count : forall next i,
  Forall (fun o => exists c k, op_kind o = LLVMExtractValueOp c k)
         (extractValues packed next i count).
Proof.
  induction count as [|n IH]; intros next i; simpl; [done|].
  constructor; [by eexists _, _|apply IH].
Qed.

Lemma item_attrs_set_body it body :
  item_attrs (item_set_body it body) = item_attrs it.
Proof. by destruct it. Qed.

Section CallAndRetStage.
Variable convertType : type -> option type.
Variable promoteOperand : Value -> Value -> Value.

(** The operations a lowered call consists of are neither calls nor
    returns of the Triton dialect. *)
Lemma CallOpConversion_new_ops next caller callOp operands ops results :
  CallOpConversion convertType promoteOperand next caller callOp operands
  = Success (ops, results) ->
  Forall (fun o => match op_kind o with
                   | CallOp _ | ReturnOp _ => False
                   | _ => True
                   end) ops.
Proof.
  unfold CallOpConversion. destruct (op_kind callOp); try done.
  unfold promoteOperands, getStackPointer, getSharedMemoryBase.
  destruct (negb (hasAttr (item_attrs caller) "allocation.offset"));
    (destruct (convertCallOpToLLVMCallOp _ _ _ _) as [newCallOp|] eqn:Hc;
       [|done];
     destruct (getCallOpResults _ _ _) as [[extractOps res]|] eqn:Hr; [|done];
     intros [= <- <-];
     assert (Hnew : exists l, op_kind newCallOp = LLVMCallOp l)
       by (unfold convertCallOpToLLVMCallOp in Hc;
           repeat case_match; try done; injection Hc as <-; by eexists);
     destruct Hnew as [l Hnew];
     assert (Hext : Forall (fun o => exists c k,
                               op_kind o = LLVMExtractValueOp c k) extractOps)
       by (unfold getCallOpResults in Hr; repeat case_match; try done;
           injection Hr as <- <-; [done|apply extractValues_kinds]);
     constructor; [done|]; constructor; [by rewrite Hnew|];
     eapply Forall_impl; [exact Hext|]; by intros o (c & k & ->)).
Qed.

Lemma CallOpConversion_failure next caller callOp opOperands operands d :
  op_kind callOp = CallOp opOperands ->
  CallOpConversion convertType promoteOperand next caller callOp operands
  = MatchFailure d ->
  op_results callOp <> []
  /\ packFunctionResults convertType (v_type <$> op_results callOp) = None.
Proof.
  intros Hk. unfold CallOpConversion. rewrite Hk.
  destruct (promoteOperands _ _ _ _ _) as [baseOps promoted].
  unfold convertCallOpToLLVMCallOp.
  case_bool_decide as Hn0.
  - destruct (packFunctionResults _ _) eqn:Hp.
    + destruct (getCallOpResults _ _ _) as [[? ?]|]; done.
    + intros _. split; [|done]. intros Hnil. apply Hn0. by rewrite Hnil.
  - destruct (getCallOpResults _ _ _) as [[? ?]|]; done.
Qed.

Lemma CallOpConversion_no_crash next caller callOp opOperands operands :
  op_kind callOp = CallOp opOperands ->
  CallOpConversion convertType promoteOperand next caller callOp operands
  <> Crash.
Proof.
  intros Hk. unfold CallOpConversion. rewrite Hk.
  destruct (promoteOperands _ _ _ _ _) as [baseOps promoted].
  unfold convertCallOpToLLVMCallOp, getCallOpResults.
  case_bool_decide as Hn0.
  - destruct (packFunctionResults _ _); [|done].
    cbn [op_results]. by case_bool_decide.
  - assert (Hnil : op_results callOp = []).
    { destruct (op_results callOp); [done|]. by simpl in Hn0. }
    by rewrite Hnil.
Qed.

(** The operations a lowered return consists of are neither calls nor
    returns of the Triton dialect. *)
Lemma ReturnOpConversion_new_ops funcOp op operands next ops :
  ReturnOpConversion convertType funcOp op operands next = Success ops ->
  Forall (fun o => match op_kind o with
                   | CallOp _ | ReturnOp _ => False
                   | _ => True
                   end) ops.
Proof.
  unfold ReturnOpConversion. destruct (op_kind op); try done.
  destruct (hasAttr _ _).
  { case_bool_decide; [done|]. intros [= <-]. by repeat constructor. }
  case_bool_decide; [intros [= <-]; by repeat constructor|].
  destruct (packFunctionResults _ _) as [ty|]; [|done].
  destruct (insertValues _ _ _ _ _) as [inserts final] eqn:Hins.
  intros [= <-]. constructor; [done|]. apply Forall_app. split.
  - eapply Forall_impl; [by eapply insertValues_kinds|].
    intros o [_ [->|(c & v & k & ->)]]; done.
  - by repeat constructor.
Qed.

Lemma ReturnOpConversion_failure funcOp op opOperands operands next d :
  op_kind op = ReturnOp opOperands ->
  ReturnOpConversion convertType funcOp op operands next = MatchFailure d ->
  hasAttr (llvm_attrs funcOp) "nvvm.kernel" = true /\ opOperands <> [].
Proof.
  intros Hk. unfold ReturnOpConversion. rewrite Hk.
  destruct (hasAttr _ _).
  - case_bool_decide as Hn; [|done]. intros _. split; [done|].
    intros ->. simpl in Hn. lia.
  - case_bool_decide; [done|].
    destruct (packFunctionResults _ _); [|done].
    by destruct (insertValues _ _ _ _ _).
Qed.

Lemma leftByCallAndRet_mapOpOperands caller f op :
  leftByCallAndRet convertType caller op ->
  leftByCallAndRet convertType caller (mapOpOperands f op).
Proof.
  unfold leftByCallAndRet. destruct op as [k r a]. simpl.
  destruct k; simpl; try done.
  intros [? Hne]. split; [done|]. by destruct operands.
Qed.

Lemma returnInLLVMFunc_mapOpOperands caller f op :
  returnInLLVMFunc caller op -> returnInLLVMFunc caller (mapOpOperands f op).
Proof. destruct op as [[] ? ?]; done. Qed.

(** What the callback of the stage puts in place of an operation. *)
Lemma callAndRetVisit_left caller next op next' new_ops reps :
  callAndRetVisit convertType promoteOperand caller next op
  = Some (next', new_ops, reps) ->
  Forall (leftByCallAndRet convertType caller) new_ops.
Proof.
  unfold callAndRetVisit.
  destruct (op_kind op) eqn:Hk;
    try (intros [= <- <- <-]; apply Forall_singleton;
         unfold leftByCallAndRet; by rewrite Hk).
  - (* return *)
    destruct caller as [|funcOp|]; try done.
    destruct (ReturnOpConversion _ _ _ _ _) as [ops|d|] eqn:Hr; [| |done].
    + intros [= <- <- <-]. eapply Forall_impl.
      * by eapply ReturnOpConversion_new_ops.
      * intros o. unfold leftByCallAndRet. by destruct (op_kind o).
    + intros [= <- <- <-]. apply Forall_singleton. unfold leftByCallAndRet.
      rewrite Hk. by eapply ReturnOpConversion_failure.
  - (* call *)
    destruct (CallOpConversion _ _ _ _ _ _) as [[ops results]|d|] eqn:Hc;
      [| |done].
    + intros [= <- <- <-]. eapply Forall_impl.
      * by eapply CallOpConversion_new_ops.
      * intros o. unfold leftByCallAndRet. by destruct (op_kind o).
    + intros [= <- <- <-]. apply Forall_singleton. unfold leftByCallAndRet.
      rewrite Hk. by eapply CallOpConversion_failure.
Qed.

(** What is left of calls and returns when the stage goes through. *)
Lemma convertCallAndRet_left m m' :
  convertCallAndRet convertType promoteOperand m = Some m' ->
  mod_attrs m' = mod_attrs m
  /\ Forall2 (fun it it' =>
                exists body',
                  it' = item_set_body it body'
                  /\ Forall (leftByCallAndRet convertType it) body')
             (mod_items m) (mod_items m').
Proof.
  intros Hrun. unfold convertCallAndRet, walkModule in Hrun.
  destruct (walkItems _ _ _) as [[st' items']|] eqn:Hw; [|done].
  injection Hrun as <-. split; [done|]. cbn [mod_items].
  destruct (walkItems_Forall2
              (callAndRetVisit convertType promoteOperand)
              (fun _ => True) (fun _ => True)
              (fun it body' => Forall (leftByCallAndRet convertType it) body'))
    with (items := mod_items m) (st := nextId m) (st' := st')
         (items' := items') as [_ HF]; try done.
  - intros it st st1 body' _ _ Hb. split; [done|].
    refine (walk_invariant _
              (fun _ done _ => Forall (leftByCallAndRet convertType it) done)
              _ (length (item_body it)) st [] (item_body it) st1 body'
              _ _ Hb); [|done|done].
    intros s done op rest s' new_ops reps HInv Hv. cbv beta in *.
    apply replaceAllUsesWith_Forall.
    { intros f o. apply leftByCallAndRet_mapOpOperands. }
    apply Forall_app. split; [done|]. by eapply callAndRetVisit_left.
  - by apply Forall_forall.
Qed.

(** The stage goes through when every type converts and every return
    stands in an [llvm.func]. *)
Lemma convertCallAndRet_is_Some m :
  (forall t, is_Some (convertType t)) ->
  (forall it op, it ∈ mod_items m -> op ∈ item_body it ->
                 returnInLLVMFunc it op) ->
  is_Some (convertCallAndRet convertType promoteOperand m).
Proof.
  intros Htotal Hret.
  destruct (walkItems_is_Some_dep
              (callAndRetVisit convertType promoteOperand)
              returnInLLVMFunc) with (items := mod_items m) (st := nextId m)
    as [[st' items'] Hw].
  - intros it st op Hgood. unfold callAndRetVisit.
    unfold returnInLLVMFunc in Hgood.
    destruct (op_kind op) eqn:Hk; try by eexists.
    + destruct Hgood as [f ->].
      destruct (ReturnOpConversion _ _ _ _ _) as [ops|d|] eqn:Hr;
        try by eexists.
      exfalso. revert Hr. unfold ReturnOpConversion. rewrite Hk.
      destruct (hasAttr _ _); [by case_bool_decide|].
      case_bool_decide; [done|].
      destruct (packFunctionResults_total convertType [llvm_result f] Htotal)
        as [ty ->].
      by destruct (insertValues _ _ _ _ _).
    + destruct (CallOpConversion _ _ _ _ _ _) as [[ops results]|d|] eqn:Hc;
        try by eexists.
      exfalso. by eapply CallOpConversion_no_crash.
  - intros it st op st1 new_ops reps l _ _.
    apply replaceAllUsesWith_Forall. intros f o.
    apply returnInLLVMFunc_mapOpOperands.
  - apply Forall_forall. intros it Hit. apply Forall_forall. intros op Hop.
    by apply Hret.
  - unfold convertCallAndRet, walkModule. rewrite Hw. by eexists.
Qed.

Lemma leftByCallAndRet_no_call caller op operands :
  (forall t, is_Some (convertType t)) ->
  leftByCallAndRet convertType caller op ->
  op_kind op <> CallOp operands.
Proof.
  intros Htotal Hleft Hk. unfold leftByCallAndRet in Hleft.
  rewrite Hk in Hleft. destruct Hleft as [_ Hnone].
  destruct (packFunctionResults_total convertType
              (v_type <$> op_results op) Htotal) as [ty Hty].
  congruence.
Qed.

(** X11.  What the stage leaves.  When it goes through, the module
    keeps its attributes and every function its place; of the calls and
    returns only these are left: a call whose result types do not pack,
    and a return with operands in a function marked [nvvm.kernel].  The
    stage goes through when every type converts and every return
    stands in an [llvm.func]; then no call is left. *)
Theorem call_and_return_stage m :
  (forall m',
      convertCallAndRet convertType promoteOperand m = Some m' ->
      mod_attrs m' = mod_attrs m
      /\ Forall2 (fun it it' =>
                    exists body',
                      it' = item_set_body it body'
                      /\ Forall (leftByCallAndRet convertType it) body')
                 (mod_items m) (mod_items m'))
  /\ ((forall t, is_Some (convertType t)) ->
      (forall it op, it ∈ mod_items m -> op ∈ item_body it ->
                     returnInLLVMFunc it op) ->
      exists m',
        convertCallAndRet convertType promoteOperand m = Some m'
        /\ forall op operands,
             op ∈ module_ops m' -> op_kind op <> CallOp operands).
Proof.
  split; [apply convertCallAndRet_left|].
  intros Htotal Hret.
  destruct (convertCallAndRet_is_Some m Htotal Hret) as [m' Hrun].
  exists m'. split; [exact Hrun|].
  destruct (convertCallAndRet_left m m' Hrun) as [_ HF].
  intros op operands (it' & Hop & Hit')%list_elem_of_bind.
  apply list_elem_of_lookup in Hit' as [i Hi].
  destruct (Forall2_lookup_r _ _ _ _ _ HF Hi)
    as (it & _ & body' & -> & Hbody).
  rewrite item_body_set_body in Hop.
  assert (Hin : op ∈ body').
  { destruct it; try done. by apply elem_of_nil in Hop. }
  rewrite Forall_forall in Hbody.
  by eapply leftByCallAndRet_no_call, Hbody.
Qed.

End CallAndRetStage.

(** The example call in a lowered entry function: the stage goes
    through and leaves no call. *)
Lemma call_and_return_stage_witness :
  exists m',
    convertCallAndRet Examples.convertId (fun _ v => v)
                      Examples.loweredCallModule = Some m'
    /\ forall op operands,
         op ∈ module_ops m' -> op_kind op <> CallOp operands.
Proof.
  apply (proj2 (call_and_return_stage Examples.convertId (fun _ v => v)
                  Examples.loweredCallModule)).
  - intros t. by eexists.
  - intros it op Hit Hop. unfold returnInLLVMFunc.
    apply list_elem_of_singleton in Hit. subst it.
    destruct (op_kind op); try exact I. by eexists.
Defined.

(** ** The function stages together (lines 420-451) *)

Section FunctionStages.
Variable target : Target.
Variable numWarps : Z.
Variable typeConverter : type -> option type.
Variable funcTypeConverter : type -> option type.
Variable isKernel : FuncOp -> bool.
Variable filterFuncAttributes : FuncOp -> bool -> AttrDict.
Variable getThreadsPerWarp : ModuleOp -> Z.
Variable getKernelFuncAttrName : string.
Variable getMaxWorkGroupSizeAttrName : string.
Variable getReqdSubGroupSizeAttrName : string.
Variable promoteOperand : Value -> Value -> Value.

Abbreviation lower :=
  (FuncOpConversion numWarps target funcTypeConverter isKernel
     filterFuncAttributes getThreadsPerWarp getKernelFuncAttrName
     getMaxWorkGroupSizeAttrName getReqdSubGroupSizeAttrName).
Abbreviation lowerItems :=
  (lowerFunctionItems target numWarps funcTypeConverter isKernel
     filterFuncAttributes getThreadsPerWarp getKernelFuncAttrName
     getMaxWorkGroupSizeAttrName getReqdSubGroupSizeAttrName).

(** The function pattern succeeds when every type converts. *)
Lemma FuncOpConversion_total module next funcOp :
  (forall t, is_Some (funcTypeConverter t)) ->
  exists g, lower module next funcOp = Success g.
Proof.
  intros Htotal. unfold FuncOpConversion, convertFuncOpToLLVMFuncOp.
  set (amended := if negb (isKernel funcOp)
                  then amendFuncOp filterFuncAttributes next funcOp
                  else funcOp).
  destruct (mapM_total funcTypeConverter (func_inputs amended) Htotal)
    as [params ->].
  assert (Hres : is_Some
                   match func_results amended with
                   | [] => Some LLVMVoidType
                   | tys => packFunctionResults funcTypeConverter tys
                   end).
  { destruct (func_results amended); [by eexists|].
    by apply packFunctionResults_total. }
  destruct Hres as [result ->].
  destruct (mapM_total
              (fun v => mkValue (v_id v) <$> funcTypeConverter (v_type v))
              (func_args amended)) as [args ->].
  { intros v. destruct (Htotal (v_type v)) as [t ->]. by eexists. }
  by eexists.
Qed.

(** Then every [tt.func] of a module is lowered, and nothing else is
    touched. *)
Lemma lowerFunctionItems_total module items : forall next,
  (forall t, is_Some (funcTypeConverter t)) ->
  exists items',
    lowerItems module next items = Some items'
    /\ Forall2 (fun it it' =>
                  match it with
                  | TTFunc f =>
                      exists n g,
                        lower module n f = Success g /\ it' = LLVMFunc g
                  | _ => it' = it
                  end) items items'.
Proof.
  intros next Htotal. revert next.
  induction items as [|it rest IH]; intros next; simpl; [by eexists|].
  destruct it as [f|g|g].
  - destruct (FuncOpConversion_total module next f Htotal) as [g Hg].
    rewrite Hg. destruct (IH (S next)) as (rest' & -> & HF).
    eexists. split; [done|]. constructor; [|done]. by exists next, g.
  - destruct (IH next) as (rest' & -> & HF).
    eexists. split; [done|]. by constructor.
  - destruct (IH next) as (rest' & -> & HF).
    eexists. split; [done|]. by constructor.
Qed.

(** X12.  When every type converts (and, off GENX, the 8-bit integer
    type converts for the global), the lowering of functions,
    [initSharedMemory] and the lowering of calls and returns go through
    one after the other.  Afterwards the module has no [tt.func] and no
    [tt.call]; a [tt.return] is left only with operands and in a
    function marked [nvvm.kernel].  On the GENX target, for a module
    that had no [llvm.func] before, no [tt.return] is left at all: the
    functions lowered there are never marked [nvvm.kernel]. *)
Theorem function_stages_go_through m :
  (forall t, is_Some (funcTypeConverter t)) ->
  target = GENX \/ is_Some (typeConverter i8) ->
  exists m1 m2 m3,
    lowerFunctions target numWarps funcTypeConverter isKernel
      filterFuncAttributes getThreadsPerWarp getKernelFuncAttrName
      getMaxWorkGroupSizeAttrName getReqdSubGroupSizeAttrName m = Some m1
    /\ initSharedMemory typeConverter target m1 = Some m2
    /\ convertCallAndRet funcTypeConverter promoteOperand m2 = Some m3
    /\ (forall it f, it ∈ mod_items m3 -> it <> TTFunc f)
    /\ (forall op operands, op ∈ module_ops m3 -> op_kind op <> CallOp operands)
    /\ (forall it op operands,
           it ∈ mod_items m3 -> op ∈ item_body it ->
           op_kind op = ReturnOp operands ->
           hasAttr (item_attrs it) "nvvm.kernel" = true /\ operands <> [])
    /\ (target = GENX ->
        getKernelFuncAttrName <> "nvvm.kernel"%string ->
        getMaxWorkGroupSizeAttrName <> "nvvm.kernel"%string ->
        getReqdSubGroupSizeAttrName <> "nvvm.kernel"%string ->
        (forall it f, it ∈ mod_items m -> it <> LLVMFunc f) ->
        forall op operands,
          op ∈ module_ops m3 -> op_kind op <> ReturnOp operands).
Proof.
  intros Htotal Hi8.
  destruct (lowerFunctionItems_total m (mod_items m) (nextId m) Htotal)
    as (items1 & Hlower & HF1).
  set (m1 := mkModule (mod_attrs m) items1).
  assert (H1 : lowerFunctions target numWarps funcTypeConverter isKernel
                 filterFuncAttributes getThreadsPerWarp getKernelFuncAttrName
                 getMaxWorkGroupSizeAttrName getReqdSubGroupSizeAttrName m
               = Some m1).
  { unfold lowerFunctions. by rewrite Hlower. }
  assert (Hitems1 : forall it, it ∈ items1 ->
            (exists g, it = LLVMFunc g) \/ (exists g, it = Global g)).
  { intros it' [i Hi]%list_elem_of_lookup.
    destruct (Forall2_lookup_r _ _ _ _ _ HF1 Hi) as (it & _ & Hit).
    destruct it as [f|g|g].
    - destruct Hit as (n & g & _ & ->). left. by eexists.
    - subst. left. by eexists.
    - subst. right. by eexists. }
  assert (H2 : exists m2,
             initSharedMemory typeConverter target m1 = Some m2
             /\ mod_attrs m2 = mod_attrs m
             /\ ((target = GENX /\ mod_items m2 = items1)
                 \/ exists g, mod_items m2 = Global g :: items1)).
  { unfold initSharedMemory.
    destruct target eqn:Ht.
    - destruct Hi8 as [?|[ty ->]]; [done|]. eexists. split; [done|].
      split; [done|]. right. by eexists.
    - destruct Hi8 as [?|[ty ->]]; [done|]. eexists. split; [done|].
      split; [done|]. right. by eexists.
    - exists m1. split; [done|]. split; [done|]. by left. }
  destruct H2 as (m2 & H2 & Hattrs2 & Hitems2).
  assert (Hitems2' : forall it, it ∈ mod_items m2 ->
            (exists g, it = LLVMFunc g) \/ (exists g, it = Global g)).
  { intros it Hit. destruct Hitems2 as [[_ Heq]|[g Heq]]; rewrite Heq in Hit.
    - by apply Hitems1.
    - apply elem_of_cons in Hit as [->|Hit]; [right; by eexists|].
      by apply Hitems1. }
  destruct (convertCallAndRet_is_Some funcTypeConverter promoteOperand m2
              Htotal) as [m3 H3].
  { intros it op Hit Hop. unfold returnInLLVMFunc.
    destruct (op_kind op); try done.
    destruct (Hitems2' it Hit) as [[g ->]|[g ->]]; [by eexists|].
    by apply elem_of_nil in Hop. }
  destruct (convertCallAndRet_left funcTypeConverter promoteOperand m2 m3 H3)
    as [_ HF3].
  exists m1, m2, m3. split; [done|]. split; [done|]. split; [done|].
  assert (Hback : forall it3, it3 ∈ mod_items m3 ->
            exists it2 body',
              it2 ∈ mod_items m2 /\ it3 = item_set_body it2 body'
              /\ Forall (leftByCallAndRet funcTypeConverter it2) body').
  { intros it3 [i Hi]%list_elem_of_lookup.
    destruct (Forall2_lookup_r _ _ _ _ _ HF3 Hi) as (it2 & Hi2 & body' & ? & ?).
    exists it2, body'. split; [by eapply list_elem_of_lookup_2|done]. }
  assert (Hret : forall it op operands,
            it ∈ mod_items m3 -> op ∈ item_body it ->
            op_kind op = ReturnOp operands ->
            hasAttr (item_attrs it) "nvvm.kernel" = true /\ operands <> []).
  { intros it3 op operands Hit3 Hop Hk.
    destruct (Hback it3 Hit3) as (it2 & body' & Hit2 & -> & Hbody).
    rewrite item_attrs_set_body. rewrite item_body_set_body in Hop.
    assert (Hin : op ∈ body').
    { destruct it2; try done. by apply elem_of_nil in Hop. }
    rewrite Forall_forall in Hbody. specialize (Hbody _ Hin).
    unfold leftByCallAndRet in Hbody. by rewrite Hk in Hbody. }
  split.
  { intros it3 f Hit3 ->.
    destruct (Hback _ Hit3) as (it2 & body' & Hit2 & Heq & _).
    destruct (Hitems2' it2 Hit2) as [[g ->]|[g ->]]; done. }
  split.
  { intros op operands (it3 & Hop & Hit3)%list_elem_of_bind.
    destruct (Hback it3 Hit3) as (it2 & body' & Hit2 & -> & Hbody).
    rewrite item_body_set_body in Hop.
    assert (Hin : op ∈ body').
    { destruct it2; try done. by apply elem_of_nil in Hop. }
    rewrite Forall_forall in Hbody.
    by eapply leftByCallAndRet_no_call, Hbody. }
  split; [done|].
  intros Ht Hk Hw Hr Hnollvm op operands
         (it3 & Hop & Hit3)%list_elem_of_bind Hkind.
  destruct (Hret it3 op operands Hit3 Hop Hkind) as [Hmarked _].
  destruct (Hback it3 Hit3) as (it2 & body' & Hit2 & -> & _).
  rewrite item_attrs_set_body in Hmarked.
  assert (Hit1 : it2 ∈ items1).
  { destruct Hitems2 as [[_ Heq]|[g Heq]]; rewrite Heq in Hit2; [done|].
    apply elem_of_cons in Hit2 as [->|Hit2]; [done|done]. }
  apply list_elem_of_lookup in Hit1 as [i Hi].
  destruct (Forall2_lookup_r _ _ _ _ _ HF1 Hi) as (it & Hi0 & Hit).
  destruct it as [f|g|g].
  - destruct Hit as (n & g & Hg & ->). simpl in Hmarked.
    revert Hg. rewrite Ht. intros Hg.
    by rewrite (genx_function_not_marked _ _ _ _ _ _ _ _ _ _ _ _
                  Hk Hw Hr Hg) in Hmarked.
  - eapply Hnollvm; [by eapply list_elem_of_lookup_2|done].
  - by subst.
Qed.

End FunctionStages.

(** The example module of a device function and a kernel that calls
    it, on NVVM: the three stages go through and leave no [tt.func] and
    no [tt.call]. *)
Lemma function_stages_go_through_witness :
  exists m1 m2 m3,
    lowerFunctions NVVM 4 Examples.convertId Examples.isKernelByName
      Examples.keepAttrs (fun _ => 32) Examples.genxKernel
      Examples.genxMaxWorkGroupSize Examples.genxReqdSubGroupSize
      Examples.callModule = Some m1
    /\ initSharedMemory Examples.convertId NVVM m1 = Some m2
    /\ convertCallAndRet Examples.convertId (fun _ v => v) m2 = Some m3
    /\ (forall it f, it ∈ mod_items m3 -> it <> TTFunc f)
    /\ (forall op operands,
           op ∈ module_ops m3 -> op_kind op <> CallOp operands).
Proof.
  destruct (function_stages_go_through NVVM 4 Examples.convertId
              Examples.convertId Examples.isKernelByName Examples.keepAttrs
              (fun _ => 32) Examples.genxKernel Examples.genxMaxWorkGroupSize
              Examples.genxReqdSubGroupSize (fun _ v => v)
              Examples.callModule)
    as (m1 & m2 & m3 & H1 & H2 & H3 & Hfunc & Hcall & _).
  - intros t. by eexists.
  - right. by eexists.
  - by exists m1, m2, m3.
Defined.

(** ** Async-copy decomposition: bounds of the load size (lines 602-625) *)

(** The range of [unsigned]. *)
Lemma u32_range z : 0 <= u32 z < 2 ^ 32.
Proof. unfold u32. apply Z.mod_pos_bound. lia. Qed.

(** The arithmetic of lines 618-625, for a vector width of the source
    that is not negative. *)
Lemma loadSize_arith (w outVec inVec : Z) :
  0 <= inVec -> 0 <= outVec ->
  let minVec := if 1 <? outVec then Z.min outVec inVec else inVec in
  let bits := Z.min (Z.max 128 (u32 w)) (u32 (u32 w * minVec)) in
  0 <= minVec <= inVec
  /\ 0 <= bits / 8
  /\ 8 * (bits / 8) <= Z.max 128 (u32 w)
  /\ 8 * (bits / 8) <= u32 (u32 w * minVec)
  /\ (u32 w <= 128 -> bits / 8 <= 16).
Proof.
  intros Hin Hout minVec bits.
  pose proof (u32_range w). pose proof (u32_range (u32 w * minVec)).
  assert (Hbits : 0 <= bits) by (subst bits; lia).
  pose proof (Z.mul_div_le bits 8 ltac:(lia)).
  pose proof (Z.div_pos bits 8 Hbits ltac:(lia)).
  assert (Hmin : 0 <= minVec <= inVec).
  { subst minVec. destruct (1 <? outVec); lia. }
  repeat split; try lia; subst bits; lia.
Qed.

(** X13.  The vectorized load size.  The computation breaks down
    exactly when the source is no tensor or a tensor without a layout
    (the cast of lines 608-609 is a plain one), or the destination is no
    tensor in a shared layout with integer or float elements; the
    queries of the axis analysis are taken to answer.  Otherwise, with
    all arithmetic in 32-bit unsigned: the vector width is at most the
    contiguity of the source and, with a mask, at most the alignment of
    the mask; the byte width is not negative, eight times it is at most
    the larger of 128 and the element width and at most the (wrapped)
    product of element width and vector width; so for elements of at
    most 128 bits the load is at most 16 bytes wide. *)
Theorem vectorizedLoadSize_bounds getPtrContiguity getMaskAlignment
    src dst mask :
  (vectorizedLoadSize getPtrContiguity getMaskAlignment src dst mask = None
   <-> hasLayout (v_type src) = false \/ isSharedTensor (v_type dst) = false)
  /\ forall minVec byteWidth,
       vectorizedLoadSize getPtrContiguity getMaskAlignment src dst mask
       = Some (minVec, byteWidth) ->
       0 <= minVec <= u32 (getPtrContiguity src)
       /\ (forall m, mask = Some m -> minVec <= u32 (getMaskAlignment m))
       /\ 0 <= byteWidth
       /\ exists dstTy elemBits,
            v_type dst = Tensor dstTy
            /\ getIntOrFloatBitWidth (getElementType dstTy) = Some elemBits
            /\ 8 * byteWidth <= Z.max 128 (u32 elemBits)
            /\ 8 * byteWidth <= u32 (u32 elemBits * minVec)
            /\ (u32 elemBits <= 128 -> byteWidth <= 16).
Proof.
  set (inVec := match mask with
                | Some m => Z.min (u32 (getMaskAlignment m))
                                  (u32 (getPtrContiguity src))
                | None => u32 (getPtrContiguity src)
                end).
  assert (Hin : 0 <= inVec <= u32 (getPtrContiguity src)
                /\ forall m, mask = Some m -> inVec <= u32 (getMaskAlignment m)).
  { subst inVec. pose proof (u32_range (getPtrContiguity src)).
    destruct mask as [m|]; [|by split; [lia|]].
    pose proof (u32_range (getMaskAlignment m)).
    split; [lia|]. intros ? [= <-]. lia. }
  destruct Hin as [Hin Hmask].
  assert (Hsome : forall dstTy vec w minVec byteWidth,
    v_type dst = Tensor dstTy ->
    getIntOrFloatBitWidth (getElementType dstTy) = Some w ->
    Some (if 1 <? u32 vec then Z.min (u32 vec) inVec else inVec,
          Z.min (Z.max 128 (u32 w))
                (u32 (u32 w * (if 1 <? u32 vec then Z.min (u32 vec) inVec
                               else inVec))) / 8)
    = Some (minVec, byteWidth) ->
    0 <= minVec <= u32 (getPtrContiguity src)
    /\ (forall m, mask = Some m -> minVec <= u32 (getMaskAlignment m))
    /\ 0 <= byteWidth
    /\ exists dstTy elemBits,
         v_type dst = Tensor dstTy
         /\ getIntOrFloatBitWidth (getElementType dstTy) = Some elemBits
         /\ 8 * byteWidth <= Z.max 128 (u32 elemBits)
         /\ 8 * byteWidth <= u32 (u32 elemBits * minVec)
         /\ (u32 elemBits <= 128 -> byteWidth <= 16)).
  { intros dstTy vec w minVec bw Hdst Hw [= <- <-].
    destruct (loadSize_arith w (u32 vec) inVec (proj1 Hin)
                (proj1 (u32_range vec)))
      as (H1 & H2 & H3 & H4 & H5).
    split; [lia|]. split; [intros m Hm; specialize (Hmask m Hm); lia|].
    split; [done|]. by exists dstTy, w. }
  unfold vectorizedLoadSize, sharedVec, hasLayout, isSharedTensor,
    dynCastBlocked.
  destruct (v_type src) as [| srcTy | | | |]; simpl;
    try (split; [split; [by left|done]|done]).
  destruct (getEncoding srcTy) as [srcEnc|]; simpl;
    [|destruct (asTensor (v_type dst)); (split; [split; [by left|done]|done])].
  assert (Hcast : forall A (a b : A),
             match match srcEnc with
                   | BlockedEncoding tag => Some (Some (BlockedEncoding tag))
                   | _ => Some None
                   end with
             | Some _ => a
             | None => b
             end = a) by (intros; by destruct srcEnc).
  destruct (v_type dst) as [| dstTy | | | |] eqn:Hdst; simpl; rewrite ?Hcast;
    try (split; [split; [by right|done]|done]).
  destruct (getEncoding dstTy) as [[tag|vec|tag]|]; simpl;
    try (split; [split; [by right|done]|done]).
  destruct (getElementType dstTy) as [w|w|a] eqn:Hel; simpl;
    try (split; [split; [by right|done]|done]);
    (split; [split; [done|by intros [?|?]]|]);
    intros minVec bw; apply (Hsome dstTy vec w); try done; by rewrite Hel.
Qed.

(** The example copy with contiguity 8 and a mask aligned to 2: vector
    width 2, 8 bytes. *)
Lemma vectorizedLoadSize_bounds_witness :
  vectorizedLoadSize (fun _ => 8) (fun _ => 2) Examples.vSrc (Examples.vDst 4)
                     (Some Examples.vMask) = Some (2, 8)
  /\ 0 <= 2 <= u32 8
  /\ (forall m, Some Examples.vMask = Some m -> 2 <= u32 2)
  /\ 0 <= 8.
Proof.
  split; [reflexivity|].
  destruct (proj2 (vectorizedLoadSize_bounds (fun _ => 8) (fun _ => 2)
                     Examples.vSrc (Examples.vDst 4) (Some Examples.vMask))
                  2 8 eq_refl) as (H1 & H2 & H3 & _).
  split; [exact H1|]. split; [exact H2|exact H3].
Defined.

(** ** Async-copy decomposition: the slice that is inserted (lines 635-666) *)

Section DecomposedCopy.
Variable computeCapability : Z.
Variable getPtrContiguity : Value -> Z.
Variable getMaskAlignment : Value -> Z.
Variable getEligibleLoadByteWidth : Z -> gset Z.

Abbreviation visit1 :=
  (decomposeVisit computeCapability getPtrContiguity getMaskAlignment
     getEligibleLoadByteWidth).

(** X14.  The two operations that replace an async copy whose byte
    width is not eligible.  The load has one result, a tensor of the
    shape of the source, the element type of the destination and the
    layout the cast of lines 608-609 gave: the blocked layout of the
    source, or none when the layout of the source is not a blocked one.
    The slice-insert puts that value into the destination; its result
    has the type of the destination and replaces the result of the
    copy.  The two results have fresh, distinct identities.  Offsets,
    sizes and strides have one entry per dimension of the destination:
    at the axis of the copy the offset is the index and the size 1,
    elsewhere the offset is 0 and the size the full extent; every stride
    is 1.  This is so for an axis within the rank of the destination;
    for an axis outside of it the callback breaks down at line 653 and
    there are no replacement operations. *)
Theorem decomposed_copy_slice st op src dst index mask other cache evict
    isVolatile axis srcTy dstTy minVec byteWidth old :
  op_kind op = InsertSliceAsyncOp src dst index mask other cache evict
                                  isVolatile axis ->
  v_type src = Tensor srcTy ->
  v_type dst = Tensor dstTy ->
  vectorizedLoadSize getPtrContiguity getMaskAlignment src dst mask
  = Some (minVec, byteWidth) ->
  byteWidth ∉ getEligibleLoadByteWidth computeCapability ->
  getResult op = Some old ->
  ((getRank dstTy <= axis)%nat -> visit1 st op = None)
  /\ ((axis < getRank dstTy)%nat ->
  exists loadOp insertSliceOp tmp res srcBlocked offsets sizes strides,
    visit1 st op
    = Some (mkDS (S (S (ds_next st))) true, [loadOp; insertSliceOp],
            [(old, res)])
    /\ dynCastBlocked srcTy = Some srcBlocked
    /\ op_results loadOp = [tmp]
    /\ v_id tmp = ds_next st
    /\ v_type tmp = Tensor (mkTensor (getShape srcTy) (getElementType dstTy)
                                     srcBlocked)
    /\ op_kind insertSliceOp = TensorInsertSliceOp tmp dst offsets sizes strides
    /\ op_results insertSliceOp = [res]
    /\ v_id res = S (ds_next st)
    /\ v_type res = v_type dst
    /\ length offsets = getRank dstTy
    /\ length sizes = getRank dstTy
    /\ length strides = getRank dstTy
    /\ forall i extent, getShape dstTy !! i = Some extent ->
         offsets !! i = Some (if decide (i = axis) then OfrValue index
                              else OfrInt 0)
         /\ sizes !! i = Some (if decide (i = axis) then OfrInt 1
                               else OfrInt extent)
         /\ strides !! i = Some (OfrInt 1)).
Proof.
  intros Hk Hsrc Hdst Hsz Hbw Hold.
  assert (Hcast : exists srcBlocked, dynCastBlocked srcTy = Some srcBlocked).
  { unfold vectorizedLoadSize in Hsz. rewrite Hsrc, Hdst in Hsz.
    cbn [asTensor] in Hsz.
    destruct (dynCastBlocked srcTy) as [srcBlocked|]; [by eexists|done]. }
  destruct Hcast as [srcBlocked Hcast].
  split.
  { intros Haxis. unfold decomposeVisit. rewrite Hk, Hsz, Hsrc, Hdst.
    cbn [asTensor]. rewrite bool_decide_eq_false_2 by done.
    unfold sliceOffsets. rewrite Hcast, bool_decide_eq_false_2 by lia.
    done. }
  intros Haxis.
  eexists _, _, _, _, srcBlocked, _, _, _. split.
  { unfold decomposeVisit. rewrite Hk, Hsz, Hsrc, Hdst. cbn [asTensor].
    rewrite bool_decide_eq_false_2 by done.
    unfold sliceOffsets. rewrite Hcast, bool_decide_eq_true_2 by done.
    by rewrite Hold. }
  split; [done|].
  unfold buildLoadOp, buildInsertSliceOp.
  rewrite !addWSNamedAttrs_results, !addWSNamedAttrs_kind. simpl.
  repeat (split; [reflexivity|]).
  unfold sliceSizes, sliceStrides, getRank in *.
  rewrite length_insert, !length_replicate, length_imap.
  do 3 (split; [done|]).
  intros i extent Hi.
  assert (Hlt : (i < length (getShape dstTy))%nat) by by eapply lookup_lt_Some.
  split; [|split].
  - destruct (decide (i = axis)) as [->|Hne].
    + apply list_lookup_insert_eq. by rewrite length_replicate.
    + rewrite list_lookup_insert_ne by done. by apply lookup_replicate_2.
  - rewrite list_lookup_imap, Hi. simpl.
    destruct (decide (i = axis)) as [->|Hne].
    + by rewrite Nat.eqb_refl.
    + by rewrite (proj2 (Nat.eqb_neq _ _) Hne).
  - by apply lookup_replicate_2.
Qed.

End DecomposedCopy.

(** The example copy into the 2x16x16 buffer at axis 0: offsets
    [index, 0, 0], sizes [1, 16, 16], strides [1, 1, 1]. *)
Lemma decomposed_copy_slice_witness :
  exists loadOp insertSliceOp tmp res offsets sizes strides,
    decomposeVisit 70 (fun _ => 1) (fun _ => 1) Examples.eligibleLoadByteWidth
                   (mkDS 5 false) (Examples.asyncCopy 1)
    = Some (mkDS 7 true, [loadOp; insertSliceOp], [(Examples.vRes 1, res)])
    /\ op_results loadOp = [tmp]
    /\ v_id tmp = 5%nat
    /\ v_type tmp
       = Tensor (mkTensor [16; 16] Examples.f32 (Some (BlockedEncoding 0)))
    /\ op_kind insertSliceOp
       = TensorInsertSliceOp tmp (Examples.vDst 1) offsets sizes strides
    /\ op_results insertSliceOp = [res]
    /\ v_id res = 6%nat
    /\ v_type res = v_type (Examples.vDst 1)
    /\ length offsets = 3%nat
    /\ length sizes = 3%nat
    /\ length strides = 3%nat
    /\ forall i extent, [2; 16; 16] !! i = Some extent ->
         offsets !! i = Some (if decide (i = 0%nat)
                              then OfrValue Examples.vIndex else OfrInt 0)
         /\ sizes !! i = Some (if decide (i = 0%nat) then OfrInt 1
                               else OfrInt extent)
         /\ strides !! i = Some (OfrInt 1).
Proof.
  destruct (decomposed_copy_slice 70 (fun _ => 1) (fun _ => 1)
              Examples.eligibleLoadByteWidth (mkDS 5 false)
              (Examples.asyncCopy 1)
              Examples.vSrc (Examples.vDst 1) Examples.vIndex
              (Some Examples.vMask)
              None 1 1 false 0%nat Examples.srcTensor (Examples.dstTensor 1)
              1 4 (Examples.vRes 1))
    as [_ Hslice].
  - reflexivity.
  - reflexivity.
  - reflexivity.
  - reflexivity.
  - vm_compute. set_solver.
  - reflexivity.
  - destruct Hslice
      as (loadOp & insertSliceOp & tmp & res & srcBlocked & offsets & sizes
          & strides & Hrun & Hcast & Hrest); [vm_compute; lia|].
    injection Hcast as <-.
    exists loadOp, insertSliceOp, tmp, res, offsets, sizes, strides.
    split; [exact Hrun|exact Hrest].
Defined.

(** ** Async-copy decomposition: no use of a decomposed copy is left (lines 599-667) *)

(** The elements of a list after an update at one index. *)
Lemma elem_of_insert_inv {A} (l : list A) i v x :
  x ∈ <[i := v]> l -> x = v \/ x ∈ l.
Proof.
  intros [j Hj]%list_elem_of_lookup.
  apply list_lookup_insert_Some in Hj as [(-> & -> & _)|[_ Hj]]; [by left|].
  right. by eapply list_elem_of_lookup_2.
Qed.

(** Of offsets, sizes and strides only the offsets hold a value: the
    index. *)
Lemma sliceOffsets_values dstTy axis index offsets u :
  sliceOffsets dstTy axis index = Some offsets ->
  u ∈ offsets ≫= ofrValues -> u = index.
Proof.
  unfold sliceOffsets. case_bool_decide; [|done]. intros [= <-].
  intros (o & Hu & Ho)%list_elem_of_bind.
  apply elem_of_insert_inv in Ho as [->|Ho].
  - by apply list_elem_of_singleton in Hu.
  - apply elem_of_replicate_inv in Ho as ->. by apply elem_of_nil in Hu.
Qed.

Lemma sliceSizes_values dstTy axis u :
  u ∈ sliceSizes dstTy axis ≫= ofrValues -> False.
Proof.
  intros (o & Hu & Ho)%list_elem_of_bind.
  apply elem_of_lookup_imap_1 in Ho as (i & extent & -> & _).
  destruct (Nat.eqb i axis); by apply elem_of_nil in Hu.
Qed.

Lemma sliceStrides_values dstTy u :
  u ∈ sliceStrides dstTy ≫= ofrValues -> False.
Proof.
  intros (o & Hu & Ho)%list_elem_of_bind.
  apply elem_of_replicate_inv in Ho as ->. by apply elem_of_nil in Hu.
Qed.

Lemma isInsertSliceAsync_mapOpOperands f op :
  isInsertSliceAsync (mapOpOperands f op) = isInsertSliceAsync op.
Proof. destruct op as [[] ? ?]; done. Qed.

Lemma replaceAllUsesWith_one old new l :
  replaceAllUsesWith [(old, new)] l = mapOpOperands (rauw old new) <$> l.
Proof. done. Qed.

Lemma copyRemains_mono a b old :
  (forall op, op ∈ a -> isInsertSliceAsync op = true ->
              exists op', op' ∈ b /\ isInsertSliceAsync op' = true
                          /\ getResult op' = getResult op) ->
  copyRemains a old -> copyRemains b old.
Proof.
  intros H (op & old' & Hin & Hk & Hr & Hid).
  destruct (H op Hin Hk) as (op' & Hin' & Hk' & Hr').
  exists op', old'. by rewrite Hr'.
Qed.

Section CopyUses.
Variable computeCapability : Z.
Variable getPtrContiguity : Value -> Z.
Variable getMaskAlignment : Value -> Z.
Variable getEligibleLoadByteWidth : Z -> gset Z.

Abbreviation visit1 :=
  (decomposeVisit computeCapability getPtrContiguity getMaskAlignment
     getEligibleLoadByteWidth).

(** The two ways the callback of the first walk returns: the operation
    is left alone (an async copy only with an eligible byte width), or
    it is an async copy with a result and gives way to a load and a
    slice-insert, with the uses of its result replaced. *)
Lemma decomposeVisit_cases st op st' new_ops reps :
  visit1 st op = Some (st', new_ops, reps) ->
  (st' = st /\ new_ops = [op] /\ reps = []
   /\ (isInsertSliceAsync op = true ->
       exists byteWidth, byteWidth ∈ getEligibleLoadByteWidth computeCapability))
  \/ exists src dst index mask other cache evict isVolatile axis srcTy dstTy
            srcBlocked offsets old,
       op_kind op = InsertSliceAsyncOp src dst index mask other cache evict
                                       isVolatile axis
       /\ sliceOffsets dstTy axis index = Some offsets
       /\ getResult op = Some old
       /\ st' = mkDS (S (S (ds_next st))) true
       /\ new_ops = [buildLoadOp (ds_next st) op srcTy dstTy srcBlocked src
                                 mask other cache evict isVolatile;
                     buildInsertSliceOp (ds_next st) op srcTy dstTy srcBlocked
                                        dst offsets axis]
       /\ reps = [(old, insertSliceResult (ds_next st) dst)].
Proof.
  unfold decomposeVisit, isInsertSliceAsync.
  destruct (op_kind op) eqn:Hk;
    try (intros [= <- <- <-]; left; by repeat split).
  destruct (vectorizedLoadSize _ _ _ _ _) as [[minVec bw]|]; [|done].
  destruct (asTensor (v_type src)) as [srcTy|]; [|done].
  destruct (asTensor (v_type dst)) as [dstTy|]; [|done].
  case_bool_decide as Hbw.
  - intros [= <- <- <-]. left. repeat split. intros _. by exists bw.
  - destruct (dynCastBlocked srcTy) as [srcBlocked|]; [|done].
    destruct (sliceOffsets dstTy axis index) as [offsets|] eqn:Hoff; [|done].
    destruct (getResult op) as [old|] eqn:Hold; [|done].
    intros [= <- <- <-]. right.
    by eexists _, _, _, _, _, _, _, _, _, srcTy, dstTy, srcBlocked, offsets, old.
Qed.

Section Block.
Variable orig : list Operation.
Variable next0 : nat.
Hypothesis Horig :
  forall op v, op ∈ orig -> v ∈ op_values op -> (v_id v < next0)%nat.

(** A visit keeps the invariant. *)
Lemma DecompInv_step st done op rest st' new_ops reps :
  DecompInv orig next0 st done (op :: rest) ->
  visit1 st op = Some (st', new_ops, reps) ->
  DecompInv orig next0 st' (replaceAllUsesWith reps (done ++ new_ops))
            (replaceAllUsesWith reps rest).
Proof.
  intros [Hle Hinv] Hv.
  apply decomposeVisit_cases in Hv
    as [(-> & -> & -> & _)
       |(src & dst & index & mask & other & cache & evict & isVolatile & axis
         & srcTy & dstTy & srcBlocked & offsets & old0 & Hk & Hoff & Hold0
         & -> & -> & ->)].
  { rewrite !replaceAllUsesWith_nil. split; [done|].
    intros o old Ho Hka Hr. rewrite <- app_assoc. by apply (Hinv o). }
  split; [simpl; lia|].
  intros o old Ho Hka Hr.
  assert (Hold : (v_id old < next0)%nat).
  { apply (Horig o); [done|]. unfold op_values. apply elem_of_app. left.
    unfold getResult in Hr. destruct (op_results o); [done|].
    injection Hr as ->. apply list_elem_of_here. }
  rewrite !replaceAllUsesWith_one, <- fmap_app, <- app_assoc.
  set (new := insertSliceResult (ds_next st) dst).
  set (load := buildLoadOp _ _ _ _ _ _ _ _ _ _ _).
  set (ins := buildInsertSliceOp _ _ _ _ _ _ _ _).
  (* no use of [old] once the uses of [old0] are replaced, provided the
     operands that are kept do not have the identity of [old] *)
  assert (Hnouse :
    (forall user u, user ∈ done ++ [load; ins] ++ rest ->
                    u ∈ getOperands (op_kind user) ->
                    same_value u old0 = false -> v_id u <> v_id old) ->
    ~ isUsedIn (mapOpOperands (rauw old0 new) <$> done ++ [load; ins] ++ rest)
               old).
  { intros Hkeep (user & u & Huser & Hu & Hid).
    apply list_elem_of_fmap in Huser as (user0 & -> & Huser0).
    simpl in Hu. rewrite getOperands_mapOperands in Hu.
    apply list_elem_of_fmap in Hu as (u0 & -> & Hu0).
    unfold rauw in Hid. destruct (same_value u0 old0) eqn:Hsame.
    - subst new. simpl in Hid. lia.
    - by apply (Hkeep user0 u0). }
  (* the operands of the two new operations *)
  assert (Hnew : forall user u, user ∈ [load; ins] ->
                   u ∈ getOperands (op_kind user) ->
                   v_id u = ds_next st \/ u ∈ getOperands (op_kind op)).
  { intros user u Huser Hu. rewrite Hk.
    apply elem_of_cons in Huser as [->|Huser].
    - right. subst load. unfold buildLoadOp in Hu.
      rewrite addWSNamedAttrs_kind in Hu. simpl in Hu. simpl.
      apply elem_of_cons in Hu as [->|Hu]; [apply list_elem_of_here|].
      by do 3 apply list_elem_of_further.
    - apply list_elem_of_singleton in Huser as ->.
      subst ins. unfold buildInsertSliceOp in Hu.
      rewrite addWSNamedAttrs_kind in Hu. cbn [op_kind getOperands] in Hu.
      rewrite !elem_of_app in Hu.
      destruct Hu as [Hu|[Hu|[Hu|Hu]]].
      + apply elem_of_cons in Hu as [->|Hu]; [by left|].
        apply list_elem_of_singleton in Hu as ->. right. simpl. set_solver.
      + apply (sliceOffsets_values _ _ _ _ _ Hoff) in Hu as ->.
        right. simpl. set_solver.
      + by apply sliceSizes_values in Hu.
      + by apply sliceStrides_values in Hu. }
  destruct (Hinv o old Ho Hka Hr) as [(op' & old' & Hin & Hk' & Hr' & Hid)|Hno].
  - apply elem_of_app in Hin as [Hin|Hin];
      [|apply elem_of_cons in Hin as [->|Hin]].
    + left. exists (mapOpOperands (rauw old0 new) op'), old'.
      split; [apply list_elem_of_fmap; eexists; split; [done|];
              apply elem_of_app; by left|].
      by rewrite isInsertSliceAsync_mapOpOperands.
    + (* the copy that carried [old] is the one taken apart *)
      right. rewrite Hold0 in Hr'. injection Hr' as <-.
      apply Hnouse. intros user u _ _ Hsame Hu.
      unfold same_value in Hsame. apply Nat.eqb_neq in Hsame. congruence.
    + left. exists (mapOpOperands (rauw old0 new) op'), old'.
      split; [apply list_elem_of_fmap; eexists; split; [done|];
              rewrite !elem_of_app; by right; right|].
      by rewrite isInsertSliceAsync_mapOpOperands.
  - right. apply Hnouse. intros user u Huser Hu _ Hid.
    rewrite !elem_of_app in Huser. destruct Huser as [Huser|[Huser|Huser]].
    + apply Hno. exists user, u. split; [apply elem_of_app; by left|done].
    + destruct (Hnew user u Huser Hu) as [Hfresh|Hop]; [lia|].
      apply Hno. exists op, u.
      split; [apply elem_of_app; right; apply list_elem_of_here|done].
    + apply Hno. exists user, u.
      split; [apply elem_of_app; right; by apply list_elem_of_further|done].
Qed.

Lemma DecompInv_walkBlock st st' out :
  (next0 <= ds_next st)%nat ->
  walkBlock visit1 st orig = Some (st', out) ->
  DecompInv orig next0 st' out [].
Proof.
  intros Hle Hwalk.
  refine (walk_invariant _ (DecompInv orig next0) _ (length orig) st [] orig
            st' out _ _ Hwalk); [|done|].
  - intros. by eapply DecompInv_step.
  - split; [done|]. intros o old Ho Hka Hr. left. by exists o, old.
Qed.

End Block.
End CopyUses.

(** An edit of the markers of a block: every operation stays, goes, or
    gives way to an operation without operands that is no async copy;
    async copies stay. *)
Section MarkerEdit.
Variable f : Operation -> list Operation.
Hypothesis Hf :
  forall x y, y ∈ f x ->
    y = x \/ (getOperands (op_kind y) = [] /\ isInsertSliceAsync y = false).
Hypothesis Hcopy : forall x, isInsertSliceAsync x = true -> f x = [x].

Lemma marker_edit_copyRemains body old :
  copyRemains body old -> copyRemains (body ≫= f) old.
Proof.
  apply copyRemains_mono. intros op Hin Hk. exists op. split; [|done].
  apply list_elem_of_bind. exists op. split; [|done].
  rewrite Hcopy by done. apply list_elem_of_here.
Qed.

Lemma marker_edit_isUsedIn body old :
  isUsedIn (body ≫= f) old -> isUsedIn body old.
Proof.
  intros (user & u & (x & Hy & Hx)%list_elem_of_bind & Hu & Hid).
  destruct (Hf _ _ Hy) as [->|[Hnone _]]; [by exists x, u|].
  rewrite Hnone in Hu. by apply elem_of_nil in Hu.
Qed.

Lemma marker_edit_no_copy body :
  Forall (fun o => isInsertSliceAsync o = false) body ->
  Forall (fun o => isInsertSliceAsync o = false) (body ≫= f).
Proof.
  rewrite !Forall_forall. intros H y (x & Hy & Hx)%list_elem_of_bind.
  destruct (Hf _ _ Hy) as [->|[_ Hn]]; [by apply H|done].
Qed.

End MarkerEdit.

Section CopyUsesModule.
Variable computeCapability : Z.
Variable target : Target.
Variable getPtrContiguity : Value -> Z.
Variable getMaskAlignment : Value -> Z.
Variable getEligibleLoadByteWidth : Z -> gset Z.
Variable asyncCommitGroupIsSupported : Z -> bool.
Variable asyncWaitIsSupported : Z -> bool.

Abbreviation decompose :=
  (decomposeInsertSliceAsyncOp_flag computeCapability target getPtrContiguity
     getMaskAlignment getEligibleLoadByteWidth asyncCommitGroupIsSupported
     asyncWaitIsSupported).
Abbreviation visit1 :=
  (decomposeVisit computeCapability getPtrContiguity getMaskAlignment
     getEligibleLoadByteWidth).
(** The callbacks of the second and third walk, as functions from the
    operation visited to the operations in its place. *)
Abbreviation commitEdit :=
  (fun op : Operation =>
     if isAsyncCommitGroup op
        && negb (asyncCommitGroupIsSupported computeCapability)
     then [] else [op]).
Abbreviation waitEdit d :=
  (fun op : Operation =>
     if isAsyncWait op
     then if negb (asyncWaitIsSupported computeCapability) then []
          else if (d : bool)
               then [addWSNamedAttrs (mkOp (AsyncWaitOp 0) [] ∅) (getAttrs op)]
               else [op]
     else [op]).

Lemma commitEdit_marker x y :
  y ∈ commitEdit x ->
  y = x \/ (getOperands (op_kind y) = [] /\ isInsertSliceAsync y = false).
Proof.
  cbv beta.
  destruct (isAsyncCommitGroup x
            && negb (asyncCommitGroupIsSupported computeCapability));
    [by intros ?%elem_of_nil|].
  intros ->%list_elem_of_singleton. by left.
Qed.

Lemma commitEdit_copy x : isInsertSliceAsync x = true -> commitEdit x = [x].
Proof.
  unfold isInsertSliceAsync, isAsyncCommitGroup. by destruct (op_kind x).
Qed.

Lemma waitEdit_marker d x y :
  y ∈ waitEdit d x ->
  y = x \/ (getOperands (op_kind y) = [] /\ isInsertSliceAsync y = false).
Proof.
  cbv beta.
  destruct (isAsyncWait x); [|intros ->%list_elem_of_singleton; by left].
  destruct (negb (asyncWaitIsSupported computeCapability));
    [by intros ?%elem_of_nil|].
  destruct d; intros ->%list_elem_of_singleton; [right|by left].
  unfold isInsertSliceAsync. by rewrite addWSNamedAttrs_kind.
Qed.

Lemma waitEdit_copy d x : isInsertSliceAsync x = true -> waitEdit d x = [x].
Proof. unfold isInsertSliceAsync, isAsyncWait. by destruct (op_kind x). Qed.

(** What the second and third walk make of the module the first walk
    returns, on GENX. *)
Lemma decompose_walks_items m d m' :
  target = GENX ->
  decompose m = Some (d, m') ->
  exists st1 m1,
    walkModule (fun _ => visit1) (mkDS (nextId m) false) m = Some (st1, m1)
    /\ d = ds_decomposed st1
    /\ mod_items m'
       = (fun it => item_set_body it (item_body it ≫= waitEdit d))
           <$> ((fun it => item_set_body it (item_body it ≫= commitEdit))
                  <$> mod_items m1).
Proof.
  intros -> Hrun. unfold decomposeInsertSliceAsyncOp_flag in Hrun.
  rewrite bool_decide_eq_false_2 in Hrun by (intros H; by apply H).
  destruct (walkModule _ _ m) as [[st1 m1]|] eqn:H1; [|done].
  exists st1, m1. split; [done|].
  rewrite (walkModule_local _ (fun _ => commitEdit)) in Hrun.
  2:{ intros _ op. unfold commitVisit, isAsyncCommitGroup.
      destruct (op_kind op); try done.
      by destruct (asyncCommitGroupIsSupported computeCapability). }
  rewrite (walkModule_local _ (fun _ => waitEdit (ds_decomposed st1))) in Hrun.
  2:{ intros _ op. unfold waitVisit, isAsyncWait.
      destruct (op_kind op); try done.
      destruct (asyncWaitIsSupported computeCapability); [|done].
      by destruct (ds_decomposed st1). }
  by injection Hrun as <- <-.
Qed.

(** Without an eligible byte width the first walk leaves no async copy
    in a block. *)
Lemma no_copy_walkBlock st ops st' out :
  getEligibleLoadByteWidth computeCapability = ∅ ->
  walkBlock visit1 st ops = Some (st', out) ->
  Forall (fun o => isInsertSliceAsync o = false) out.
Proof.
  intros Hempty Hwalk.
  refine (walk_invariant _
            (fun _ done _ => Forall (fun o => isInsertSliceAsync o = false) done)
            _ (length ops) st [] ops st' out _ _ Hwalk); [|done|done].
  intros s done op rest s' new_ops reps HInv Hv. cbv beta in *.
  apply replaceAllUsesWith_Forall.
  { intros g o. by rewrite isInsertSliceAsync_mapOpOperands. }
  apply Forall_app. split; [done|].
  apply decomposeVisit_cases in Hv
    as [(-> & -> & -> & Hel)
       |(src & dst & index & mask & other & cache & evict & isVolatile & axis
         & srcTy & dstTy & srcBlocked & offsets & old0 & Hk & Hoff & Hold0
         & -> & -> & ->)].
  - apply Forall_singleton. destruct (isInsertSliceAsync op); [|done].
    destruct Hel as [bw Hbw]; [done|]. rewrite Hempty in Hbw.
    by apply elem_of_empty in Hbw.
  - unfold buildLoadOp, buildInsertSliceOp, isInsertSliceAsync.
    repeat constructor; by rewrite addWSNamedAttrs_kind.
Qed.

(** X15.  What becomes of the results of the async copies, on GENX,
    function by function.  The result of every async copy of the module
    either is still the result of an async copy afterwards (the copy
    was left alone) or has no use left: every use went over to the
    slice-insert, and the copy is gone.  When the capability has no
    eligible byte width at all, no async copy is left in the module and
    no result of an async copy has a use. *)
Theorem decomposed_copy_has_no_use m d m' :
  target = GENX ->
  decompose m = Some (d, m') ->
  Forall2 (fun it it' =>
             forall op old,
               op ∈ item_body it -> isInsertSliceAsync op = true ->
               getResult op = Some old ->
               copyRemains (item_body it') old
               \/ ~ isUsedIn (item_body it') old)
          (mod_items m) (mod_items m')
  /\ (getEligibleLoadByteWidth computeCapability = ∅ ->
      (forall op, op ∈ module_ops m' -> isInsertSliceAsync op = false)
      /\ Forall2 (fun it it' =>
                    forall op old,
                      op ∈ item_body it -> isInsertSliceAsync op = true ->
                      getResult op = Some old ->
                      ~ isUsedIn (item_body it') old)
                 (mod_items m) (mod_items m')).
Proof.
  intros Ht Hrun.
  destruct (decompose_walks_items _ _ _ Ht Hrun)
    as (st1 & m1 & H1 & -> & Hitems).
  unfold walkModule in H1.
  destruct (walkItems _ _ _) as [[st1' items1]|] eqn:Hw; [|done].
  injection H1 as -> <-. cbn [mod_items] in Hitems.
  (* the first walk, body by body *)
  destruct (walkItems_Forall2 (fun _ => visit1)
              (fun st => (nextId m <= ds_next st)%nat)
              (fun it => it ∈ mod_items m)
              (fun it body' =>
                 (forall op old,
                     op ∈ item_body it -> isInsertSliceAsync op = true ->
                     getResult op = Some old ->
                     copyRemains body' old \/ ~ isUsedIn body' old)
                 /\ (getEligibleLoadByteWidth computeCapability = ∅ ->
                     Forall (fun o => isInsertSliceAsync o = false) body')))
    with (items := mod_items m) (st := mkDS (nextId m) false) (st' := st1)
         (items' := items1)
    as [_ HF]; try done.
  { intros it st st' body' Hit Hst Hb.
    assert (Hinv : DecompInv (item_body it) (nextId m) st' body' []).
    { eapply DecompInv_walkBlock; [|done|exact Hb].
      intros op v. by apply nextId_fresh. }
    destruct Hinv as [Hle Hinv]. rewrite app_nil_r in Hinv.
    split; [done|]. split; [done|].
    intros Hempty. by eapply no_copy_walkBlock. }
  { by apply Forall_forall. }
  (* the two walks over the markers *)
  assert (Hbody : Forall2
            (fun it it' => exists body1,
                 (item_body it = [] /\ item_body it' = []
                  \/ item_body it'
                     = (body1 ≫= commitEdit) ≫= waitEdit (ds_decomposed st1))
                 /\ (forall op old,
                        op ∈ item_body it -> isInsertSliceAsync op = true ->
                        getResult op = Some old ->
                        copyRemains body1 old \/ ~ isUsedIn body1 old)
                 /\ (getEligibleLoadByteWidth computeCapability = ∅ ->
                     Forall (fun o => isInsertSliceAsync o = false) body1))
            (mod_items m) (mod_items m')).
  { rewrite Hitems. do 2 apply Forall2_fmap_r.
    eapply Forall2_impl; [exact HF|]. cbv beta.
    intros it it1 (body1 & -> & Hq1 & Hq2). exists body1.
    split; [|done]. rewrite !item_body_set_body.
    destruct it; [by right|by right|by left]. }
  assert (Htransport : forall body1 old,
            (copyRemains body1 old ->
             copyRemains ((body1 ≫= commitEdit)
                            ≫= waitEdit (ds_decomposed st1)) old)
            /\ (isUsedIn ((body1 ≫= commitEdit)
                            ≫= waitEdit (ds_decomposed st1)) old ->
                isUsedIn body1 old)
            /\ (Forall (fun o => isInsertSliceAsync o = false) body1 ->
                Forall (fun o => isInsertSliceAsync o = false)
                       ((body1 ≫= commitEdit)
                          ≫= waitEdit (ds_decomposed st1)))).
  { intros body1 old. split; [|split].
    - intros H. apply marker_edit_copyRemains; [apply waitEdit_copy|].
      apply marker_edit_copyRemains; [apply commitEdit_copy|done].
    - intros H.
      apply (marker_edit_isUsedIn _ commitEdit_marker).
      by apply (marker_edit_isUsedIn _ (waitEdit_marker _)) in H.
    - intros H.
      apply (marker_edit_no_copy _ (waitEdit_marker _)).
      by apply (marker_edit_no_copy _ commitEdit_marker). }
  split.
  - eapply Forall2_impl; [exact Hbody|]. cbv beta.
    intros it it' (body1 & [[Hnil _]|Hb] & Hq1 & _) op old Hop Hk Hr.
    { rewrite Hnil in Hop. by apply elem_of_nil in Hop. }
    rewrite Hb. destruct (Htransport body1 old) as (Hc & Hu & _).
    destruct (Hq1 op old Hop Hk Hr) as [?|Hno]; [left; by apply Hc|].
    right. intros ?. by apply Hno, Hu.
  - intros Hempty.
    assert (Hnone : Forall2
              (fun it it' =>
                 Forall (fun o => isInsertSliceAsync o = false) (item_body it')
                 /\ forall op old,
                      op ∈ item_body it -> isInsertSliceAsync op = true ->
                      getResult op = Some old ->
                      ~ isUsedIn (item_body it') old)
              (mod_items m) (mod_items m')).
    { eapply Forall2_impl; [exact Hbody|]. cbv beta.
      intros it it' (body1 & [[Hnil Hnil']|Hb] & Hq1 & Hq2).
      { rewrite Hnil, Hnil'. split; [done|].
        intros op old Hop. by apply elem_of_nil in Hop. }
      rewrite Hb. destruct (Htransport body1 (mkValue 0 LLVMVoidType))
        as (_ & _ & Hn).
      split; [by apply Hn, Hq2|].
      intros op old Hop Hk Hr Hused.
      destruct (Htransport body1 old) as (_ & Hu & _).
      destruct (Hq1 op old Hop Hk Hr) as [(op' & old' & Hin & Hk' & _)|Hno];
        [|by apply Hno, Hu].
      specialize (Hq2 Hempty). rewrite Forall_forall in Hq2.
      rewrite (Hq2 _ Hin) in Hk'. done. }
    split.
    + intros op (it' & Hop & Hit')%list_elem_of_bind.
      apply Forall2_Forall_r with (Q := fun it' =>
        Forall (fun o => isInsertSliceAsync o = false) (item_body it'))
        in Hnone.
      * rewrite Forall_forall in Hnone. specialize (Hnone _ Hit').
        rewrite Forall_forall in Hnone. by apply Hnone.
      * apply Forall_forall. intros it _ it'' [H _]. exact H.
    + eapply Forall2_impl; [exact Hnone|]. cbv beta. by intros it it' [_ H].
Qed.

End CopyUsesModule.

(** The example kernel on a device without async copies: the copy is
    gone and the layout conversion that read its result reads it no
    more. *)
Lemma decomposed_copy_has_no_use_witness :
  exists d m',
    decomposeInsertSliceAsyncOp_flag 70 GENX (fun _ => 1) (fun _ => 1)
      Examples.noAsyncCopy Examples.asyncSupported Examples.asyncSupported
      Examples.pipelinedModule = Some (d, m')
    /\ (forall op, op ∈ module_ops m' -> isInsertSliceAsync op = false)
    /\ Forall2 (fun it it' =>
                  forall op old,
                    op ∈ item_body it -> isInsertSliceAsync op = true ->
                    getResult op = Some old ->
                    ~ isUsedIn (item_body it') old)
               (mod_items Examples.pipelinedModule) (mod_items m').
Proof.
  destruct (decomposeInsertSliceAsyncOp_flag 70 GENX (fun _ => 1) (fun _ => 1)
              Examples.noAsyncCopy Examples.asyncSupported
              Examples.asyncSupported Examples.pipelinedModule)
    as [[d m']|] eqn:Hrun; [|by vm_compute in Hrun].
  exists d, m'. split; [reflexivity|].
  exact (proj2 (decomposed_copy_has_no_use 70 GENX (fun _ => 1) (fun _ => 1)
                  Examples.noAsyncCopy Examples.asyncSupported
                  Examples.asyncSupported Examples.pipelinedModule d m'
                  eq_refl Hrun) eq_refl).
Defined.

(** ** Async-copy decomposition: what the three walks keep (lines 569-687) *)

(** A walk whose callback leaves every operation alone returns the
    block as it is. *)
Lemma walk_id {St : Type}
    (visit : St -> Operation ->
             option (St * list Operation * list (Value * Value))) st :
  forall fuel done todo,
    (length todo <= fuel)%nat ->
    Forall (fun op => visit st op = Some (st, [op], [])) todo ->
    walk visit fuel st done todo = Some (st, done ++ todo).
Proof.
  induction fuel as [|n IH]; intros done todo Hlen HF.
  - destruct todo; simpl in *; [by rewrite app_nil_r | lia].
  - destruct todo as [|op rest]; simpl; [by rewrite app_nil_r|].
    inversion HF as [|? ? Hop Hrest]; subst. rewrite Hop.
    rewrite !replaceAllUsesWith_nil.
    rewrite IH; [by rewrite <- app_assoc | simpl in Hlen; lia | done].
Qed.

Lemma walkItems_id {St : Type}
    (visit : ModuleItem -> St -> Operation ->
             option (St * list Operation * list (Value * Value))) st items :
  Forall (fun it => Forall (fun op => visit it st op = Some (st, [op], []))
                           (item_body it)) items ->
  walkItems visit st items = Some (st, items).
Proof.
  induction 1 as [|it rest Hit _ IH]; simpl; [done|].
  unfold walkBlock. rewrite walk_id by done. simpl.
  by rewrite IH, item_set_body_same.
Qed.

(** Replacing uses does not change the operations of a kind that has
    no operands. *)
Lemma filter_replaceAllUsesWith (P : Operation -> bool) reps : forall l,
  (forall f op, P (mapOpOperands f op) = P op) ->
  (forall f op, P op = true -> mapOpOperands f op = op) ->
  filter (fun o => P o = true) (replaceAllUsesWith reps l)
  = filter (fun o => P o = true) l.
Proof.
  induction reps as [|p reps IH]; intros l HP Hfix; [done|].
  unfold replaceAllUsesWith in *. simpl. rewrite IH by done.
  induction l as [|op l IHl]; [done|].
  rewrite fmap_cons, !filter_cons, HP, IHl.
  destruct (decide (P op = true)) as [Hop|]; [|done].
  by rewrite Hfix.
Qed.

(** A walk whose callback neither adds nor removes operations picked
    by [P] keeps them, when they have no operands. *)
Lemma walk_filter {St : Type}
    (visit : St -> Operation ->
             option (St * list Operation * list (Value * Value)))
    (P : Operation -> bool) :
  (forall f op, P (mapOpOperands f op) = P op) ->
  (forall f op, P op = true -> mapOpOperands f op = op) ->
  (forall st op st' new_ops reps,
      visit st op = Some (st', new_ops, reps) ->
      filter (fun o => P o = true) new_ops = filter (fun o => P o = true) [op]) ->
  forall ops st st' out,
    walkBlock visit st ops = Some (st', out) ->
    filter (fun o => P o = true) out = filter (fun o => P o = true) ops.
Proof.
  intros HP Hfix Hvisit ops st st' out Hwalk.
  pose (Inv := fun (_ : St) (done todo : list Operation) =>
                 filter (fun o => P o = true) (done ++ todo)
                 = filter (fun o => P o = true) ops).
  assert (Hfin : Inv st' out []).
  { refine (walk_invariant _ Inv _ (length ops) st [] ops st' out _ _ Hwalk);
      [|done|done].
    intros s done op rest s' new_ops reps HInv Hv. unfold Inv in *.
    rewrite <- HInv.
    rewrite !filter_app, !filter_replaceAllUsesWith by done.
    rewrite filter_app, (Hvisit _ _ _ _ _ Hv), <- app_assoc.
    f_equal. by rewrite <- filter_app. }
  unfold Inv in Hfin. by rewrite app_nil_r in Hfin.
Qed.

Lemma walkItems_filter {St : Type}
    (visit : ModuleItem -> St -> Operation ->
             option (St * list Operation * list (Value * Value)))
    (P : Operation -> bool) :
  (forall f op, P (mapOpOperands f op) = P op) ->
  (forall f op, P op = true -> mapOpOperands f op = op) ->
  (forall it st op st' new_ops reps,
      visit it st op = Some (st', new_ops, reps) ->
      filter (fun o => P o = true) new_ops = filter (fun o => P o = true) [op]) ->
  forall items st st' items',
    walkItems visit st items = Some (st', items') ->
    filter (fun o => P o = true) (items' ≫= item_body)
    = filter (fun o => P o = true) (items ≫= item_body).
Proof.
  intros HP Hfix Hvisit.
  induction items as [|it rest IH]; intros st st' items' Hwalk; simpl in Hwalk.
  - by injection Hwalk as <- <-.
  - destruct (walkBlock (visit it) st (item_body it)) as [[st1 body']|] eqn:Hb;
      [|done].
    destruct (walkItems visit st1 rest) as [[st2 rest']|] eqn:Hr; [|done].
    injection Hwalk as <- <-.
    rewrite !bind_cons, !filter_app, (IH _ _ _ Hr). f_equal.
    rewrite item_body_set_body.
    destruct it;
      try exact (walk_filter (visit _) P HP Hfix (Hvisit _) _ _ _ _ Hb).
    done.
Qed.

(** The operations of a module after an edit that is local to each
    operation. *)
Lemma module_ops_local_bind (f : Operation -> list Operation) attrs items :
  module_ops (mkModule attrs
                ((fun it => item_set_body it (item_body it ≫= f)) <$> items))
  = module_ops (mkModule attrs items) ≫= f.
Proof.
  unfold module_ops. simpl.
  induction items as [|it rest IH]; [done|].
  rewrite fmap_cons, !bind_cons, bind_app, IH. f_equal.
  rewrite item_body_set_body. by destruct it.
Qed.

Lemma isAsyncCommitGroup_mapOpOperands f op :
  isAsyncCommitGroup (mapOpOperands f op) = isAsyncCommitGroup op.
Proof. destruct op as [[] ? ?]; done. Qed.

Lemma isAsyncCommitGroup_fixed f op :
  isAsyncCommitGroup op = true -> mapOpOperands f op = op.
Proof. destruct op as [[] ? ?]; done. Qed.

Lemma isAsyncWait_mapOpOperands f op :
  isAsyncWait (mapOpOperands f op) = isAsyncWait op.
Proof. destruct op as [[] ? ?]; done. Qed.

Lemma isAsyncWait_fixed f op :
  isAsyncWait op = true -> mapOpOperands f op = op.
Proof. destruct op as [[] ? ?]; done. Qed.

Lemma filter_bind_same (P : Operation -> bool) (f : Operation -> list Operation) l :
  (forall op, filter (fun o => P o = true) (f op)
              = filter (fun o => P o = true) [op]) ->
  filter (fun o => P o = true) (l ≫= f) = filter (fun o => P o = true) l.
Proof.
  intros Hf. induction l as [|op l IH]; [done|].
  rewrite bind_cons, filter_app, IH, Hf.
  by rewrite <- filter_app.
Qed.

Lemma filter_bind_wait (sup d : bool) l :
  filter (fun o => isAsyncWait o = true)
         (l ≫= (fun op =>
                  if isAsyncWait op
                  then if negb sup then []
                       else if d
                            then [addWSNamedAttrs (mkOp (AsyncWaitOp 0) [] ∅)
                                                  (getAttrs op)]
                            else [op]
                  else [op]))
  = if sup
    then if d
         then (fun op => addWSNamedAttrs (mkOp (AsyncWaitOp 0) [] ∅)
                                         (getAttrs op))
                <$> filter (fun o => isAsyncWait o = true) l
         else filter (fun o => isAsyncWait o = true) l
    else [].
Proof.
  induction l as [|op l IH]; [by destruct sup, d|].
  rewrite bind_cons, filter_app, IH, filter_cons.
  destruct (isAsyncWait op) eqn:Hop.
  - assert (Hall : isAsyncWait (addWSNamedAttrs (mkOp (AsyncWaitOp 0) [] ∅)
                                                 (getAttrs op)) = true).
    { unfold isAsyncWait. by rewrite addWSNamedAttrs_kind. }
    destruct sup, d; simpl; rewrite ?filter_cons, ?filter_nil; try done.
    + by rewrite decide_True.
    + by rewrite Hop.
  - rewrite filter_cons, filter_nil, Hop. simpl. by destruct sup, d.
Qed.

Section MarkersAfterDecomposition.
Variable computeCapability : Z.
Variable target : Target.
Variable getPtrContiguity : Value -> Z.
Variable getMaskAlignment : Value -> Z.
Variable getEligibleLoadByteWidth : Z -> gset Z.
Variable asyncCommitGroupIsSupported : Z -> bool.
Variable asyncWaitIsSupported : Z -> bool.

Abbreviation decompose :=
  (decomposeInsertSliceAsyncOp_flag computeCapability target getPtrContiguity
     getMaskAlignment getEligibleLoadByteWidth asyncCommitGroupIsSupported
     asyncWaitIsSupported).
Abbreviation visit1 :=
  (decomposeVisit computeCapability getPtrContiguity getMaskAlignment
     getEligibleLoadByteWidth).

(** The first walk puts no marker in place of an operation that is
    none. *)
Lemma decomposeVisit_new_ops st op st' new_ops reps :
  visit1 st op = Some (st', new_ops, reps) ->
  new_ops = [op]
  \/ exists load ins,
       new_ops = [load; ins] /\ isAsyncMarker load = false
       /\ isAsyncMarker ins = false /\ isAsyncMarker op = false.
Proof.
  unfold decomposeVisit.
  destruct (op_kind op) eqn:Hk; try (intros [= <- <- <-]; by left).
  repeat case_match; try done; intros [= <- <- <-]; [by left|].
  right. eexists _, _. split; [done|].
  unfold isAsyncMarker, buildLoadOp, buildInsertSliceOp.
  by rewrite !addWSNamedAttrs_kind, Hk.
Qed.

Lemma decomposeVisit_commits st op st' new_ops reps :
  visit1 st op = Some (st', new_ops, reps) ->
  filter (fun o => isAsyncCommitGroup o = true) new_ops
  = filter (fun o => isAsyncCommitGroup o = true) [op].
Proof.
  intros [->|(load & ins & -> & Hl & Hi & Ho)]%decomposeVisit_new_ops; [done|].
  rewrite !filter_cons, !filter_nil.
  unfold isAsyncMarker, isAsyncCommitGroup in *.
  destruct (op_kind load), (op_kind ins), (op_kind op); done.
Qed.

Lemma decomposeVisit_waits st op st' new_ops reps :
  visit1 st op = Some (st', new_ops, reps) ->
  filter (fun o => isAsyncWait o = true) new_ops
  = filter (fun o => isAsyncWait o = true) [op].
Proof.
  intros [->|(load & ins & -> & Hl & Hi & Ho)]%decomposeVisit_new_ops; [done|].
  rewrite !filter_cons, !filter_nil.
  unfold isAsyncMarker, isAsyncWait in *.
  destruct (op_kind load), (op_kind ins), (op_kind op); done.
Qed.

(** The callbacks of the second and third walk as functions of the
    operation. *)
Lemma commitVisit_fun st op :
  commitVisit computeCapability asyncCommitGroupIsSupported st op
  = Some (st,
          if isAsyncCommitGroup op
             && negb (asyncCommitGroupIsSupported computeCapability)
          then [] else [op], []).
Proof.
  unfold commitVisit, isAsyncCommitGroup.
  destruct (op_kind op); try done.
  by destruct (asyncCommitGroupIsSupported computeCapability).
Qed.

Lemma waitVisit_fun st op :
  waitVisit computeCapability asyncWaitIsSupported st op
  = Some (st,
          if isAsyncWait op
          then if negb (asyncWaitIsSupported computeCapability) then []
               else if ds_decomposed st
                    then [addWSNamedAttrs (mkOp (AsyncWaitOp 0) [] ∅)
                                          (getAttrs op)]
                    else [op]
          else [op], []).
Proof.
  unfold waitVisit, isAsyncWait.
  destruct (op_kind op); try done.
  destruct (asyncWaitIsSupported computeCapability); [|done].
  by destruct (ds_decomposed st).
Qed.

(** What the three walks make of a module on GENX. *)
Lemma decompose_walks m d m' :
  target = GENX ->
  decompose m = Some (d, m') ->
  exists st1 m1,
    walkModule (fun _ => visit1) (mkDS (nextId m) false) m = Some (st1, m1)
    /\ d = ds_decomposed st1
    /\ module_ops m'
       = (module_ops m1
            ≫= (fun op => if isAsyncCommitGroup op
                             && negb (asyncCommitGroupIsSupported
                                        computeCapability)
                          then [] else [op]))
           ≫= (fun op =>
                 if isAsyncWait op
                 then if negb (asyncWaitIsSupported computeCapability) then []
                      else if d
                           then [addWSNamedAttrs (mkOp (AsyncWaitOp 0) [] ∅)
                                                 (getAttrs op)]
                           else [op]
                 else [op]).
Proof.
  intros -> Hrun. unfold decomposeInsertSliceAsyncOp_flag in Hrun.
  rewrite bool_decide_eq_false_2 in Hrun by (intros H; by apply H).
  destruct (walkModule _ _ m) as [[st1 m1]|] eqn:H1; [|done].
  exists st1, m1. split; [done|].
  rewrite (walkModule_local _ _ _ _ (fun _ => commitVisit_fun st1)) in Hrun.
  rewrite (walkModule_local _ _ _ _ (fun _ => waitVisit_fun st1)) in Hrun.
  injection Hrun as <- <-. split; [done|].
  rewrite module_ops_local_bind. cbn [mod_attrs mod_items].
  by rewrite module_ops_local_bind.
Qed.

Lemma decompose_first_walk_filter (P : Operation -> bool) m st1 m1 :
  (forall f op, P (mapOpOperands f op) = P op) ->
  (forall f op, P op = true -> mapOpOperands f op = op) ->
  (forall st op st' new_ops reps,
      visit1 st op = Some (st', new_ops, reps) ->
      filter (fun o => P o = true) new_ops = filter (fun o => P o = true) [op]) ->
  walkModule (fun _ => visit1) (mkDS (nextId m) false) m = Some (st1, m1) ->
  filter (fun o => P o = true) (module_ops m1)
  = filter (fun o => P o = true) (module_ops m).
Proof.
  intros HP Hfix Hv Hwalk. unfold walkModule in Hwalk.
  destruct (walkItems _ _ _) as [[st' items']|] eqn:Hitems; [|done].
  injection Hwalk as <- <-. unfold module_ops. cbn [mod_items].
  eapply (walkItems_filter (fun _ => visit1) P); eauto.
Qed.

Lemma filter_bind_commit (b : bool) l :
  filter (fun o => isAsyncCommitGroup o = true)
         (l ≫= (fun op => if isAsyncCommitGroup op && b then [] else [op]))
  = if b then [] else filter (fun o => isAsyncCommitGroup o = true) l.
Proof.
  induction l as [|op l IH]; [by destruct b|].
  rewrite bind_cons, filter_app, IH, filter_cons.
  destruct (isAsyncCommitGroup op) eqn:Hop, b; simpl;
    rewrite ?filter_cons, ?filter_nil, ?Hop; simpl; try done.
Qed.

(** X16.  The step changes nothing where there is nothing to do.  On a
    target other than GENX the module is returned as it is, whatever
    the capability, and the flag stays unset.  On any target, when
    commit groups and waits are supported and the byte width of every
    async copy of the module is eligible, the module is returned as it
    is and the flag stays unset. *)
Theorem decompose_leaves_eligible_copies m :
  target <> GENX
  \/ (asyncCommitGroupIsSupported computeCapability = true
      /\ asyncWaitIsSupported computeCapability = true
      /\ forall op src dst index mask other cache evict isVolatile axis,
           op ∈ module_ops m ->
           op_kind op = InsertSliceAsyncOp src dst index mask other cache evict
                                           isVolatile axis ->
           exists minVec byteWidth,
             vectorizedLoadSize getPtrContiguity getMaskAlignment src dst mask
             = Some (minVec, byteWidth)
             /\ byteWidth ∈ getEligibleLoadByteWidth computeCapability) ->
  decompose m = Some (false, m).
Proof.
  intros H. unfold decomposeInsertSliceAsyncOp_flag.
  destruct (decide (target = GENX)) as [Ht|Ht];
    [|by rewrite bool_decide_eq_true_2].
  rewrite bool_decide_eq_false_2 by (intros Hn; by apply Hn).
  destruct H as [H|(Hc & Hw & Hel)]; [done|].
  assert (H1 : walkModule (fun _ => visit1) (mkDS (nextId m) false) m
               = Some (mkDS (nextId m) false, m)).
  { unfold walkModule. rewrite walkItems_id; [by destruct m|].
    apply Forall_forall. intros it Hit. apply Forall_forall. intros op Hop.
    assert (Hin : op ∈ module_ops m).
    { unfold module_ops. apply list_elem_of_bind. eauto. }
    unfold decomposeVisit. destruct (op_kind op) eqn:Hk; try done.
    destruct (Hel _ _ _ _ _ _ _ _ _ _ Hin Hk) as (minVec & bw & Hsz & Hbw).
    rewrite Hsz.
    destruct (vectorizedLoadSize_tensors _ _ _ _ _ _ Hsz)
      as (srcTy & dstTy & -> & ->).
    by rewrite bool_decide_eq_true_2. }
  rewrite H1.
  rewrite (walkModule_local _ _ _ _ (fun _ => commitVisit_fun _)).
  rewrite (walkModule_local _ _ _ _ (fun _ => waitVisit_fun _)).
  cbn [mod_attrs mod_items ds_decomposed]. rewrite Hc, Hw. simpl.
  do 2 f_equal. destruct m as [attrs items]. simpl. f_equal.
  rewrite <- list_fmap_compose.
  rewrite <- (list_fmap_id items) at 2. apply list_fmap_ext. intros _ it _.
  simpl.
  assert (Hbind : forall (c : Operation -> bool) (l : list Operation),
             l ≫= (fun op => if c op then [op] else [op]) = l).
  { intros c l. induction l as [|x l IH]; [done|].
    rewrite bind_cons, IH. by destruct (c x). }
  assert (H2 : item_body it
               ≫= (fun op => if isAsyncCommitGroup op && false then [] else [op])
               = item_body it).
  { induction (item_body it) as [|x l IH]; [done|].
    rewrite bind_cons, IH. by rewrite andb_false_r. }
  rewrite H2, item_set_body_same.
  rewrite Hbind. apply item_set_body_same.
Qed.

(** X17.  The commit markers after the step, on GENX: when the
    capability supports commit groups they are the commit markers of
    the module before, in order; when it does not, there is none. *)
Theorem commit_groups_after_decomposition m d m' :
  target = GENX ->
  decompose m = Some (d, m') ->
  filter (fun o => isAsyncCommitGroup o = true) (module_ops m')
  = if asyncCommitGroupIsSupported computeCapability
    then filter (fun o => isAsyncCommitGroup o = true) (module_ops m)
    else [].
Proof.
  intros Ht Hrun.
  destruct (decompose_walks _ _ _ Ht Hrun) as (st1 & m1 & H1 & -> & ->).
  rewrite filter_bind_same.
  2:{ intros op. destruct (isAsyncWait op) eqn:Hop; [|done].
      assert (Hc : isAsyncCommitGroup op = false).
      { unfold isAsyncWait, isAsyncCommitGroup in *. by destruct (op_kind op). }
      rewrite filter_cons, filter_nil, Hc.
      destruct (negb _); [done|]. destruct (ds_decomposed st1); [|by rewrite filter_cons, Hc].
      assert (Hall : isAsyncCommitGroup
                       (addWSNamedAttrs (mkOp (AsyncWaitOp 0) [] ∅)
                                        (getAttrs op)) = false).
      { unfold isAsyncCommitGroup. by rewrite addWSNamedAttrs_kind. }
      by rewrite filter_cons, filter_nil, Hall. }
  rewrite filter_bind_commit.
  destruct (asyncCommitGroupIsSupported computeCapability); simpl; [|done].
  eapply decompose_first_walk_filter; eauto using decomposeVisit_commits,
    isAsyncCommitGroup_mapOpOperands, isAsyncCommitGroup_fixed.
Qed.

(** X18.  The wait markers after the step, on GENX.  Without support
    for waits there is none.  With support and no copy decomposed they
    are the waits of the module before.  With support and a copy
    decomposed there is one wait for each wait of the module before,
    in order: it waits for all groups ([num = 0]), has no result, and
    carries of the attributes of the wait it replaces the ones named
    [async_agent] and [agent.mutex_role], and no other. *)
Theorem waits_after_decomposition m d m' :
  target = GENX ->
  decompose m = Some (d, m') ->
  let before := filter (fun o => isAsyncWait o = true) (module_ops m) in
  let after := filter (fun o => isAsyncWait o = true) (module_ops m') in
  if asyncWaitIsSupported computeCapability
  then if d
       then Forall2 (fun w w' =>
                       op_kind w' = AsyncWaitOp 0 /\ op_results w' = []
                       /\ op_attrs w'
                          = filter (fun kv => isWSName kv.1 = true) (op_attrs w))
                    before after
       else after = before
  else after = [].
Proof.
  intros Ht Hrun before after. subst before after.
  destruct (decompose_walks _ _ _ Ht Hrun) as (st1 & m1 & H1 & -> & ->).
  rewrite filter_bind_wait.
  rewrite filter_bind_same.
  2:{ intros op. destruct (isAsyncCommitGroup op && _) eqn:Hop; [|done].
      apply andb_true_iff in Hop as [Hop _].
      rewrite filter_cons, filter_nil.
      unfold isAsyncWait, isAsyncCommitGroup in *. by destruct (op_kind op). }
  rewrite (decompose_first_walk_filter isAsyncWait m st1 m1);
    eauto using decomposeVisit_waits, isAsyncWait_mapOpOperands,
      isAsyncWait_fixed.
  destruct (asyncWaitIsSupported computeCapability); [|done].
  destruct (ds_decomposed st1); [|done].
  apply Forall2_fmap_r, Forall_Forall2_diag, Forall_forall. intros w _.
  split; [apply addWSNamedAttrs_kind|].
  split; [apply addWSNamedAttrs_results|].
  rewrite addWSNamedAttrs_attrs. simpl. by rewrite (right_id_L ∅ (∪)).
Qed.

End MarkersAfterDecomposition.

(** The example kernel, whose copy of 8 bytes is eligible at
    capability 80: the step returns the module as it is. *)
Lemma decompose_leaves_eligible_copies_witness :
  decomposeInsertSliceAsyncOp_flag 80 GENX (fun _ => 8) (fun _ => 2)
    Examples.eligibleLoadByteWidth Examples.asyncSupported
    Examples.asyncSupported Examples.eligibleModule
  = Some (false, Examples.eligibleModule).
Proof.
  apply (decompose_leaves_eligible_copies 80 GENX (fun _ => 8) (fun _ => 2)
           Examples.eligibleLoadByteWidth Examples.asyncSupported
           Examples.asyncSupported Examples.eligibleModule).
  right. split; [reflexivity|]. split; [reflexivity|].
  intros op src dst index msk other cache evict isVolatile axis Hin Hk.
  unfold module_ops in Hin.
  cbn [Examples.eligibleModule mod_items mbind list_bind item_body
       Examples.eligibleKernel func_body app] in Hin.
  apply elem_of_cons in Hin as [->|Hin].
  - injection Hk as <- <- <- <- <- <- <- <- <-.
    exists 2, 8. split; [reflexivity|]. vm_compute. set_solver.
  - repeat (apply elem_of_cons in Hin as [->|Hin]; [discriminate Hk|]).
    by apply elem_of_nil in Hin.
Defined.

(** The example kernel at capability 70, which has no commit groups:
    no commit marker is left. *)
Lemma commit_groups_after_decomposition_witness :
  exists d m',
    decomposeInsertSliceAsyncOp_flag 70 GENX (fun _ => 1) (fun _ => 1)
      Examples.eligibleLoadByteWidth Examples.asyncSupported
      Examples.asyncSupported Examples.pipelinedModule = Some (d, m')
    /\ filter (fun o => isAsyncCommitGroup o = true) (module_ops m') = [].
Proof.
  destruct (decomposeInsertSliceAsyncOp_flag 70 GENX (fun _ => 1) (fun _ => 1)
              Examples.eligibleLoadByteWidth Examples.asyncSupported
              Examples.asyncSupported Examples.pipelinedModule)
    as [[d m']|] eqn:Hrun; [|by vm_compute in Hrun].
  exists d, m'. split; [reflexivity|].
  exact (commit_groups_after_decomposition 70 GENX (fun _ => 1) (fun _ => 1)
           Examples.eligibleLoadByteWidth Examples.asyncSupported
           Examples.asyncSupported Examples.pipelinedModule d m' eq_refl Hrun).
Defined.

(** The example kernel at capability 80: its 2-byte copy is
    decomposed, and its wait for all but two groups, which carries the
    attributes [async_agent], [agent.mutex_role] and [axis], gives way
    to a wait for all groups with the first two of them. *)
Lemma waits_after_decomposition_witness :
  exists m',
    decomposeInsertSliceAsyncOp_flag 80 GENX (fun _ => 1) (fun _ => 1)
      Examples.eligibleLoadByteWidth Examples.asyncSupported
      Examples.asyncSupported Examples.pipelinedModule = Some (true, m')
    /\ Forall2 (fun w w' =>
                  op_kind w' = AsyncWaitOp 0 /\ op_results w' = []
                  /\ op_attrs w'
                     = filter (fun kv => isWSName kv.1 = true) (op_attrs w))
               [mkOp (AsyncWaitOp 2) [] Examples.wsAttrs]
               (filter (fun o => isAsyncWait o = true) (module_ops m')).
Proof.
  destruct (decomposeInsertSliceAsyncOp_flag 80 GENX (fun _ => 1) (fun _ => 1)
              Examples.eligibleLoadByteWidth Examples.asyncSupported
              Examples.asyncSupported Examples.pipelinedModule)
    as [[d m']|] eqn:Hrun; [|by vm_compute in Hrun].
  assert (Hd : d = true) by (vm_compute in Hrun; congruence).
  subst d. exists m'. split; [reflexivity|].
  exact (waits_after_decomposition 80 GENX (fun _ => 1) (fun _ => 1)
           Examples.eligibleLoadByteWidth Examples.asyncSupported
           Examples.asyncSupported Examples.pipelinedModule true m' eq_refl
           Hrun).
Defined.

(** ** Async-copy decomposition: the other operations (lines 599-687) *)

(** Filtering commutes with an edit that does not change what the
    filter tests. *)
Lemma filter_fmap_stable (P : Operation -> bool) (g : Operation -> Operation)
    (l : list Operation) :
  (forall op, P (g op) = P op) ->
  filter (fun o => P o = true) (g <$> l) = g <$> filter (fun o => P o = true) l.
Proof.
  intros HP. induction l as [|op l IH]; [done|].
  rewrite fmap_cons, !filter_cons, HP, IH.
  by destruct (decide (P op = true)).
Qed.

Lemma filter_ext_elem (P Q : Operation -> bool) (l : list Operation) :
  (forall op, op ∈ l -> P op = Q op) ->
  filter (fun o => P o = true) l = filter (fun o => Q o = true) l.
Proof.
  induction l as [|op l IH]; intros H; [done|].
  rewrite !filter_cons, (H op), IH; [done| |apply list_elem_of_here].
  intros o Ho. apply H. by apply list_elem_of_further.
Qed.

Lemma isOtherThanAsync_mapOpOperands f op :
  isOtherThanAsync (mapOpOperands f op) = isOtherThanAsync op.
Proof. destruct op as [[] ? ?]; done. Qed.

Lemma definesFresh_mapOpOperands next0 f op :
  definesFresh next0 (mapOpOperands f op) = definesFresh next0 op.
Proof. done. Qed.

(** An operation all of whose values are older than [next0] defines no
    fresh value. *)
Lemma definesFresh_old next0 op :
  (forall v, v ∈ op_values op -> (v_id v < next0)%nat) ->
  definesFresh next0 op = false.
Proof.
  intros H. unfold definesFresh. apply not_true_is_false.
  intros (r & Hr & Hle)%existsb_exists.
  apply Nat.leb_le in Hle.
  assert (v_id r < next0)%nat; [|lia].
  apply H. unfold op_values. apply elem_of_app. left.
  by apply list_elem_of_In.
Qed.

Section KeptOperations.
Variable computeCapability : Z.
Variable target : Target.
Variable getPtrContiguity : Value -> Z.
Variable getMaskAlignment : Value -> Z.
Variable getEligibleLoadByteWidth : Z -> gset Z.
Variable asyncCommitGroupIsSupported : Z -> bool.
Variable asyncWaitIsSupported : Z -> bool.

Abbreviation decompose :=
  (decomposeInsertSliceAsyncOp_flag computeCapability target getPtrContiguity
     getMaskAlignment getEligibleLoadByteWidth asyncCommitGroupIsSupported
     asyncWaitIsSupported).
Abbreviation visit1 :=
  (decomposeVisit computeCapability getPtrContiguity getMaskAlignment
     getEligibleLoadByteWidth).
(** The operations of a block that were there before the step and are
    neither async copies nor markers. *)
Abbreviation kept next0 :=
  (fun o : Operation =>
     isOtherThanAsync o && negb (definesFresh next0 o) = true).

Section Block.
Variable orig : list Operation.
Variable next0 : nat.
Hypothesis Horig :
  forall op v, op ∈ orig -> v ∈ op_values op -> (v_id v < next0)%nat.

Lemma KeepInv_init st :
  (next0 <= ds_next st)%nat -> KeepInv orig next0 st [] orig.
Proof.
  intros Hle. split; [done|]. split; [intros op Hop Hk; by exists op|].
  exists id. split; [|done].
  rewrite app_nil_l.
  rewrite (list_fmap_ext (mapOpOperands id) id)
    by (intros; apply mapOpOperands_id).
  rewrite list_fmap_id.
  apply (filter_ext_elem
           (fun o => isOtherThanAsync o && negb (definesFresh next0 o))
           isOtherThanAsync).
  intros op Hop. rewrite definesFresh_old; [|intros v; by apply (Horig op)].
  by rewrite andb_true_r.
Qed.

(** A visit keeps the invariant. *)
Lemma KeepInv_step st done op rest st' new_ops reps :
  KeepInv orig next0 st done (op :: rest) ->
  visit1 st op = Some (st', new_ops, reps) ->
  KeepInv orig next0 st' (replaceAllUsesWith reps (done ++ new_ops))
          (replaceAllUsesWith reps rest).
Proof.
  intros (Hle & Hcopies & sigma & Hkept & Hfix) Hv.
  apply decomposeVisit_cases in Hv
    as [(-> & -> & -> & _)
       |(src & dst & index & msk & other & cache & evict & isVolatile & axis
         & srcTy & dstTy & srcBlocked & offsets & old0 & Hk & Hoff & Hold0
         & -> & -> & ->)].
  { unfold KeepInv. rewrite !replaceAllUsesWith_nil, <- app_assoc.
    split; [done|]. split; [done|]. by exists sigma. }
  unfold KeepInv.
  set (new := insertSliceResult (ds_next st) dst).
  set (load := buildLoadOp _ _ _ _ _ _ _ _ _ _ _).
  set (ins := buildInsertSliceOp _ _ _ _ _ _ _ _).
  assert (Hop : isInsertSliceAsync op = true).
  { unfold isInsertSliceAsync. by rewrite Hk. }
  assert (Hload : isInsertSliceAsync load = false
                  /\ definesFresh next0 load = true).
  { subst load. unfold isInsertSliceAsync, definesFresh, buildLoadOp.
    rewrite addWSNamedAttrs_kind, addWSNamedAttrs_results. simpl.
    split; [done|]. rewrite orb_false_r. apply Nat.leb_le. lia. }
  assert (Hins : isInsertSliceAsync ins = false
                 /\ definesFresh next0 ins = true).
  { subst ins. unfold isInsertSliceAsync, definesFresh, buildInsertSliceOp.
    rewrite addWSNamedAttrs_kind, addWSNamedAttrs_results. simpl.
    split; [done|]. rewrite orb_false_r. apply Nat.leb_le. lia. }
  rewrite !replaceAllUsesWith_one, <- fmap_app, <- app_assoc.
  split; [simpl; lia|]. split.
  - intros o (o0 & -> & Ho0)%list_elem_of_fmap Hko.
    rewrite isInsertSliceAsync_mapOpOperands in Hko.
    assert (Hin : o0 ∈ done ++ op :: rest).
    { rewrite !elem_of_app in Ho0. rewrite elem_of_app.
      destruct Ho0 as [?|[Hnew|?]]; [by left| |right; by right].
      apply elem_of_cons in Hnew as [->|Hnew]; [by rewrite (proj1 Hload) in Hko|].
      apply list_elem_of_singleton in Hnew as ->.
      by rewrite (proj1 Hins) in Hko. }
    destruct (Hcopies o0 Hin Hko) as (op0 & ? & ? & ?). by exists op0.
  - exists (rauw old0 new ∘ sigma). split.
    + rewrite filter_fmap_stable
        by (intros o; by rewrite isOtherThanAsync_mapOpOperands).
      rewrite !filter_app in *. rewrite !filter_cons in *.
      rewrite filter_nil.
      assert (Hnot : forall o, isInsertSliceAsync o = true ->
                 isOtherThanAsync o && negb (definesFresh next0 o) = false).
      { intros o Ho. unfold isOtherThanAsync. by rewrite Ho. }
      rewrite (decide_False (P := kept next0 op)) in Hkept
        by (rewrite Hnot; done).
      rewrite (decide_False (P := kept next0 load))
        by (rewrite (proj2 Hload), andb_false_r; done).
      rewrite (decide_False (P := kept next0 ins))
        by (rewrite (proj2 Hins), andb_false_r; done).
      simpl. rewrite Hkept, <- list_fmap_compose.
      apply list_fmap_ext. intros _ o _. simpl.
      by rewrite mapOpOperands_compose.
    + intros v Hv. simpl. rewrite (Hfix v Hv). unfold rauw.
      destruct (Hcopies op) as (op0 & Hop0 & Hk0 & Hr0);
        [apply elem_of_app; right; apply list_elem_of_here|done|].
      rewrite Hold0 in Hr0.
      specialize (Hv op0 old0 Hop0 Hk0 Hr0).
      unfold same_value.
      by rewrite (proj2 (Nat.eqb_neq (v_id v) (v_id old0))).
Qed.

Lemma KeepInv_walkBlock st st' out :
  (next0 <= ds_next st)%nat ->
  walkBlock visit1 st orig = Some (st', out) ->
  KeepInv orig next0 st' out [].
Proof.
  intros Hle Hwalk.
  refine (walk_invariant _ (KeepInv orig next0) _ (length orig) st [] orig
            st' out _ _ Hwalk); [|done|by apply KeepInv_init].
  intros. by eapply KeepInv_step.
Qed.

End Block.

Lemma kept_commit_edit next0 op :
  filter (kept next0)
         (if isAsyncCommitGroup op
             && negb (asyncCommitGroupIsSupported computeCapability)
          then [] else [op])
  = filter (kept next0) [op].
Proof.
  destruct (isAsyncCommitGroup op && _) eqn:Hc; [|done].
  apply andb_true_iff in Hc as [Hc _].
  rewrite filter_cons, filter_nil, decide_False; [done|].
  unfold isOtherThanAsync, isAsyncMarker, isAsyncCommitGroup in *.
  destruct (op_kind op); try done. by rewrite andb_false_r.
Qed.

Lemma kept_wait_edit next0 (d : bool) op :
  filter (kept next0)
         (if isAsyncWait op
          then if negb (asyncWaitIsSupported computeCapability) then []
               else if d
                    then [addWSNamedAttrs (mkOp (AsyncWaitOp 0) [] ∅)
                                          (getAttrs op)]
                    else [op]
          else [op])
  = filter (kept next0) [op].
Proof.
  destruct (isAsyncWait op) eqn:Hw; [|done].
  assert (Hop : isOtherThanAsync op = false).
  { unfold isOtherThanAsync, isAsyncMarker, isAsyncWait in *.
    destruct (op_kind op); try done. by rewrite andb_false_r. }
  assert (Hnew : isOtherThanAsync
                   (addWSNamedAttrs (mkOp (AsyncWaitOp 0) [] ∅) (getAttrs op))
                 = false).
  { unfold isOtherThanAsync, isAsyncMarker.
    rewrite addWSNamedAttrs_kind. simpl. by rewrite andb_false_r. }
  rewrite (filter_cons _ op), filter_nil, decide_False by (by rewrite Hop).
  destruct (negb _); [done|]. destruct d; [|by rewrite filter_cons, filter_nil,
                                               decide_False by (by rewrite Hop)].
  by rewrite filter_cons, filter_nil, decide_False by (by rewrite Hnew).
Qed.

(** The second and third walk do not touch the kept operations. *)
Lemma kept_after_markers next0 (d : bool) (body : list Operation) :
  filter (kept next0)
         ((body ≫= (fun op =>
                      if isAsyncCommitGroup op
                         && negb (asyncCommitGroupIsSupported computeCapability)
                      then [] else [op]))
            ≫= (fun op =>
                  if isAsyncWait op
                  then if negb (asyncWaitIsSupported computeCapability) then []
                       else if d
                            then [addWSNamedAttrs (mkOp (AsyncWaitOp 0) [] ∅)
                                                  (getAttrs op)]
                            else [op]
                  else [op]))
  = filter (kept next0) body.
Proof.
  etransitivity.
  - apply (filter_bind_same
             (fun o => isOtherThanAsync o && negb (definesFresh next0 o))).
    intros op. apply kept_wait_edit.
  - apply (filter_bind_same
             (fun o => isOtherThanAsync o && negb (definesFresh next0 o))).
    intros op. apply kept_commit_edit.
Qed.

(** X19.  The step leaves every other operation alone, on GENX,
    function by function.  The operations that are neither async copies
    nor commit or wait markers, and that the step did not build itself
    (their results have identities from before the step), are after the
    step the same as before, in the same order, with the same kind,
    results and attributes; a replacement of values has been applied to
    their operands, and it changes no value but results of async
    copies. *)
Theorem decomposition_keeps_other_operations m d m' :
  target = GENX ->
  decompose m = Some (d, m') ->
  Forall2 (fun it it' =>
             exists sigma,
               filter (kept (nextId m)) (item_body it')
               = mapOpOperands sigma
                   <$> filter (fun o => isOtherThanAsync o = true)
                              (item_body it)
               /\ forall v,
                    (forall op old,
                        op ∈ item_body it -> isInsertSliceAsync op = true ->
                        getResult op = Some old -> v_id old <> v_id v) ->
                    sigma v = v)
          (mod_items m) (mod_items m').
Proof.
  intros Ht Hrun.
  destruct (decompose_walks_items _ _ _ _ _ _ _ _ _ _ Ht Hrun)
    as (st1 & m1 & H1 & -> & Hitems).
  unfold walkModule in H1.
  destruct (walkItems _ _ _) as [[st1' items1]|] eqn:Hw; [|done].
  injection H1 as -> <-. cbn [mod_items] in Hitems.
  destruct (walkItems_Forall2 (fun _ => visit1)
              (fun st => (nextId m <= ds_next st)%nat)
              (fun it => it ∈ mod_items m)
              (fun it body' =>
                 exists sigma,
                   filter (kept (nextId m)) body'
                   = mapOpOperands sigma
                       <$> filter (fun o => isOtherThanAsync o = true)
                                  (item_body it)
                   /\ forall v,
                        (forall op old,
                            op ∈ item_body it -> isInsertSliceAsync op = true ->
                            getResult op = Some old -> v_id old <> v_id v) ->
                        sigma v = v))
    with (items := mod_items m) (st := mkDS (nextId m) false) (st' := st1)
         (items' := items1)
    as [_ HF]; try done.
  { intros it st st' body' Hit Hst Hb.
    assert (Hinv : KeepInv (item_body it) (nextId m) st' body' []).
    { eapply KeepInv_walkBlock; [|done|exact Hb].
      intros op v. by apply nextId_fresh. }
    destruct Hinv as (Hle & _ & sigma & Hkept & Hfix).
    rewrite app_nil_r in Hkept. split; [done|]. by exists sigma. }
  { by apply Forall_forall. }
  rewrite Hitems. do 2 apply Forall2_fmap_r.
  eapply Forall2_impl; [exact HF|]. cbv beta.
  intros it it1 (body1 & -> & sigma & Hkept & Hfix). exists sigma.
  split; [|done].
  destruct it; cbn [item_set_body item_body func_body llvm_body] in *;
    [| |done]; by rewrite <- Hkept, kept_after_markers.
Qed.

End KeptOperations.

(** The example kernel at capability 80, whose values have the
    identities 0 to 5: the layout conversion and the return are kept. *)
Lemma decomposition_keeps_other_operations_witness :
  exists m',
    decomposeInsertSliceAsyncOp_flag 80 GENX (fun _ => 1) (fun _ => 1)
      Examples.eligibleLoadByteWidth Examples.asyncSupported
      Examples.asyncSupported Examples.pipelinedModule = Some (true, m')
    /\ Forall2 (fun it it' =>
                  exists sigma,
                    filter (fun o => isOtherThanAsync o
                                     && negb (definesFresh 6 o) = true)
                           (item_body it')
                    = mapOpOperands sigma
                        <$> filter (fun o => isOtherThanAsync o = true)
                                   (item_body it)
                    /\ forall v,
                         (forall op old,
                             op ∈ item_body it ->
                             isInsertSliceAsync op = true ->
                             getResult op = Some old -> v_id old <> v_id v) ->
                         sigma v = v)
               [TTFunc Examples.pipelinedKernel] (mod_items m').
Proof.
  destruct (decomposeInsertSliceAsyncOp_flag 80 GENX (fun _ => 1) (fun _ => 1)
              Examples.eligibleLoadByteWidth Examples.asyncSupported
              Examples.asyncSupported Examples.pipelinedModule)
    as [[d m']|] eqn:Hrun; [|by vm_compute in Hrun].
  assert (Hd : d = true) by (vm_compute in Hrun; congruence).
  subst d. exists m'. split; [reflexivity|].
  exact (decomposition_keeps_other_operations 80 GENX (fun _ => 1)
           (fun _ => 1) Examples.eligibleLoadByteWidth
           Examples.asyncSupported Examples.asyncSupported
           Examples.pipelinedModule true m' eq_refl Hrun).
Defined.

(** ** The pass as a whole (lines 359-537) *)

Section PassResult.
Variable computeCapability : Z.
Variable target : Target.
Variable getNumWarps : ModuleOp -> Z.
Variable getNumCTAs : ModuleOp -> Z.
Variable getThreadsPerWarp : ModuleOp -> Z.
Variable getPtrContiguity : ModuleOp -> Value -> Z.
Variable getMaskAlignment : ModuleOp -> Value -> Z.
Variable getEligibleLoadByteWidth : Z -> gset Z.
Variable asyncCommitGroupIsSupported : Z -> bool.
Variable asyncWaitIsSupported : Z -> bool.
Variable membar : ModuleOp -> ModuleOp.
Variable typeConverter : type -> option type.
Variable funcTypeConverter : type -> option type.
Variable isKernel : FuncOp -> bool.
Variable filterFuncAttributes : FuncOp -> bool -> AttrDict.
Variable getKernelFuncAttrName : string.
Variable getMaxWorkGroupSizeAttrName : string.
Variable getReqdSubGroupSizeAttrName : string.
Variable promoteOperand : Value -> Value -> Value.
Variable mainConversion : Z -> ModuleOp -> option ModuleOp.

(** Whenever the fold goes through, no result of a cluster CTA id has a
    use. *)
Lemma foldCTAId_no_use m m' :
  foldCTAId 1 m = Some m' ->
  forall it v,
    it ∈ mod_items m' ->
    isClusterCTAId (item_body it) v -> ~ isUsedIn (item_body it) v.
Proof.
  unfold foldCTAId. rewrite bool_decide_eq_true_2 by done.
  intros ((st' & m'') & Hwalk & ->)%fmap_Some. simpl.
  unfold walkModule in Hwalk.
  destruct (walkItems _ _ _) as [[st1 items']|] eqn:Hw; [|done].
  injection Hwalk as -> <-. cbn [mod_items].
  destruct (walkItems_Forall2 (fun _ => foldCTAIdVisit)
              (fun st => (nextId m <= st)%nat)
              (fun it => it ∈ mod_items m)
              (fun it body' =>
                 forall v, isClusterCTAId body' v -> ~ isUsedIn body' v))
    with (items := mod_items m) (st := nextId m) (st' := st') (items' := items')
    as [_ HF]; try done.
  - intros it st st1 body' Hit Hst Hb.
    assert (Hfresh : forall op v, op ∈ item_body it -> v ∈ op_values op ->
                                  (v_id v < nextId m)%nat).
    { intros op v. by apply nextId_fresh. }
    assert (Hinv : FoldInv (item_body it) (nextId m) st1 body' []).
    { by eapply FoldInv_walkBlock. }
    split; [by destruct Hinv as (_ & _ & _ & _ & _ & _ & Hle & _)|].
    destruct (FoldInv_final _ _ Hfresh _ _ Hinv) as (sigma & _ & _ & H).
    exact H.
  - by apply Forall_forall.
  - intros it v [i Hi]%list_elem_of_lookup.
    destruct (Forall2_lookup_r _ _ _ _ _ HF Hi) as (it0 & _ & body' & -> & H).
    rewrite item_body_set_body.
    destruct it0; try by apply H.
    intros (id & r & Hin & _). by apply elem_of_nil in Hin.
Qed.

(** X20.  The module the pass returns.  The number of CTAs is read from
    the module the pass is given, before any stage runs, and narrowed
    to [int].  When it is 1, no operation of the module returned uses
    the result of a cluster CTA id, in any function.  When it is not 1,
    the module returned is the one the main conversion returned: the
    pass does nothing after it. *)
Theorem pass_folds_cluster_cta_id m m' :
  runOnOperation computeCapability target getNumWarps getNumCTAs
    getThreadsPerWarp getPtrContiguity getMaskAlignment
    getEligibleLoadByteWidth asyncCommitGroupIsSupported asyncWaitIsSupported
    membar typeConverter funcTypeConverter isKernel filterFuncAttributes
    getKernelFuncAttrName getMaxWorkGroupSizeAttrName
    getReqdSubGroupSizeAttrName promoteOperand mainConversion m = Some m' ->
  (i32 (getNumCTAs m) = 1 ->
   forall it v,
     it ∈ mod_items m' ->
     isClusterCTAId (item_body it) v -> ~ isUsedIn (item_body it) v)
  /\ (i32 (getNumCTAs m) <> 1 ->
      exists numWarps m3,
        effectiveNumWarps getNumWarps m = Some numWarps
        /\ mainConversion numWarps m3 = Some m').
Proof.
  unfold runOnOperation. intros Hrun.
  apply bind_Some in Hrun as (numWarps & Hwarps & Hrun).
  apply bind_Some in Hrun as (m1 & _ & Hrun).
  apply bind_Some in Hrun as (m2 & _ & Hrun).
  apply bind_Some in Hrun as (m3 & Hmain & Hrun).
  split.
  - intros Hn. rewrite Hn in Hrun. by eapply foldCTAId_no_use.
  - intros Hn. unfold foldCTAId in Hrun.
    rewrite bool_decide_eq_false_2 in Hrun by done.
    injection Hrun as <-. by exists numWarps, m2.
Qed.

End PassResult.

(** The example kernel that adds the cluster CTA id to itself, run
    through the pass for one CTA with a main conversion that leaves the
    module alone. *)
Lemma pass_folds_cluster_cta_id_witness :
  exists m',
    runOnOperation 80 NVVM (fun _ => 4) (fun _ => 1) (fun _ => 32)
      (fun _ _ => 1) (fun _ _ => 1) Examples.eligibleLoadByteWidth
      Examples.asyncSupported Examples.asyncSupported (fun m => m)
      Examples.convertId Examples.convertId Examples.isKernelByName
      Examples.keepAttrs Examples.genxKernel Examples.genxMaxWorkGroupSize
      Examples.genxReqdSubGroupSize (fun _ v => v) (fun _ m => Some m)
      Examples.ctaModule = Some m'
    /\ forall it v,
         it ∈ mod_items m' ->
         isClusterCTAId (item_body it) v -> ~ isUsedIn (item_body it) v.
Proof.
  destruct (runOnOperation 80 NVVM (fun _ => 4) (fun _ => 1) (fun _ => 32)
              (fun _ _ => 1) (fun _ _ => 1) Examples.eligibleLoadByteWidth
              Examples.asyncSupported Examples.asyncSupported (fun m => m)
              Examples.convertId Examples.convertId Examples.isKernelByName
              Examples.keepAttrs Examples.genxKernel
              Examples.genxMaxWorkGroupSize Examples.genxReqdSubGroupSize
              (fun _ v => v) (fun _ m => Some m) Examples.ctaModule)
    as [m'|] eqn:Hrun; [|by vm_compute in Hrun].
  exists m'. split; [reflexivity|].
  exact (proj1 (pass_folds_cluster_cta_id 80 NVVM (fun _ => 4) (fun _ => 1)
                  (fun _ => 32) (fun _ _ => 1) (fun _ _ => 1)
                  Examples.eligibleLoadByteWidth Examples.asyncSupported
                  Examples.asyncSupported (fun m => m) Examples.convertId
                  Examples.convertId Examples.isKernelByName
                  Examples.keepAttrs Examples.genxKernel
                  Examples.genxMaxWorkGroupSize Examples.genxReqdSubGroupSize
                  (fun _ v => v) (fun _ m => Some m) Examples.ctaModule m'
                  Hrun) eq_refl).
Defined.
